(** * csb_util: the CSB container codec ([src/csb_util/csb.py])

    A shallow embedding of the reader ([read_csb] and the three block
    readers) and of the writer ([write_csb] and the three block writers),
    followed by the properties of the format that the specification states.
    The CSV side of the codec ([write_csv], [read_csv]) and the command
    line ([src/csb_util/__main__.py]: the error texts, the file names, the
    selection of the input files, [decode] and [encode]) are embedded as
    well, with further properties of the code at the end.

    Conventions of the embedding:
    - a Python [int] is an [N] (every integer of the codec is a length, a
      position or the result of an unsigned [struct.unpack]);
    - [bytes] is [list byte];
    - a Python [str] is the list of its code points ([pystr]);
    - a [dict] keyed by integers or by strings is a [gmap]; the one place
      where the insertion order of a dict is observed ([dict.fromkeys]) is
      modelled by an ordered list of keys;
    - a call either returns or raises: [outcome]. *)

From Stdlib Require Import NArith Lia.
From Stdlib Require Import Strings.Byte.
From stdpp Require Import gmap list fin_maps strings.

Local Open Scope N_scope.

(** ** Python values *)

Definition pystr := list N.
Definition table := list (list pystr).

Definition is_code_point (c : N) : Prop := c <= 0x10FFFF.
Definition is_surrogate (c : N) : bool := (0xD800 <=? c) && (c <=? 0xDFFF).

(** The code points that [encode] and [decode] leave alone: Unicode scalar
    values, that is code points that are no surrogates. *)
Definition is_scalar (c : N) : Prop :=
  c < 0xD800 \/ (0xE000 <= c /\ c <= 0x10FFFF).

#[global] Instance byte_eq_decision : EqDecision byte := Byte.byte_eq_dec.

(** Exceptions that the codec lets escape. *)
Inductive exn : Set :=
  | StructError   (* struct.error: value out of range, or short buffer *)
  | KeyError      (* dict lookup of an absent key *)
  | IndexError    (* byte[0] on the empty bytes object *)
  | ValueError.   (* seek to an offset that is no file offset *)

Inductive outcome (A : Type) : Type :=
  | Ret (a : A)
  | Raise (e : exn).
Arguments Ret {A} a.
Arguments Raise {A} e.

Definition obind {A B} (m : outcome A) (k : A -> outcome B) : outcome B :=
  match m with
  | Ret a => k a
  | Raise e => Raise e
  end.

Notation "'let+' x ':=' m 'in' k" := (obind m (fun x => k))
  (at level 10, x pattern, m at level 100, k at level 200).

(** [d[k]] on a dict. *)
Definition getitem {K V} `{Countable K} (d : gmap K V) (k : K) : outcome V :=
  match d !! k with
  | Some v => Ret v
  | None => Raise KeyError
  end.

(** class ReadError(enum.Enum) *)
Inductive ReadError : Set :=
  | SUCCESS
  | INVALID_CSB_MAGIC
  | INVALID_BYTE_ORDER
  | INVALID_STRP_MAGIC
  | INVALID_LNP_MAGIC
  | INVALID_LNT_MAGIC
  | INCONSISTENT_TOTAL_LINES
  | INCONSISTENT_MAX_COLUMNS
  | INCONSISTENT_TOTAL_FIELDS.

Definition ReadError_value (e : ReadError) : N :=
  match e with
  | SUCCESS => 0
  | INVALID_CSB_MAGIC => 1
  | INVALID_BYTE_ORDER => 2
  | INVALID_STRP_MAGIC => 3
  | INVALID_LNP_MAGIC => 4
  | INVALID_LNT_MAGIC => 5
  | INCONSISTENT_TOTAL_LINES => 6
  | INCONSISTENT_MAX_COLUMNS => 7
  | INCONSISTENT_TOTAL_FIELDS => 8
  end.

Definition is_consistency_error (e : ReadError) : Prop :=
  e = INCONSISTENT_TOTAL_LINES \/ e = INCONSISTENT_MAX_COLUMNS \/
  e = INCONSISTENT_TOTAL_FIELDS.

#[global] Instance ReadError_eq_decision : EqDecision ReadError.
Proof. solve_decision. Defined.

(** The byte order character of a [struct] format: ["<"] or [">"]. *)
Inductive byte_order : Set := LittleEndian | BigEndian.

(** ** Bytes and [struct] *)

Definition byte_of_N (n : N) : byte :=
  match Byte.of_N (n mod 256) with
  | Some b => b
  | None => x00
  end.

Definition len {A} (l : list A) : N := N.of_nat (length l).

(** The [w] low bytes of [n], least significant first. *)
Fixpoint le_bytes (w : nat) (n : N) : list byte :=
  match w with
  | O => []
  | S w' => byte_of_N n :: le_bytes w' (n / 256)
  end.

Fixpoint le_value (bs : list byte) : N :=
  match bs with
  | [] => 0
  | b :: r => Byte.to_N b + 256 * le_value r
  end.

(** [struct.pack(f"{byte_order}I", n)] for [w = 4] and
    [struct.pack(f"{byte_order}Q", n)] for [w = 8]: an unsigned integer of
    [w] bytes; a value that does not fit raises [struct.error]. *)
Definition int_bytes (w : nat) (order : byte_order) (n : N) : list byte :=
  match order with
  | LittleEndian => le_bytes w n
  | BigEndian => rev (le_bytes w n)
  end.

Definition pack (w : nat) (order : byte_order) (n : N) : outcome (list byte) :=
  if n <? 2 ^ (8 * N.of_nat w) then Ret (int_bytes w order n)
  else Raise StructError.

(** [struct.unpack(f"{byte_order}I", bs)[0]]: the buffer must hold exactly
    [w] bytes. *)
Definition unpack (w : nat) (order : byte_order) (bs : list byte) : outcome N :=
  if decide (length bs = w) then
    Ret (le_value (match order with
                   | LittleEndian => bs
                   | BigEndian => rev bs
                   end))
  else Raise StructError.

Definition pack_I := pack 4.
Definition pack_Q := pack 8.
Definition unpack_I := unpack 4.
Definition unpack_Q := unpack 8.

(** ** UTF-8 with [errors="ignore"]

    [str.encode] and [bytes.decode] belong to the interpreter, not to the
    repository; they are modelled after CPython's codec.  With
    [errors="ignore"] the encoder drops lone surrogates and the decoder drops
    every maximal ill-formed subsequence. *)

Definition utf8_encode_char (c : N) : list byte :=
  if c <? 0x80 then [byte_of_N c]
  else if c <? 0x800 then
    [byte_of_N (0xC0 + c / 64); byte_of_N (0x80 + c mod 64)]
  else if is_surrogate c then []
  else if c <? 0x10000 then
    [byte_of_N (0xE0 + c / 4096); byte_of_N (0x80 + (c / 64) mod 64);
     byte_of_N (0x80 + c mod 64)]
  else
    [byte_of_N (0xF0 + c / 262144); byte_of_N (0x80 + (c / 4096) mod 64);
     byte_of_N (0x80 + (c / 64) mod 64); byte_of_N (0x80 + c mod 64)].

Definition utf8_encode (s : pystr) : list byte :=
  concat (map utf8_encode_char s).

Definition is_continuation (n : N) : bool := (0x80 <=? n) && (n <? 0xC0).

(** The second byte of a three-byte form: E0 needs A0..BF, ED needs 80..9F. *)
Definition second_of_3 (n0 n1 : N) : bool :=
  is_continuation n1 &&
  (if n0 =? 0xE0 then 0xA0 <=? n1 else if n0 =? 0xED then n1 <? 0xA0 else true).

(** The second byte of a four-byte form: F0 needs 90..BF, F4 needs 80..8F. *)
Definition second_of_4 (n0 n1 : N) : bool :=
  is_continuation n1 &&
  (if n0 =? 0xF0 then 0x90 <=? n1 else if n0 =? 0xF4 then n1 <? 0x90 else true).

Fixpoint utf8_decode (bs : list byte) : pystr :=
  match bs with
  | [] => []
  | b0 :: r1 =>
    let n0 := Byte.to_N b0 in
    if n0 <? 0x80 then n0 :: utf8_decode r1
    else if n0 <? 0xC2 then utf8_decode r1            (* invalid start byte *)
    else if n0 <? 0xE0 then
      match r1 with
      | [] => []                                       (* unexpected end *)
      | b1 :: r2 =>
        let n1 := Byte.to_N b1 in
        if is_continuation n1
        then (n0 mod 32 * 64 + n1 mod 64) :: utf8_decode r2
        else utf8_decode r1
      end
    else if n0 <? 0xF0 then
      match r1 with
      | [] => []
      | b1 :: r2 =>
        let n1 := Byte.to_N b1 in
        if second_of_3 n0 n1 then
          match r2 with
          | [] => []
          | b2 :: r3 =>
            let n2 := Byte.to_N b2 in
            if is_continuation n2
            then (n0 mod 16 * 4096 + n1 mod 64 * 64 + n2 mod 64)
                   :: utf8_decode r3
            else utf8_decode r2
          end
        else utf8_decode r1
      end
    else if n0 <? 0xF5 then
      match r1 with
      | [] => []
      | b1 :: r2 =>
        let n1 := Byte.to_N b1 in
        if second_of_4 n0 n1 then
          match r2 with
          | [] => []
          | b2 :: r3 =>
            let n2 := Byte.to_N b2 in
            if is_continuation n2 then
              match r3 with
              | [] => []
              | b3 :: r4 =>
                let n3 := Byte.to_N b3 in
                if is_continuation n3
                then (n0 mod 8 * 262144 + n1 mod 64 * 4096
                      + n2 mod 64 * 64 + n3 mod 64) :: utf8_decode r4
                else utf8_decode r3
              end
            else utf8_decode r2
          end
        else utf8_decode r1
      end
    else utf8_decode r1                                (* F5..FF *)
  end.

(** ** The input stream

    An [io.BufferedReader] over the bytes [data] of a file opened ["rb"]:
    the state is the current position. *)

Section Reader.

Variable data : list byte.

Definition io (A : Type) : Type := N -> outcome (A * N).

Definition io_ret {A} (a : A) : io A := fun p => Ret (a, p).

Definition io_bind {A B} (m : io A) (k : A -> io B) : io B :=
  fun p =>
    match m p with
    | Ret (a, p') => k a p'
    | Raise e => Raise e
    end.

Definition io_lift {A} (m : outcome A) : io A :=
  fun p =>
    match m with
    | Ret a => Ret (a, p)
    | Raise e => Raise e
    end.

Notation "'do' x '<-' m ';' k" := (io_bind m (fun x => k))
  (at level 10, x pattern, m at level 100, k at level 200).

(** The bytes from position [p] to the end of the file; nothing at or past
    the end. *)
Definition unread (p : N) : list byte :=
  if len data <=? p then [] else drop (N.to_nat p) data.

(** [f.tell()] *)
Definition f_tell : io N := fun p => Ret (p, p).

(** [f.read(n)]: at most [n] bytes, fewer at the end of the file. *)
Definition f_read (n : nat) : io (list byte) :=
  fun p => let bs := take n (unread p) in Ret (bs, p + len bs).

(** [f.seek(q)]: any offset that fits a signed 64-bit file offset is
    accepted, also past the end of the file; a larger one raises
    [ValueError].  (An offset that fits but is beyond what the file system
    of the day allows makes the operating system refuse the seek; that
    limit is no part of the program and is left out.) *)
Definition f_seek (q : N) : io unit :=
  fun _ => if q <? 2 ^ 63 then Ret (tt, q) else Raise ValueError.

(** The loop of [read_c_string] over the unread bytes: one byte per
    iteration, up to the first NUL; at the end of the file [f.read(1)] is
    empty and [byte[0]] raises [IndexError]. *)
Fixpoint c_string_bytes (rest : list byte) : outcome (list byte) :=
  match rest with
  | [] => Raise IndexError
  | b :: rest' =>
    if decide (b = x00) then Ret []
    else let+ string_bytes := c_string_bytes rest' in Ret (b :: string_bytes)
  end.

Definition read_c_string : io pystr :=
  fun p =>
    let+ string_bytes := c_string_bytes (unread p) in
    Ret (utf8_decode string_bytes, p + len string_bytes + 1).

(** [for _ in range(str_count)] of [read_strp]. *)
Fixpoint read_strp_loop (str_count : nat) (strings : gmap N pystr)
  : io (gmap N pystr) :=
  match str_count with
  | O => io_ret strings
  | S n =>
    do pos <- f_tell;
    do string <- read_c_string;
    read_strp_loop n (<[pos := string]> strings)
  end.

Definition magic_CSB : list byte := ["C"; "S"; "B"; " "]%byte.
Definition magic_STRP : list byte := ["S"; "T"; "R"; "P"]%byte.
Definition magic_LNP : list byte := ["L"; "N"; "P"; " "]%byte.
Definition magic_LNT : list byte := ["L"; "N"; "T"; " "]%byte.

Definition read_strp (order : byte_order)
  : io (option (gmap N pystr) * ReadError) :=
  do start_pos <- f_tell;
  do magic <- f_read 4;
  if decide (magic <> magic_STRP) then io_ret (None, INVALID_STRP_MAGIC)
  else
    do raw <- f_read 4;
    do block_length <- io_lift (unpack_I order raw);
    let end_pos := start_pos + block_length in
    do raw <- f_read 8;
    do str_count <- io_lift (unpack_Q order raw);
    do strings <- read_strp_loop (N.to_nat str_count) ∅;
    do _ <- f_seek end_pos;
    io_ret (Some strings, SUCCESS).

(** [for _ in range(column_count)] of [read_lnp]. *)
Fixpoint read_lnp_fields (order : byte_order) (str_map : gmap N pystr)
    (column_count : nat) (line : list pystr) : io (list pystr) :=
  match column_count with
  | O => io_ret line
  | S n =>
    do raw <- f_read 8;
    do str_pos <- io_lift (unpack_Q order raw);
    do string <- io_lift (getitem str_map str_pos);
    read_lnp_fields order str_map n (line ++ [string])
  end.

(** [for _ in range(total_lines)] of [read_lnp]. *)
Fixpoint read_lnp_loop (order : byte_order) (str_map : gmap N pystr)
    (total_lines : nat) (lines : gmap N (list pystr))
  : io (gmap N (list pystr)) :=
  match total_lines with
  | O => io_ret lines
  | S n =>
    do pos <- f_tell;
    do raw <- f_read 8;
    do column_count <- io_lift (unpack_Q order raw);
    do raw <- f_read 8;
    do line_start_pos <- io_lift (unpack_Q order raw);
    do _ <- f_seek line_start_pos;
    do line <- read_lnp_fields order str_map (N.to_nat column_count) [];
    read_lnp_loop order str_map n (<[pos := line]> lines)
  end.

Definition read_lnp (order : byte_order) (str_map : gmap N pystr)
  : io (option (gmap N (list pystr)) * ReadError) :=
  do start_pos <- f_tell;
  do magic <- f_read 4;
  if decide (magic <> magic_LNP) then io_ret (None, INVALID_LNP_MAGIC)
  else
    do raw <- f_read 4;
    do block_length <- io_lift (unpack_I order raw);
    let end_pos := start_pos + block_length in
    do raw <- f_read 8;
    do total_lines <- io_lift (unpack_Q order raw);
    do lines <- read_lnp_loop order str_map (N.to_nat total_lines) ∅;
    do _ <- f_seek end_pos;
    io_ret (Some lines, SUCCESS).

(** [for _ in range(total_lines)] of [read_lnt]. *)
Fixpoint read_lnt_loop (order : byte_order) (line_map : gmap N (list pystr))
    (total_lines : nat) (lines : table) : io table :=
  match total_lines with
  | O => io_ret lines
  | S n =>
    do raw <- f_read 8;
    do line_pos <- io_lift (unpack_Q order raw);
    do line <- io_lift (getitem line_map line_pos);
    read_lnt_loop order line_map n (lines ++ [line])
  end.

Definition read_lnt (order : byte_order) (line_map : gmap N (list pystr))
  : io (option table * ReadError) :=
  do start_pos <- f_tell;
  do magic <- f_read 4;
  if decide (magic <> magic_LNT) then io_ret (None, INVALID_LNT_MAGIC)
  else
    do raw <- f_read 4;
    do block_length <- io_lift (unpack_I order raw);
    let end_pos := start_pos + block_length in
    do raw <- f_read 8;
    do total_lines <- io_lift (unpack_Q order raw);
    do lines <- read_lnt_loop order line_map (N.to_nat total_lines) [];
    do _ <- f_seek end_pos;
    io_ret (Some lines, SUCCESS).

(** The counting loop of the validation in [read_csb]:
    [(counted_fields, counted_columns)]. *)
Fixpoint count_lines (lines : table) (counted_fields counted_columns : N)
  : N * N :=
  match lines with
  | [] => (counted_fields, counted_columns)
  | line :: rest =>
    let line_len := len line in
    let counted_columns := N.max counted_columns line_len in
    count_lines rest (counted_fields + line_len) counted_columns
  end.

Definition validate (lines : table) (total_fields max_columns total_lines : N)
  : option table * ReadError :=
  if decide (len lines <> total_lines)
  then (None, INCONSISTENT_TOTAL_LINES)
  else
    let '(counted_fields, counted_columns) := count_lines lines 0 0 in
    if decide (counted_fields <> total_fields)
    then (None, INCONSISTENT_TOTAL_FIELDS)
    else if decide (counted_columns <> max_columns)
    then (None, INCONSISTENT_MAX_COLUMNS)
    else (Some lines, SUCCESS).

Definition marker_LE : list byte := [xff; xfe].
Definition marker_BE : list byte := [xfe; xff].

(** The [if]/[elif]/[else] on [order_bytes]. *)
Definition order_of_marker (order_bytes : list byte) : option byte_order :=
  if decide (order_bytes = marker_LE) then Some LittleEndian
  else if decide (order_bytes = marker_BE) then Some BigEndian
  else None.

Definition read_csb_io (validate_result : bool)
  : io (option table * ReadError) :=
  do magic <- f_read 4;
  if decide (magic <> magic_CSB) then io_ret (None, INVALID_CSB_MAGIC)
  else
    do order_bytes <- f_read 2;
    match order_of_marker order_bytes with
    | None => io_ret (None, INVALID_BYTE_ORDER)
    | Some order =>
      do _ <- f_read 6;
      do raw <- f_read 4;
      do total_fields <- io_lift (unpack_I order raw);
      do raw <- f_read 4;
      do max_columns <- io_lift (unpack_I order raw);
      do raw <- f_read 4;
      do total_lines <- io_lift (unpack_I order raw);
      do r <- read_strp order;
      match r with
      | (None, err) => io_ret (None, err)
      | (Some str_map, _) =>
        do r <- read_lnp order str_map;
        match r with
        | (None, err) => io_ret (None, err)
        | (Some line_map, _) =>
          do r <- read_lnt order line_map;
          match r with
          | (None, err) => io_ret (None, err)
          | (Some lines, _) =>
            if validate_result
            then io_ret (validate lines total_fields max_columns total_lines)
            else io_ret (Some lines, SUCCESS)
          end
        end
      end
    end.

End Reader.

(** [read_csb(f, validate_result)] on a freshly opened file holding [data]. *)
Definition read_csb (data : list byte) (validate_result : bool)
  : outcome (option table * ReadError) :=
  match read_csb_io data validate_result 0 with
  | Ret (r, _) => Ret r
  | Raise e => Raise e
  end.

(** ** The writer

    An [io.BufferedWriter] on a file opened ["wb"] is the list of the bytes
    written so far, so [f.tell()] is its length; an [io.BytesIO] block is a
    list of bytes as well. *)

(** [list(dict.fromkeys(strs))]: the keys of a dict keep the order of their
    first insertion; [keys] is the dict built so far. *)
Fixpoint dict_fromkeys (strs : list pystr) (keys : list pystr) : list pystr :=
  match strs with
  | [] => keys
  | s :: rest =>
    if decide (s ∈ keys) then dict_fromkeys rest keys
    else dict_fromkeys rest (keys ++ [s])
  end.

Definition get_unique_strs (lines : table) : list pystr :=
  let strs := concat lines in
  dict_fromkeys strs [].

(** [write_c_string]: the bytes appended to the stream. *)
Definition c_string (string : pystr) : list byte :=
  utf8_encode string ++ [x00].

(** [for string in strings] of [write_strp]; [f_tell] is [f.tell()], which
    does not change during the loop. *)
Fixpoint write_strp_loop (f_tell : N) (strings : list pystr)
    (str_block : list byte) (str_map : gmap pystr N)
  : list byte * gmap pystr N :=
  match strings with
  | [] => (str_block, str_map)
  | string :: rest =>
    let pos := f_tell + len str_block + 4 in
    write_strp_loop f_tell rest (str_block ++ c_string string)
      (<[string := pos]> str_map)
  end.

Definition write_strp (f : list byte) (order : byte_order) (lines : table)
  : outcome (list byte * gmap pystr N) :=
  let f := f ++ magic_STRP in
  let strings := get_unique_strs lines in
  let+ count := pack_Q order (len strings) in
  let '(str_block_data, str_map) := write_strp_loop (len f) strings count ∅ in
  let block_length := len str_block_data in
  let+ length_field := pack_I order (block_length + 8) in
  Ret (f ++ length_field ++ str_block_data, str_map).

(** [for val in line] of [write_lnp]. *)
Fixpoint write_lnp_fields (order : byte_order) (str_map : gmap pystr N)
    (line : list pystr) (line_block : list byte) : outcome (list byte) :=
  match line with
  | [] => Ret line_block
  | val :: rest =>
    let+ pos := getitem str_map val in
    let+ raw := pack_Q order pos in
    write_lnp_fields order str_map rest (line_block ++ raw)
  end.

(** [for line in lines] of [write_lnp]. *)
Fixpoint write_lnp_loop (order : byte_order) (str_map : gmap pystr N)
    (f_tell : N) (lines : table) (line_block : list byte) (line_map : list N)
  : outcome (list byte * list N) :=
  match lines with
  | [] => Ret (line_block, line_map)
  | line :: rest =>
    let start_pos := f_tell + len line_block + 4 in
    let+ raw_count := pack_Q order (len line) in
    let+ raw_start := pack_Q order (start_pos + 16) in
    let+ line_block :=
      write_lnp_fields order str_map line (line_block ++ raw_count ++ raw_start) in
    write_lnp_loop order str_map f_tell rest line_block (line_map ++ [start_pos])
  end.

Definition write_lnp (f : list byte) (order : byte_order) (lines : table)
    (str_map : gmap pystr N) : outcome (list byte * list N) :=
  let f := f ++ magic_LNP in
  let+ count := pack_Q order (len lines) in
  let+ (line_block_data, line_map) :=
    write_lnp_loop order str_map (len f) lines count [] in
  let+ length_field := pack_I order (len line_block_data + 8) in
  Ret (f ++ length_field ++ line_block_data, line_map).

(** [for pos in line_map] of [write_lnt]. *)
Fixpoint write_lnt_loop (order : byte_order) (line_map : list N)
    (line_block : list byte) : outcome (list byte) :=
  match line_map with
  | [] => Ret line_block
  | pos :: rest =>
    let+ raw := pack_Q order pos in
    write_lnt_loop order rest (line_block ++ raw)
  end.

Definition write_lnt (f : list byte) (order : byte_order) (lines : table)
    (line_map : list N) : outcome (list byte) :=
  let f := f ++ magic_LNT in
  let+ count := pack_Q order (len lines) in
  let+ line_block_data := write_lnt_loop order line_map count in
  let+ length_field := pack_I order (len line_block_data + 8) in
  Ret (f ++ length_field ++ line_block_data).

(** The counting loop of [write_csb]: [(total_fields, max_columns)]. *)
Fixpoint header_counts (lines : table) (total_fields max_columns : N) : N * N :=
  match lines with
  | [] => (total_fields, max_columns)
  | line :: rest =>
    let line_len := len line in
    header_counts rest (total_fields + line_len) (N.max line_len max_columns)
  end.

Definition reserved : list byte := [x00; x01; xff; xff; x00; x00].

(** The [if]/[else] on [byte_order] in [write_csb]. *)
Definition marker_of (order : byte_order) : list byte :=
  match order with
  | LittleEndian => marker_LE
  | BigEndian => marker_BE
  end.

Definition write_csb_to (f : list byte) (lines : table) (order : byte_order)
  : outcome (list byte) :=
  let f := f ++ magic_CSB in
  let order_bytes := marker_of order in
  let f := f ++ order_bytes in
  let f := f ++ reserved in
  let total_lines := len lines in
  let '(total_fields, max_columns) := header_counts lines 0 0 in
  let+ raw := pack_I order total_fields in
  let f := f ++ raw in
  let+ raw := pack_I order max_columns in
  let f := f ++ raw in
  let+ raw := pack_I order total_lines in
  let f := f ++ raw in
  let+ (f, str_map) := write_strp f order lines in
  let+ (f, line_map) := write_lnp f order lines str_map in
  write_lnt f order lines line_map.

(** [write_csb(f, lines, byte_order)] on a freshly opened, empty file: the
    content of the file afterwards. *)
Definition write_csb (lines : table) (order : byte_order)
  : outcome (list byte) :=
  write_csb_to [] lines order.

(** ** Vocabulary of the statements *)

(** What the header of a stream declares, read off the layout: the magic at
    offset 0, the order marker at 4, and the three 4-byte counts at 12, 16
    and 20. *)
Definition declared (data : list byte) : option (byte_order * (N * N * N)) :=
  if decide (take 4 data = magic_CSB) then
    match order_of_marker (take 2 (drop 4 data)) with
    | Some order =>
      match unpack_I order (take 4 (drop 12 data)),
            unpack_I order (take 4 (drop 16 data)),
            unpack_I order (take 4 (drop 20 data)) with
      | Ret total_fields, Ret max_columns, Ret total_lines =>
        Some (order, (total_fields, max_columns, total_lines))
      | _, _, _ => None
      end
    | None => None
    end
  else None.

(** The three block readers chained as [read_csb] chains them, from the
    first byte after the header. *)
Definition read_blocks (data : list byte) (order : byte_order)
  : outcome (option table * ReadError) :=
  match read_strp data order 24 with
  | Raise e => Raise e
  | Ret ((None, err), _) => Ret (None, err)
  | Ret ((Some str_map, _), p1) =>
    match read_lnp data order str_map p1 with
    | Raise e => Raise e
    | Ret ((None, err), _) => Ret (None, err)
    | Ret ((Some line_map, _), p2) =>
      match read_lnt data order line_map p2 with
      | Raise e => Raise e
      | Ret ((None, err), _) => Ret (None, err)
      | Ret ((Some lines, _), _) => Ret (Some lines, SUCCESS)
      end
    end
  end.

(** The counts of a table, computed without the loops of the codec. *)
Definition total_fields_of (lines : table) : N :=
  foldr (fun line acc => len line + acc) 0 lines.

Definition max_columns_of (lines : table) : N :=
  foldr (fun line acc => N.max (len line) acc) 0 lines.

Definition total_lines_of (lines : table) : N := len lines.

(** [data] with the bytes from offset [off] on overwritten by [bs]. *)
Definition patch (data : list byte) (off : nat) (bs : list byte) : list byte :=
  take off data ++ bs ++ drop (off + length bs) data.

(** The encoding of a table, when [write_csb] returns. *)
Definition encoding (lines : table) (order : byte_order) : list byte :=
  match write_csb lines order with
  | Ret f => f
  | Raise _ => []
  end.

(** The table of the specification's example: [[["a","b"],["a"]]]. *)
Definition table_ab : table := [[[97]; [98]]; [[97]]].

(** Its little-endian encoding with [total_fields] and [max_columns]
    overwritten by 9. *)
Definition stream_two_wrong_counts : list byte :=
  patch (patch (encoding table_ab LittleEndian) 12 (int_bytes 4 LittleEndian 9))
        16 (int_bytes 4 LittleEndian 9).

(** What a field becomes when it is written and read back. *)
Definition lossy (s : pystr) : pystr := utf8_decode (utf8_encode s).

(** A string of code points none of which is U+0000. *)
Definition no_nul (s : pystr) : Prop :=
  Forall (fun c => c <> 0 /\ is_code_point c) s.

(** A string of Unicode scalar values other than U+0000: text that UTF-8
    can carry and that a C string can hold. *)
Definition is_text (s : pystr) : Prop :=
  Forall (fun c => c <> 0 /\ is_scalar c) s.

(** ** The layout of an encoded table, in closed form *)

(** A block: magic, 4-byte length of the whole block, payload. *)
Definition block (magic : list byte) (o : byte_order) (payload : list byte)
  : list byte :=
  magic ++ int_bytes 4 o (len payload + 8) ++ payload.

Definition pool_bytes (strings : list pystr) : list byte :=
  concat (map c_string strings).

(** The address of the first copy of [s] in a pool that starts at [base]. *)
Fixpoint pool_addr (base : N) (strings : list pystr) (s : pystr) : N :=
  match strings with
  | [] => 0
  | x :: rest =>
    if decide (x = s) then base
    else pool_addr (base + len (c_string x)) rest s
  end.

(** The dict [str_map] that [write_strp] builds, string to address. *)
Fixpoint pool_index (base : N) (strings : list pystr) (m : gmap pystr N)
  : gmap pystr N :=
  match strings with
  | [] => m
  | s :: rest => pool_index (base + len (c_string s)) rest (<[s := base]> m)
  end.

(** The dict [strings] that [read_strp] builds, address to string. *)
Fixpoint pool_map (base : N) (strings : list pystr) (m : gmap N pystr)
  : gmap N pystr :=
  match strings with
  | [] => m
  | s :: rest => pool_map (base + len (c_string s)) rest (<[base := lossy s]> m)
  end.

(** One LineIndex record at address [a]: field count, payload address,
    field addresses. *)
Definition record_bytes (o : byte_order) (addr : pystr -> N) (a : N)
    (line : list pystr) : list byte :=
  int_bytes 8 o (len line) ++ int_bytes 8 o (a + 16)
  ++ concat (map (fun s => int_bytes 8 o (addr s)) line).

Fixpoint records_bytes (o : byte_order) (addr : pystr -> N) (a : N)
    (lines : table) : list byte :=
  match lines with
  | [] => []
  | line :: rest =>
    record_bytes o addr a line
    ++ records_bytes o addr (a + 16 + 8 * len line) rest
  end.

(** The addresses of the records of [lines], the first one at [a]. *)
Fixpoint record_addrs (a : N) (lines : table) : list N :=
  match lines with
  | [] => []
  | line :: rest => a :: record_addrs (a + 16 + 8 * len line) rest
  end.

(** The dict [lines] that [read_lnp] builds, address to row. *)
Fixpoint record_map (a : N) (lines : table) (m : gmap N (list pystr))
  : gmap N (list pystr) :=
  match lines with
  | [] => m
  | line :: rest =>
    record_map (a + 16 + 8 * len line) rest (<[a := map lossy line]> m)
  end.

Definition header_bytes (o : byte_order) (lines : table) : list byte :=
  magic_CSB ++ marker_of o ++ reserved
  ++ int_bytes 4 o (total_fields_of lines)
  ++ int_bytes 4 o (max_columns_of lines)
  ++ int_bytes 4 o (total_lines_of lines).

Definition strp_payload (o : byte_order) (lines : table) : list byte :=
  int_bytes 8 o (len (get_unique_strs lines))
  ++ pool_bytes (get_unique_strs lines).

Definition strp_block (o : byte_order) (lines : table) : list byte :=
  block magic_STRP o (strp_payload o lines).

(** Where the LineIndex block starts. *)
Definition lnp_start (o : byte_order) (lines : table) : N :=
  24 + len (strp_block o lines).

Definition lnp_payload (o : byte_order) (lines : table) : list byte :=
  int_bytes 8 o (len lines)
  ++ records_bytes o (pool_addr 40 (get_unique_strs lines))
       (lnp_start o lines + 16) lines.

Definition lnp_block (o : byte_order) (lines : table) : list byte :=
  block magic_LNP o (lnp_payload o lines).

(** Where the LineOrder block starts. *)
Definition lnt_start (o : byte_order) (lines : table) : N :=
  lnp_start o lines + len (lnp_block o lines).

Definition lnt_payload (o : byte_order) (lines : table) : list byte :=
  int_bytes 8 o (len lines)
  ++ concat (map (int_bytes 8 o) (record_addrs (lnp_start o lines + 16) lines)).

Definition lnt_block (o : byte_order) (lines : table) : list byte :=
  block magic_LNT o (lnt_payload o lines).

Definition layout (lines : table) (o : byte_order) : list byte :=
  header_bytes o lines ++ strp_block o lines ++ lnp_block o lines
  ++ lnt_block o lines.

(** The sizes that the fixed-width fields of the format can hold. *)
Definition fits (lines : table) (o : byte_order) : Prop :=
  total_fields_of lines < 2 ^ 32 /\
  max_columns_of lines < 2 ^ 32 /\
  total_lines_of lines < 2 ^ 32 /\
  len (strp_block o lines) < 2 ^ 32 /\
  len (lnp_block o lines) < 2 ^ 32 /\
  len (lnt_block o lines) < 2 ^ 32.

(** The table that comes back: every field through [lossy]. *)
Definition lossy_table (lines : table) : table := map (map lossy) lines.

(** Tables whose fields a C string can hold. *)
Definition table_no_nul (lines : table) : Prop := Forall (Forall no_nul) lines.

(** Tables of text. *)
Definition table_is_text (lines : table) : Prop := Forall (Forall is_text) lines.

(** The fields of a table: U+0000 inside a field, then a field that is the
    tail of that one. *)
Definition table_nul : table := [[[97; 0; 98]; [98]]].

(** One field with U+0000 inside. *)
Definition table_nul_single : table := [[[97; 0; 98]]].

(** The position of the first occurrence of [s] in [l] ([length l] when
    there is none). *)
Fixpoint first_index (s : pystr) (l : list pystr) : nat :=
  match l with
  | [] => 0
  | x :: rest => if decide (x = s) then 0 else S (first_index s rest)
  end.

(** A table whose first row is not in sorted order. *)
Definition table_ba : table := [[[98]; [97]; [98]]; [[97]; [99]]].
(** [keys] lists strings in the order of their first occurrence in [L]. *)
Definition by_first_occurrence (L keys : list pystr) : Prop :=
  forall i j si sj,
    keys !! i = Some si -> keys !! j = Some sj -> (i < j)%nat ->
    (first_index si L < first_index sj L)%nat.

(** A LineIndex record whose payload does not follow its header: field
    count 1, payload address 24, eight bytes that belong to nothing, and at
    24 the address 7. *)
Definition stream_gap : list byte :=
  int_bytes 8 LittleEndian 1 ++ int_bytes 8 LittleEndian 24
  ++ int_bytes 8 LittleEndian 99 ++ int_bytes 8 LittleEndian 7.

(** Four bytes that are no magic, two bytes that are no order marker. *)
Definition bad_magic : list byte := ["X"; "X"; "X"; "X"]%byte.

Definition bad_marker : list byte := [xff; xff].

(** [data] with the three header counts overwritten. *)
Definition set_counts (o : byte_order) (tf mc tl : N) (data : list byte)
  : list byte :=
  patch data 12 (int_bytes 4 o tf ++ int_bytes 4 o mc ++ int_bytes 4 o tl).

(** The little-endian encoding of [table_ab] with [max_columns] set to 7. *)
Definition stream_wrong_columns : list byte :=
  set_counts LittleEndian 3 7 2 (encoding table_ab LittleEndian).

(** The big-endian encoding of [table_ab] with [total_lines] one too large. *)
Definition stream_wrong_lines : list byte :=
  set_counts BigEndian 3 2 3 (encoding table_ab BigEndian).

(** The encoding of [table_ab] whose first LineOrder entry is 61, one past
    the first record. *)
Definition stream_dangling_line : list byte :=
  patch (encoding table_ab LittleEndian) 132 (int_bytes 8 LittleEndian 61).

(** The encoding of [table_ab] whose first field address is 41, one past
    the first string. *)
Definition stream_dangling_field : list byte :=
  patch (encoding table_ab LittleEndian) 76 (int_bytes 8 LittleEndian 41).

(** The number of NUL bytes of [B]. *)
Definition nuls (B : list byte) : nat :=
  length (filter (fun b => b = x00) B).

(** ** CSV text ([write_csv], [read_csv])

    The text that [f.read()] hands to [read_csv] and that [write_csv] hands
    to [f.write()] is a [pystr]; the separators are the one-character
    strings [","] and ["\n"]. *)

(** A string literal of ASCII characters as a Python [str]. *)
Fixpoint str (s : string) : pystr :=
  match s with
  | EmptyString => []
  | String a rest => Ascii.N_of_ascii a :: str rest
  end.

Definition comma : N := 44.
Definition newline : N := 10.

(** [s.split(sep)] for a separator [sep] of one character; [piece] is the
    piece being collected.  The result is never the empty list. *)
Fixpoint split_from (sep : N) (piece s : pystr) : list pystr :=
  match s with
  | [] => [piece]
  | c :: rest =>
    if decide (c = sep) then piece :: split_from sep [] rest
    else split_from sep (piece ++ [c]) rest
  end.

Definition split (sep : N) (s : pystr) : list pystr := split_from sep [] s.

(** [sep.join(pieces)] *)
Fixpoint join (sep : pystr) (pieces : list pystr) : pystr :=
  match pieces with
  | [] => []
  | [piece] => piece
  | piece :: rest => piece ++ sep ++ join sep rest
  end.

(** [write_csv(f, lines)]: the text passed to [f.write]. *)
Definition write_csv (lines : table) : pystr :=
  join [newline] (map (fun line => join [comma] line) lines).

(** [for line in f.read().split("\n")] of [read_csv]. *)
Fixpoint read_csv_loop (pieces : list pystr) (lines : table) : table :=
  match pieces with
  | [] => lines
  | line :: rest => read_csv_loop rest (lines ++ [split comma line])
  end.

(** [read_csv(f)], where [text] is what [f.read()] returns. *)
Definition read_csv (text : pystr) : table :=
  read_csv_loop (split newline text) [].



(** The text of the specification's table: two lines, [a,b] and [a]. *)
Definition text_ab : pystr := str "a,b" ++ [newline] ++ str "a".

(** ** File names ([get_csv_name], [get_csb_name]) *)

(** [s.endswith(suffix)] *)
Definition endswith (s suffix : pystr) : bool :=
  bool_decide (drop (length s - length suffix) s = suffix).

(** [s[:-n]] for a positive [n]: all but the last [n] characters, nothing
    when [s] has no more than [n]. *)
Definition drop_last (n : nat) (s : pystr) : pystr := take (length s - n) s.

Definition get_csv_name (filename : pystr) : pystr :=
  if endswith filename (str ".csv") then filename
  else if endswith filename (str ".csv.csb") then drop_last 4 filename
  else if endswith filename (str ".csb") then drop_last 1 filename ++ str "v"
  else filename ++ str ".csv".

Definition get_csb_name (filename : pystr) : pystr :=
  if endswith filename (str ".csb") then filename
  else filename ++ str ".csb".

(** ** The selection of the input files in [main] *)

(** [l.remove(x)]: [l] without its first item equal to [x]; [ValueError]
    when there is none. *)
Fixpoint list_remove (x : pystr) (l : list pystr) : outcome (list pystr) :=
  match l with
  | [] => Raise ValueError
  | y :: rest =>
    if decide (y = x) then Ret rest
    else let+ rest' := list_remove x rest in Ret (y :: rest')
  end.

(** [for file in all_files] under [if args.ignore]. *)
Fixpoint ignore_loop (decode_action : bool) (all_files new_files : list pystr)
  : outcome (list pystr) :=
  match all_files with
  | [] => Ret new_files
  | file :: rest =>
    if decode_action then
      if negb (endswith file (str ".csb")) then
        let+ new_files := list_remove file new_files in
        ignore_loop decode_action rest new_files
      else ignore_loop decode_action rest new_files
    else
      if negb (endswith file (str ".csv")) then
        let+ new_files := list_remove file new_files in
        ignore_loop decode_action rest new_files
      else ignore_loop decode_action rest new_files
  end.

(** From [new_files = all_files.copy()] to [all_files = new_files]: the
    files that [decode] or [encode] is called with. *)
Definition select_files (ignore decode_action : bool) (all_files : list pystr)
  : outcome (list pystr) :=
  let new_files := all_files in
  if ignore then ignore_loop decode_action all_files new_files
  else Ret new_files.

(** The extension that the action works on. *)
Definition extension (decode_action : bool) : pystr :=
  if decode_action then str ".csb" else str ".csv".

Definition file_names : list pystr :=
  [str "a.csb"; str "notes.txt"; str "b.csv"; str "notes.txt"; str "a.csb"].

(** ** The command line ([__main__.py]) *)

(** [get_error_text]: a chain of [if error == ...: return ...]; a call
    that falls off the end returns [None]. *)
Definition get_error_text (error : ReadError) : option pystr :=
  if decide (error = SUCCESS) then None
  else if decide (error = INVALID_CSB_MAGIC) then
    Some (str "Invalid CSB file magic, are you sure this a csb file?")
  else if decide (error = INVALID_BYTE_ORDER) then
    Some (str "Invalid CSB byte order")
  else if decide (error = INVALID_STRP_MAGIC) then
    Some (str "Invalid STRP block magic")
  else if decide (error = INVALID_LNP_MAGIC) then
    Some (str "Invalid LNP block magic")
  else if decide (error = INVALID_LNT_MAGIC) then
    Some (str "Invalid LNT block magic")
  else if decide (error = INCONSISTENT_TOTAL_LINES) then
    Some (str "Inconsistent total csv lines")
  else if decide (error = INCONSISTENT_MAX_COLUMNS) then
    Some (str "Inconsistent max csv columns")
  else if decide (error = INCONSISTENT_TOTAL_FIELDS) then
    Some (str "Inconsistent total csv fields")
  else None.

(** How a call of [decode] ends: it returns, it leaves the interpreter
    through [exit(status)], an exception of the codec escapes, or the
    operating system refuses to open a file. *)
Inductive ending : Set :=
  | Returned
  | Exited (status : N)
  | Uncaught (e : exn)
  | OS_error.

Section Decode.

(** The world outside the program is a parameter: its states, what opening
    a file ["rb"] gives the reader to read, what writing a text to a file
    opened ["w"] does, what [print] does, and the three functions of
    [os.path]. *)
Context {world : Type}.
Variable read_bytes : pystr -> world -> option (list byte).
Variable write_text : pystr -> pystr -> world -> option world.
Variable print : pystr -> world -> world.
Variable basename : pystr -> pystr.
Variable path_join : pystr -> pystr -> pystr.
Variable abspath : pystr -> pystr.

(** [print(x)] for an optional string: [None] prints as the word. *)
Definition print_optional (x : option pystr) : world -> world :=
  match x with
  | Some text => print text
  | None => print (str "None")
  end.

(** [decode(files, outdir, skip_validation, silent)] *)
Fixpoint decode (files : list pystr) (outdir : pystr)
    (skip_validation silent : bool) (w : world) : ending * world :=
  match files with
  | [] => (Returned, w)
  | file :: rest =>
    match read_bytes file w with
    | None => (OS_error, w)
    | Some data =>
      match read_csb data (negb skip_validation) with
      | Raise e => (Uncaught e, w)
      | Ret (None, err) =>
        let w :=
          if negb silent then
            let error_text := get_error_text err in
            print_optional error_text w
          else w in
        (Exited (ReadError_value err), w)
      | Ret (Some lines, _) =>
        let filename := basename file in
        let filename := get_csv_name filename in
        let outpath := path_join outdir filename in
        match write_text outpath (write_csv lines) w with
        | None => (OS_error, w)
        | Some w =>
          let w :=
            if negb silent then
              print (str "Decoded " ++ abspath file ++ str " to "
                     ++ abspath outpath) w
            else w in
          decode rest outdir skip_validation silent w
        end
      end
    end
  end.

End Decode.

(** A world for the examples: the state is what has been printed and
    written so far; the file [in/a.csb] holds the encoding of [table_ab],
    every other file four bytes that are no magic. *)
Inductive event : Set :=
  | Printed (text : pystr)
  | Written (path text : pystr).

Definition example_read (file : pystr) (w : list event) : option (list byte) :=
  if decide (file = str "in/a.csb") then Some (encoding table_ab LittleEndian)
  else Some bad_magic.

Definition example_write (path text : pystr) (w : list event)
  : option (list event) :=
  Some (w ++ [Written path text]).

Definition example_print (text : pystr) (w : list event) : list event :=
  w ++ [Printed text].

(** The part of a path after the last [/]. *)
Definition example_basename (path : pystr) : pystr :=
  default [] (last (split 47 path)).

Definition example_join (dir name : pystr) : pystr := dir ++ str "/" ++ name.

Definition example_decode (files : list pystr) (silent : bool)
  : ending * list event :=
  decode example_read example_write example_print example_basename
    example_join id files (str "out") false silent [].

Definition example_files : list pystr :=
  [str "in/a.csb"; str "in/b.csb"; str "in/c.csb"].

(** What decoding [in/a.csb] leaves behind. *)
Definition example_log : list event :=
  [Written (str "out/a.csv") text_ab;
   Printed (str "Decoded in/a.csb to out/a.csv")].

(** The part of a string before its first U+0000. *)
Fixpoint before_nul (s : pystr) : pystr :=
  match s with
  | [] => []
  | c :: rest => if decide (c = 0) then [] else c :: before_nul rest
  end.

Section Encode.

(** The world outside [encode]: what reading a file opened ["r"] as UTF-8
    text gives, what opening a file ["wb"] does, what closing it does after
    all bytes were written and after an exception cut the writing short,
    what [print] does, and the three functions of [os.path]. *)
Context {world : Type}.
Variable read_text : pystr -> world -> option pystr.
Variable open_wb : pystr -> world -> option world.
Variable close_written : pystr -> list byte -> world -> world.
Variable close_abandoned : pystr -> world -> world.
Variable print : pystr -> world -> world.
Variable basename : pystr -> pystr.
Variable path_join : pystr -> pystr -> pystr.
Variable abspath : pystr -> pystr.

(** [encode(files, outdir, byteorder, silent)] *)
Fixpoint encode (files : list pystr) (outdir : pystr) (byteorder : byte_order)
    (silent : bool) (w : world) : ending * world :=
  match files with
  | [] => (Returned, w)
  | file :: rest =>
    match read_text file w with
    | None => (OS_error, w)
    | Some text =>
      let lines := read_csv text in
      let filename := basename file in
      let filename := get_csb_name filename in
      let outpath := path_join outdir filename in
      match open_wb outpath w with
      | None => (OS_error, w)
      | Some w =>
        match write_csb lines byteorder with
        | Raise e => (Uncaught e, close_abandoned outpath w)
        | Ret f =>
          let w := close_written outpath f w in
          let w :=
            if negb silent then
              print (str "Encoded " ++ abspath file ++ str " to "
                     ++ abspath outpath) w
            else w in
          encode rest outdir byteorder silent w
        end
      end
    end
  end.

End Encode.

(** A world for the examples of [encode]: every file holds [text_ab]. *)
Inductive encode_event : Set :=
  | Encode_printed (text : pystr)
  | Encode_opened (path : pystr)
  | Encode_closed (path : pystr) (data : list byte)
  | Encode_abandoned (path : pystr).

Definition example_encode (files : list pystr) : ending * list encode_event :=
  encode (fun _ _ => Some text_ab)
    (fun path w => Some (w ++ [Encode_opened path]))
    (fun path data w => w ++ [Encode_closed path data])
    (fun path w => w ++ [Encode_abandoned path])
    (fun text w => w ++ [Encode_printed text])
    example_basename example_join id files (str "out") LittleEndian true [].

(** ** Streams with another LineOrder block *)

(** The address of the record of row [i] in the encoding of [t]. *)
Definition row_address (t : table) (o : byte_order) (i : nat) : N :=
  default 0 (record_addrs (lnp_start o t + 16) t !! i).

(** The encoding of [t] with the LineOrder block replaced by one that lists
    the records of the rows numbered [order]. *)
Definition with_line_order (t : table) (o : byte_order) (order : list nat)
  : list byte :=
  header_bytes o t ++ strp_block o t ++ lnp_block o t
  ++ block magic_LNT o
       (int_bytes 8 o (len order)
        ++ concat (map (int_bytes 8 o) (map (row_address t o) order))).

(** The rows of [t] numbered [order]. *)
Definition rows_in_order (t : table) (order : list nat) : table :=
  map (fun i => default [] (t !! i)) order.

(** Six bytes other than the reserved ones that the writer puts after the
    order marker. *)
Definition other_reserved : list byte := [x12; x34; x56; x78; x9a; xbc].

(** A StringPool block with one string and ten bytes of padding before its
    declared end. *)
Definition padded_pool (o : byte_order) : list byte :=
  magic_STRP ++ int_bytes 4 o 28 ++ int_bytes 8 o 1 ++ c_string [97]
  ++ replicate 10 xff.

(** A table with a lone surrogate in a field: [a], U+D800, [b]. *)
Definition table_surrogate : table := [[[97; 0xD800; 98]; [99]]].

(** A string without its lone surrogates. *)
Definition without_surrogates (s : pystr) : pystr :=
  filter (fun c => is_surrogate c = false) s.

(** Two fields that differ by a lone surrogate only: [a] U+D800, and [a]. *)
Definition table_lone_surrogate : table := [[[97; 0xD800]; [97]]].

(** * Properties *)

(** ** The stream *)

Lemma unread_drop data p : unread data p = drop (N.to_nat p) data.
Proof.
  unfold unread, len. destruct (N.leb_spec (N.of_nat (length data)) p); [|done].
  symmetry. apply drop_ge. lia.
Qed.

Lemma f_read_full data n p :
  length (take n (drop (N.to_nat p) data)) = n ->
  f_read data n p = Ret (take n (drop (N.to_nat p) data), p + N.of_nat n).
Proof. intros H. unfold f_read, len. rewrite unread_drop, H. done. Qed.

Lemma unpack_Ret_length w o bs n : unpack w o bs = Ret n -> length bs = w.
Proof. unfold unpack. case_decide; [done|discriminate]. Qed.

Lemma count_lines_spec lines f c :
  count_lines lines f c =
  (f + total_fields_of lines, N.max c (max_columns_of lines)).
Proof.
  revert f c. induction lines as [|l lines IH]; intros f c; simpl.
  - f_equal; lia.
  - rewrite IH. f_equal; lia.
Qed.

Lemma header_counts_spec lines f c :
  header_counts lines f c =
  (f + total_fields_of lines, N.max c (max_columns_of lines)).
Proof.
  revert f c. induction lines as [|l lines IH]; intros f c; simpl.
  - f_equal; lia.
  - rewrite IH. f_equal; lia.
Qed.

(** [read_csb] on a stream whose header parses: the blocks are read from
    offset 24 and the result is validated on request. *)
Lemma read_csb_declared data v o tf mc tl :
  declared data = Some (o, (tf, mc, tl)) ->
  read_csb data v =
  match read_blocks data o with
  | Raise e => Raise e
  | Ret (None, err) => Ret (None, err)
  | Ret (Some lines, _) =>
    Ret (if v then validate lines tf mc tl else (Some lines, SUCCESS))
  end.
Proof.
  unfold declared. case_decide as Hm; [|discriminate].
  destruct (order_of_marker _) as [o'|] eqn:Ho; [|discriminate].
  destruct (unpack_I o' (take 4 (drop 12 data))) as [a|] eqn:Ha; [|discriminate].
  destruct (unpack_I o' (take 4 (drop 16 data))) as [b|] eqn:Hb; [|discriminate].
  destruct (unpack_I o' (take 4 (drop 20 data))) as [c|] eqn:Hc; [|discriminate].
  intros [= -> -> -> ->].
  pose proof (unpack_Ret_length _ _ _ _ Ha) as La.
  pose proof (unpack_Ret_length _ _ _ _ Hb) as Lb.
  pose proof (unpack_Ret_length _ _ _ _ Hc) as Lc.
  assert (Ld : (24 <= length data)%nat).
  { rewrite length_take, length_drop in Lc. lia. }
  unfold read_csb, read_csb_io, io_bind.
  rewrite (f_read_full data 4 0) by (rewrite length_take, length_drop; lia).
  change (drop (N.to_nat 0) data) with data. rewrite Hm.
  case_decide; [done|].
  rewrite (f_read_full data 2 (0 + N.of_nat 4))
    by (rewrite length_take, length_drop; lia).
  change (N.to_nat (0 + N.of_nat 4)) with 4%nat. rewrite Ho.
  rewrite (f_read_full data 6) by (rewrite length_take, length_drop; lia).
  rewrite (f_read_full data 4) by (rewrite length_take, length_drop; lia).
  change (N.to_nat (0 + N.of_nat 4 + N.of_nat 2 + N.of_nat 6)) with 12%nat.
  rewrite Ha. unfold io_lift.
  rewrite (f_read_full data 4) by (rewrite length_take, length_drop; lia).
  change (N.to_nat (0 + N.of_nat 4 + N.of_nat 2 + N.of_nat 6 + N.of_nat 4))
    with 16%nat.
  rewrite Hb.
  rewrite (f_read_full data 4) by (rewrite length_take, length_drop; lia).
  change (N.to_nat (0 + N.of_nat 4 + N.of_nat 2 + N.of_nat 6 + N.of_nat 4
                    + N.of_nat 4)) with 20%nat.
  rewrite Hc.
  change (0 + N.of_nat 4 + N.of_nat 2 + N.of_nat 6 + N.of_nat 4 + N.of_nat 4
          + N.of_nat 4) with 24.
  unfold read_blocks.
  destruct (read_strp data o 24) as [[[[sm|] e1] p1]|]; try done.
  destruct (read_lnp data o sm p1) as [[[[lm|] e2] p2]|]; try done.
  destruct (read_lnt data o lm p2) as [[[[ls|] e3] p3]|]; try done.
  destruct v; done.
Qed.

Lemma validate_spec lines tf mc tl :
  validate lines tf mc tl =
  if decide (total_lines_of lines <> tl) then (None, INCONSISTENT_TOTAL_LINES)
  else if decide (total_fields_of lines <> tf)
  then (None, INCONSISTENT_TOTAL_FIELDS)
  else if decide (max_columns_of lines <> mc)
  then (None, INCONSISTENT_MAX_COLUMNS)
  else (Some lines, SUCCESS).
Proof.
  unfold validate, total_lines_of. rewrite count_lines_spec.
  rewrite N.add_0_l, N.max_0_l. done.
Qed.

Lemma read_csb_validated data o tf mc tl lines :
  declared data = Some (o, (tf, mc, tl)) ->
  read_blocks data o = Ret (Some lines, SUCCESS) ->
  read_csb data true = Ret (validate lines tf mc tl).
Proof. intros Hd Hb. rewrite (read_csb_declared _ _ _ _ _ _ Hd), Hb. done. Qed.

Lemma read_csb_unvalidated data o tf mc tl lines :
  declared data = Some (o, (tf, mc, tl)) ->
  read_blocks data o = Ret (Some lines, SUCCESS) ->
  read_csb data false = Ret (Some lines, SUCCESS).
Proof. intros Hd Hb. rewrite (read_csb_declared _ _ _ _ _ _ Hd), Hb. done. Qed.

(** C2, as the code has it: the consistency checks run in the order total
    lines, total fields, max columns, and the first one that fails decides
    the error.  In particular a stream whose line count is right while both
    other counts are wrong is refused with [INCONSISTENT_TOTAL_FIELDS]. *)
Theorem validation_order data o tf mc tl lines :
  declared data = Some (o, (tf, mc, tl)) ->
  read_blocks data o = Ret (Some lines, SUCCESS) ->
  (total_lines_of lines <> tl ->
   read_csb data true = Ret (None, INCONSISTENT_TOTAL_LINES)) /\
  (total_lines_of lines = tl -> total_fields_of lines <> tf ->
   read_csb data true = Ret (None, INCONSISTENT_TOTAL_FIELDS)) /\
  (total_lines_of lines = tl -> total_fields_of lines = tf ->
   max_columns_of lines <> mc ->
   read_csb data true = Ret (None, INCONSISTENT_MAX_COLUMNS)) /\
  (total_lines_of lines = tl -> total_fields_of lines = tf ->
   max_columns_of lines = mc ->
   read_csb data true = Ret (Some lines, SUCCESS)).
Proof.
  intros Hd Hb. rewrite (read_csb_validated _ _ _ _ _ _ Hd Hb), validate_spec.
  repeat split; intros; repeat case_decide; congruence.
Qed.

(** C2, as stated, fails: with the line count right and both other counts
    wrong the code answers [INCONSISTENT_TOTAL_FIELDS], not
    [INCONSISTENT_MAX_COLUMNS]. *)
Lemma validation_order_counterexample :
  declared stream_two_wrong_counts = Some (LittleEndian, (9, 9, 2)) /\
  read_blocks stream_two_wrong_counts LittleEndian = Ret (Some table_ab, SUCCESS) /\
  total_lines_of table_ab = 2 /\
  total_fields_of table_ab <> 9 /\
  max_columns_of table_ab <> 9 /\
  read_csb stream_two_wrong_counts true = Ret (None, INCONSISTENT_TOTAL_FIELDS) /\
  read_csb stream_two_wrong_counts true <> Ret (None, INCONSISTENT_MAX_COLUMNS).
Proof. vm_compute. repeat split; congruence. Qed.

Lemma validation_order_witness :
  read_csb stream_wrong_lines true = Ret (None, INCONSISTENT_TOTAL_LINES) /\
  read_csb stream_two_wrong_counts true = Ret (None, INCONSISTENT_TOTAL_FIELDS) /\
  read_csb stream_wrong_columns true = Ret (None, INCONSISTENT_MAX_COLUMNS) /\
  read_csb (encoding table_ab LittleEndian) true = Ret (Some table_ab, SUCCESS).
Proof.
  split; [|split; [|split]].
  - refine (proj1 (validation_order stream_wrong_lines BigEndian
                     3 2 3 table_ab _ _) _).
    + vm_compute. reflexivity.
    + vm_compute. reflexivity.
    + vm_compute. discriminate.
  - refine (proj1 (proj2 (validation_order stream_two_wrong_counts LittleEndian
                            9 9 2 table_ab _ _)) _ _).
    + vm_compute. reflexivity.
    + vm_compute. reflexivity.
    + vm_compute. reflexivity.
    + vm_compute. discriminate.
  - refine (proj1 (proj2 (proj2
              (validation_order stream_wrong_columns LittleEndian
                 3 7 2 table_ab _ _))) _ _ _).
    + vm_compute. reflexivity.
    + vm_compute. reflexivity.
    + vm_compute. reflexivity.
    + vm_compute. reflexivity.
    + vm_compute. discriminate.
  - refine (proj2 (proj2 (proj2
              (validation_order (encoding table_ab LittleEndian) LittleEndian
                 3 2 2 table_ab _ _))) _ _ _).
    + vm_compute. reflexivity.
    + vm_compute. reflexivity.
    + vm_compute. reflexivity.
    + vm_compute. reflexivity.
    + vm_compute. reflexivity.
Defined.

(** ** What the readers can answer *)

Ltac io_step :=
  match goal with
  | |- context [match ?x with _ => _ end] => destruct x eqn:?
  | H : context [match ?x with _ => _ end] |- _ => destruct x eqn:?
  end.

Lemma read_strp_answers data o p r e p' :
  read_strp data o p = Ret ((r, e), p') ->
  (r = None /\ e = INVALID_STRP_MAGIC) \/ (is_Some r /\ e = SUCCESS).
Proof.
  unfold read_strp, io_bind, io_lift, io_ret, f_tell, f_read, f_seek.
  intros H. repeat io_step; simplify_eq; eauto.
Qed.

Lemma read_lnp_answers data o sm p r e p' :
  read_lnp data o sm p = Ret ((r, e), p') ->
  (r = None /\ e = INVALID_LNP_MAGIC) \/ (is_Some r /\ e = SUCCESS).
Proof.
  unfold read_lnp, io_bind, io_lift, io_ret, f_tell, f_read, f_seek.
  intros H. repeat io_step; simplify_eq; eauto.
Qed.

Lemma read_lnt_answers data o lm p r e p' :
  read_lnt data o lm p = Ret ((r, e), p') ->
  (r = None /\ e = INVALID_LNT_MAGIC) \/ (is_Some r /\ e = SUCCESS).
Proof.
  unfold read_lnt, io_bind, io_lift, io_ret, f_tell, f_read, f_seek.
  intros H. repeat io_step; simplify_eq; eauto.
Qed.

Lemma validate_answers lines tf mc tl r e :
  validate lines tf mc tl = (r, e) ->
  (r = None /\ is_consistency_error e) \/ (r = Some lines /\ e = SUCCESS).
Proof.
  rewrite validate_spec. unfold is_consistency_error.
  repeat case_decide; intros [= <- <-]; eauto.
Qed.

(** Decoding with and without validation: the same computation up to the
    final check. *)
Lemma read_csb_io_toggle data p :
  match read_csb_io data false p with
  | Raise e => read_csb_io data true p = Raise e
  | Ret ((None, err), p') =>
    read_csb_io data true p = Ret ((None, err), p') /\
    ~ is_consistency_error err
  | Ret ((Some lines, err), p') =>
    err = SUCCESS /\
    exists tf mc tl,
      read_csb_io data true p = Ret (validate lines tf mc tl, p')
  end.
Proof.
  unfold read_csb_io, io_bind, io_lift, io_ret.
  repeat (io_step; simplify_eq; try done);
    unfold is_consistency_error;
    repeat match goal with
    | H : read_strp _ _ _ = Ret _ |- _ => apply read_strp_answers in H
    | H : read_lnp _ _ _ _ = Ret _ |- _ => apply read_lnp_answers in H
    | H : read_lnt _ _ _ _ = Ret _ |- _ => apply read_lnt_answers in H
    end;
    try (split; [done|]); eauto;
    intros [?|[?|?]]; intuition congruence.
Qed.

(** ** [struct]: what is packed is unpacked *)

Lemma to_N_byte_of_N n : Byte.to_N (byte_of_N n) = n mod 256.
Proof.
  unfold byte_of_N. destruct (Byte.of_N (n mod 256)) as [b|] eqn:E.
  - by apply Byte.to_of_N in E.
  - apply Byte.of_N_None_iff in E.
    pose proof (N.mod_upper_bound n 256). lia.
Qed.

Lemma to_N_byte_of_N_small n : n < 256 -> Byte.to_N (byte_of_N n) = n.
Proof. intros H. rewrite to_N_byte_of_N. by apply N.mod_small. Qed.

Lemma length_le_bytes w n : length (le_bytes w n) = w.
Proof. revert n. induction w; intros; simpl; auto. Qed.

Lemma le_value_le_bytes w n : le_value (le_bytes w n) = n mod 2 ^ (8 * N.of_nat w).
Proof.
  revert n. induction w as [|w IH]; intros n.
  - simpl. by rewrite N.mod_1_r.
  - cbn [le_bytes le_value]. rewrite IH, to_N_byte_of_N.
    replace (8 * N.of_nat (S w)) with (8 + 8 * N.of_nat w) by lia.
    rewrite N.pow_add_r. change (2 ^ 8) with 256.
    rewrite N.Div0.mod_mul_r. done.
Qed.

Lemma length_int_bytes w o n : length (int_bytes w o n) = w.
Proof. destruct o; simpl; rewrite ?length_rev; apply length_le_bytes. Qed.

Lemma len_int_bytes w o n : len (int_bytes w o n) = N.of_nat w.
Proof. unfold len. by rewrite length_int_bytes. Qed.

Lemma unpack_int_bytes w o n :
  n < 2 ^ (8 * N.of_nat w) -> unpack w o (int_bytes w o n) = Ret n.
Proof.
  intros H. unfold unpack. rewrite length_int_bytes.
  case_decide; [|done]. f_equal.
  destruct o; simpl; rewrite ?rev_involutive, le_value_le_bytes;
    by apply N.mod_small.
Qed.

Lemma pack_Ret w o n bs :
  pack w o n = Ret bs -> bs = int_bytes w o n /\ n < 2 ^ (8 * N.of_nat w).
Proof.
  unfold pack. destruct (N.ltb_spec n (2 ^ (8 * N.of_nat w))); [|done].
  by intros [= <-].
Qed.

Lemma pack_fits w o n :
  n < 2 ^ (8 * N.of_nat w) -> pack w o n = Ret (int_bytes w o n).
Proof.
  intros H. unfold pack.
  by destruct (N.ltb_spec n (2 ^ (8 * N.of_nat w))); [|lia].
Qed.

Lemma unpack_pack w o n bs : pack w o n = Ret bs -> unpack w o bs = Ret n.
Proof. intros [-> H]%pack_Ret. by apply unpack_int_bytes. Qed.

Lemma le_value_bound bs : le_value bs < 2 ^ (8 * len bs).
Proof.
  unfold len. induction bs as [|b bs IH]; simpl length.
  - simpl. lia.
  - cbn [le_value]. pose proof (Byte.to_N_bounded b).
    replace (8 * N.of_nat (S (length bs))) with (8 + 8 * N.of_nat (length bs))
      by lia.
    rewrite N.pow_add_r. change (2 ^ 8) with 256. lia.
Qed.

Lemma unpack_bound w o bs n : unpack w o bs = Ret n -> n < 2 ^ (8 * N.of_nat w).
Proof.
  unfold unpack. case_decide as Hl; [|done]. intros [= <-].
  destruct o.
  - pose proof (le_value_bound bs) as Hb. unfold len in Hb. by rewrite Hl in Hb.
  - pose proof (le_value_bound (rev bs)) as Hb. unfold len in Hb.
    by rewrite length_rev, Hl in Hb.
Qed.

(** ** UTF-8: text survives *)

Ltac bool_to_prop :=
  repeat match goal with
  | H : (_ <? _) = true |- _ => apply N.ltb_lt in H
  | H : (_ <? _) = false |- _ => apply N.ltb_ge in H
  | H : (_ <=? _) = true |- _ => apply N.leb_le in H
  | H : (_ <=? _) = false |- _ => apply N.leb_gt in H
  | H : (_ =? _) = true |- _ => apply N.eqb_eq in H
  | H : (_ =? _) = false |- _ => apply N.eqb_neq in H
  | H : (_ && _) = true |- _ => apply andb_true_iff in H; destruct H
  | H : (_ && _) = false |- _ => apply andb_false_iff in H
  end.

Ltac Zify.zify_post_hook ::= Z.to_euclidean_division_equations.

(** Settle a comparison whose result arithmetic knows. *)
Ltac know_lt a b := replace (a <? b) with true by (symmetry; apply N.ltb_lt; lia).
Ltac know_ge a b := replace (a <? b) with false by (symmetry; apply N.ltb_ge; lia).
Ltac know_le a b := replace (a <=? b) with true by (symmetry; apply N.leb_le; lia).
Ltac know_gt a b := replace (a <=? b) with false by (symmetry; apply N.leb_gt; lia).
Ltac know_ne a b := replace (a =? b) with false by (symmetry; apply N.eqb_neq; lia).

Lemma is_continuation_tail x : x < 64 -> is_continuation (128 + x) = true.
Proof.
  intros. unfold is_continuation.
  know_le 128 (128 + x). know_lt (128 + x) 192. done.
Qed.

Lemma utf8_decode_encode_char c rest :
  is_scalar c ->
  utf8_decode (utf8_encode_char c ++ rest) = c :: utf8_decode rest.
Proof.
  unfold is_scalar, utf8_encode_char. intros Hc.
  destruct (N.ltb_spec c 128).
  { cbn [app utf8_decode]. rewrite to_N_byte_of_N_small by lia.
    by know_lt c 128. }
  destruct (N.ltb_spec c 2048).
  { cbn [app utf8_decode]. rewrite !to_N_byte_of_N_small by lia.
    know_ge (192 + c / 64) 128. know_ge (192 + c / 64) 194.
    know_lt (192 + c / 64) 224.
    rewrite is_continuation_tail by lia. f_equal. lia. }
  assert (is_surrogate c = false) as ->.
  { unfold is_surrogate.
    destruct (N.leb_spec 55296 c), (N.leb_spec c 57343); try done; lia. }
  destruct (N.ltb_spec c 65536).
  { cbn [app utf8_decode]. rewrite !to_N_byte_of_N_small by lia.
    know_ge (224 + c / 4096) 128. know_ge (224 + c / 4096) 194.
    know_ge (224 + c / 4096) 224. know_lt (224 + c / 4096) 240.
    assert (second_of_3 (224 + c / 4096) (128 + c / 64 mod 64) = true) as ->.
    { unfold second_of_3. rewrite is_continuation_tail by lia. cbn [andb].
      destruct (N.eqb_spec (224 + c / 4096) 224); [apply N.leb_le; lia|].
      destruct (N.eqb_spec (224 + c / 4096) 237); [apply N.ltb_lt; lia|done]. }
    rewrite is_continuation_tail by lia. f_equal. lia. }
  cbn [app utf8_decode]. rewrite !to_N_byte_of_N_small by lia.
  know_ge (240 + c / 262144) 128. know_ge (240 + c / 262144) 194.
  know_ge (240 + c / 262144) 224. know_ge (240 + c / 262144) 240.
  know_lt (240 + c / 262144) 245.
  assert (second_of_4 (240 + c / 262144) (128 + c / 4096 mod 64) = true) as ->.
  { unfold second_of_4. rewrite is_continuation_tail by lia. cbn [andb].
    destruct (N.eqb_spec (240 + c / 262144) 240); [apply N.leb_le; lia|].
    destruct (N.eqb_spec (240 + c / 262144) 244); [apply N.ltb_lt; lia|done]. }
  rewrite !is_continuation_tail by lia. f_equal. lia.
Qed.

Lemma utf8_decode_encode s :
  Forall is_scalar s -> utf8_decode (utf8_encode s) = s.
Proof.
  unfold utf8_encode. induction 1 as [|c s Hc _ IH]; [done|].
  cbn [map concat]. rewrite utf8_decode_encode_char by done. by rewrite IH.
Qed.

(** ** C strings *)

Lemma byte_of_N_not_nul n : 0 < n -> n < 256 -> byte_of_N n <> x00.
Proof.
  intros H0 H1 E. pose proof (to_N_byte_of_N_small n H1) as Hn.
  rewrite E in Hn. simpl in Hn. lia.
Qed.

Lemma utf8_encode_char_no_nul c :
  c <> 0 -> is_code_point c -> x00 ∉ utf8_encode_char c.
Proof.
  unfold is_code_point, utf8_encode_char. intros H0 Hc.
  destruct (c <? 128) eqn:?; [|destruct (c <? 2048) eqn:?;
    [|destruct (is_surrogate c); [|destruct (c <? 65536) eqn:?]]];
    bool_to_prop;
    rewrite ?elem_of_cons, elem_of_nil; intros H;
    repeat destruct H as [H|H]; try done;
    symmetry in H; revert H; apply byte_of_N_not_nul; lia.
Qed.

Lemma utf8_encode_no_nul s : no_nul s -> x00 ∉ utf8_encode s.
Proof.
  unfold utf8_encode. induction 1 as [|c s [H0 Hc] _ IH]; cbn [map concat].
  - apply not_elem_of_nil.
  - rewrite elem_of_app. intros [H|H]; [|done].
    by apply (utf8_encode_char_no_nul c).
Qed.

Lemma is_text_no_nul s : is_text s -> no_nul s.
Proof.
  intros H. eapply Forall_impl; [exact H|]. intros c [H0 Hc]. split; [done|].
  unfold is_scalar, is_code_point in *. lia.
Qed.

Lemma is_text_lossy s : is_text s -> lossy s = s.
Proof.
  intros H. apply utf8_decode_encode. eapply Forall_impl; [exact H|]. by intros c [_ Hc].
Qed.

Lemma c_string_bytes_app bs rest :
  x00 ∉ bs -> c_string_bytes (bs ++ x00 :: rest) = Ret bs.
Proof.
  induction bs as [|b bs IH]; intros H; cbn [app c_string_bytes].
  - by destruct (decide (x00 = x00)).
  - apply not_elem_of_cons in H as [Hb H].
    destruct (decide (b = x00)); [congruence|]. by rewrite IH.
Qed.

Lemma len_app {A} (l k : list A) : len (l ++ k) = len l + len k.
Proof. unfold len. rewrite length_app. lia. Qed.

Lemma len_cons {A} (x : A) (l : list A) : len (x :: l) = 1 + len l.
Proof. unfold len. simpl. lia. Qed.

Lemma len_c_string s : len (c_string s) = len (utf8_encode s) + 1.
Proof. unfold c_string. by rewrite len_app. Qed.

(** ** Reading a stream of known content *)

Lemma unread_at data pre rest : data = pre ++ rest -> unread data (len pre) = rest.
Proof.
  intros ->. rewrite unread_drop. unfold len. rewrite Nat2N.id.
  by rewrite drop_app_length.
Qed.

Lemma unread_advance data p a r :
  unread data p = a ++ r -> unread data (p + len a) = r.
Proof.
  rewrite !unread_drop. intros H. unfold len.
  replace (N.to_nat (p + N.of_nat (length a)))
    with (N.to_nat p + length a)%nat by lia.
  by rewrite <- drop_drop, H, drop_app_length.
Qed.

Lemma f_read_at data n p a r :
  unread data p = a ++ r -> length a = n -> f_read data n p = Ret (a, p + len a).
Proof.
  intros H <-. unfold f_read. by rewrite H, take_app_length.
Qed.

Lemma f_seek_ok q p : q < 2 ^ 63 -> f_seek q p = Ret (tt, q).
Proof. intros H. unfold f_seek. by destruct (N.ltb_spec q (2 ^ 63)); [|lia]. Qed.

Lemma read_c_string_at data p s rest :
  no_nul s -> unread data p = c_string s ++ rest ->
  read_c_string data p = Ret (lossy s, p + len (c_string s)).
Proof.
  intros Hs H. unfold read_c_string. rewrite H. unfold c_string.
  rewrite <- app_assoc. cbn [app].
  rewrite c_string_bytes_app by by apply utf8_encode_no_nul.
  cbn [obind]. unfold lossy. rewrite len_app. do 2 f_equal.
  change (len [x00]) with 1. lia.
Qed.

(** ** [dict.fromkeys] *)

Lemma dict_fromkeys_elem strs keys s :
  s ∈ dict_fromkeys strs keys <-> s ∈ keys \/ s ∈ strs.
Proof.
  revert keys. induction strs as [|x strs IH]; intros keys; simpl.
  - rewrite elem_of_nil. tauto.
  - rewrite elem_of_cons.
    case_decide as Hx; rewrite IH, ?elem_of_app, ?list_elem_of_singleton.
    + split; [tauto|]. intros [?|[->|?]]; auto.
    + tauto.
Qed.

Lemma dict_fromkeys_NoDup strs keys :
  NoDup keys -> NoDup (dict_fromkeys strs keys).
Proof.
  revert keys. induction strs as [|x strs IH]; intros keys Hk; simpl; [done|].
  case_decide; apply IH; [done|].
  apply NoDup_app. split_and!; [done| |apply NoDup_singleton].
  intros y Hy ->%list_elem_of_singleton. done.
Qed.

Lemma elem_of_concat {A} (x : A) (ls : list (list A)) :
  x ∈ concat ls <-> exists l, l ∈ ls /\ x ∈ l.
Proof.
  induction ls as [|l ls IH]; simpl.
  - rewrite elem_of_nil. split; [done|]. by intros (l & H%elem_of_nil & _).
  - rewrite elem_of_app, IH. split.
    + intros [H|(l' & H1 & H2)]; [exists l|exists l'];
        rewrite elem_of_cons; auto.
    + intros (l' & [->|H1]%elem_of_cons & H2); eauto.
Qed.

Lemma get_unique_strs_elem lines s :
  s ∈ get_unique_strs lines <-> exists line, line ∈ lines /\ s ∈ line.
Proof.
  unfold get_unique_strs. rewrite dict_fromkeys_elem, elem_of_nil.
  rewrite elem_of_concat. tauto.
Qed.

Lemma get_unique_strs_NoDup lines : NoDup (get_unique_strs lines).
Proof. apply dict_fromkeys_NoDup, NoDup_nil_2. Qed.

(** ** The writer produces the layout *)

Lemma len_block magic o payload :
  length magic = 4%nat -> len (block magic o payload) = len payload + 8.
Proof.
  intros H. unfold block. rewrite !len_app, len_int_bytes.
  unfold len at 1. rewrite H. lia.
Qed.

Lemma len_pool_bytes_cons s strings :
  len (pool_bytes (s :: strings)) = len (c_string s) + len (pool_bytes strings).
Proof. unfold pool_bytes. cbn [map concat]. by rewrite len_app. Qed.

Lemma write_strp_loop_spec ft strings blk m :
  write_strp_loop ft strings blk m =
  (blk ++ pool_bytes strings, pool_index (ft + len blk + 4) strings m).
Proof.
  revert blk m. induction strings as [|s strings IH]; intros blk m.
  - simpl. by rewrite app_nil_r.
  - cbn [write_strp_loop pool_index]. rewrite IH.
    unfold pool_bytes. cbn [map concat]. rewrite <- app_assoc.
    f_equal. f_equal. rewrite len_app. lia.
Qed.

Lemma pool_index_other base strings m s :
  s ∉ strings -> pool_index base strings m !! s = m !! s.
Proof.
  revert base m. induction strings as [|x strings IH]; intros base m H; [done|].
  apply not_elem_of_cons in H as [Hx H]. cbn [pool_index].
  rewrite IH by done. by rewrite lookup_insert_ne.
Qed.

Lemma pool_index_lookup base strings m s :
  NoDup strings -> s ∈ strings ->
  pool_index base strings m !! s = Some (pool_addr base strings s).
Proof.
  revert base m. induction strings as [|x strings IH]; intros base m Hnd Hs.
  - by apply elem_of_nil in Hs.
  - apply NoDup_cons in Hnd as [Hx Hnd]. cbn [pool_index pool_addr].
    case_decide as E.
    + subst x. rewrite pool_index_other by done. apply lookup_insert_eq.
    + apply elem_of_cons in Hs as [->|Hs]; [done|]. by apply IH.
Qed.

Lemma write_strp_spec f o lines f' str_map :
  write_strp f o lines = Ret (f', str_map) ->
  f' = f ++ strp_block o lines /\
  str_map = pool_index (len f + 16) (get_unique_strs lines) ∅ /\
  len (strp_block o lines) < 2 ^ 32.
Proof.
  unfold write_strp.
  destruct (pack_Q o (len (get_unique_strs lines))) as [cnt|] eqn:Hc; [|done].
  apply pack_Ret in Hc as [-> Hc]. cbn [obind].
  rewrite write_strp_loop_spec.
  destruct (pack_I o _) as [lf|] eqn:Hl; [|done].
  apply pack_Ret in Hl as [-> Hl]. cbn [obind]. intros [= <- <-].
  unfold strp_block, block, strp_payload.
  rewrite len_app, !len_int_bytes in *. rewrite <- !app_assoc.
  split_and!; [done| |].
  - f_equal. rewrite len_app. unfold magic_STRP, len. simpl length. lia.
  - rewrite !len_app, !len_int_bytes. unfold magic_STRP, len at 1.
    simpl length. change (8 * N.of_nat 4) with 32 in Hl. lia.
Qed.

Lemma write_lnp_fields_spec o sm addr line blk blk' :
  (forall s, s ∈ line -> sm !! s = Some (addr s)) ->
  write_lnp_fields o sm line blk = Ret blk' ->
  blk' = blk ++ concat (map (fun s => int_bytes 8 o (addr s)) line).
Proof.
  revert blk. induction line as [|s line IH]; intros blk Hsm.
  - cbn. intros [= <-]. by rewrite app_nil_r.
  - cbn [write_lnp_fields]. unfold getitem.
    rewrite (Hsm s) by (apply elem_of_cons; auto). cbn [obind].
    destruct (pack_Q o (addr s)) as [raw|] eqn:Hp; [|done].
    apply pack_Ret in Hp as [-> _]. cbn [obind]. intros H.
    apply IH in H; [|intros; apply Hsm, elem_of_cons; auto].
    rewrite H. cbn [map concat]. by rewrite <- app_assoc.
Qed.

Lemma len_field_addrs o (addr : pystr -> N) (line : list pystr) :
  len (concat (map (fun s => int_bytes 8 o (addr s)) line)) = 8 * len line.
Proof.
  induction line as [|s line IH]; [done|].
  cbn [map concat]. rewrite len_app, len_int_bytes, IH, len_cons. lia.
Qed.

Lemma len_record_bytes o addr a line :
  len (record_bytes o addr a line) = 16 + 8 * len line.
Proof.
  unfold record_bytes. rewrite !len_app, !len_int_bytes, len_field_addrs. lia.
Qed.

Lemma write_lnp_loop_spec o sm addr ft lines blk lm blk' lm' :
  (forall line s, line ∈ lines -> s ∈ line -> sm !! s = Some (addr s)) ->
  write_lnp_loop o sm ft lines blk lm = Ret (blk', lm') ->
  blk' = blk ++ records_bytes o addr (ft + len blk + 4) lines /\
  lm' = lm ++ record_addrs (ft + len blk + 4) lines.
Proof.
  revert blk lm. induction lines as [|line lines IH]; intros blk lm Hsm.
  - cbn. intros [= <- <-]. by rewrite !app_nil_r.
  - cbn [write_lnp_loop].
    destruct (pack_Q o (len line)) as [rc|] eqn:Hc; [|done].
    apply pack_Ret in Hc as [-> _]. cbn [obind].
    destruct (pack_Q o _) as [rs|] eqn:Hs; [|done].
    apply pack_Ret in Hs as [-> _]. cbn [obind].
    destruct (write_lnp_fields _ _ _ _) as [lb|] eqn:Hf; [|done].
    apply (write_lnp_fields_spec _ _ addr) in Hf;
      [|intros; eapply Hsm; [apply elem_of_cons; left; reflexivity|done]].
    subst lb. cbn [obind]. intros H.
    apply IH in H as [H1 H2];
      [|intros l s ? ?; apply (Hsm l s); [apply elem_of_cons|]; auto].
    clear IH. subst blk' lm'.
    cbn [records_bytes record_addrs]. unfold record_bytes.
    rewrite !len_app, !len_int_bytes, len_field_addrs.
    replace (ft + (len blk + (N.of_nat 8 + N.of_nat 8) + 8 * len line) + 4)
      with (ft + len blk + 4 + 16 + 8 * len line) by lia.
    rewrite <- !app_assoc. done.
Qed.

Lemma write_lnp_spec f o lines sm addr f' lm :
  (forall line s, line ∈ lines -> s ∈ line -> sm !! s = Some (addr s)) ->
  write_lnp f o lines sm = Ret (f', lm) ->
  f' = f ++ block magic_LNP o
         (int_bytes 8 o (len lines) ++ records_bytes o addr (len f + 16) lines) /\
  lm = record_addrs (len f + 16) lines /\
  len (block magic_LNP o
         (int_bytes 8 o (len lines) ++ records_bytes o addr (len f + 16) lines))
    < 2 ^ 32.
Proof.
  intros Hsm. unfold write_lnp.
  destruct (pack_Q o (len lines)) as [cnt|] eqn:Hc; [|done].
  apply pack_Ret in Hc as [-> _]. cbn [obind].
  destruct (write_lnp_loop _ _ _ _ _ _) as [[lb lm']|] eqn:Hl; [|done].
  apply (write_lnp_loop_spec _ _ addr) in Hl as [-> ->]; [|done].
  cbn [obind app].
  destruct (pack_I o _) as [lf|] eqn:Hp; [|done].
  apply pack_Ret in Hp as [-> Hp]. cbn [obind]. intros [= <- <-].
  rewrite !len_app, !len_int_bytes in *.
  change (len magic_LNP) with 4 in *.
  replace (len f + 4 + N.of_nat 8 + 4) with (len f + 16) in * by lia.
  rewrite len_block by done. rewrite len_app, len_int_bytes.
  change (8 * N.of_nat 4) with 32 in Hp.
  split_and!; [|done|lia].
  unfold block. rewrite len_app, len_int_bytes, <- !app_assoc. done.
Qed.

Lemma write_lnt_loop_spec o line_map blk blk' :
  write_lnt_loop o line_map blk = Ret blk' ->
  blk' = blk ++ concat (map (int_bytes 8 o) line_map).
Proof.
  revert blk. induction line_map as [|a line_map IH]; intros blk.
  - cbn. intros [= <-]. by rewrite app_nil_r.
  - cbn [write_lnt_loop].
    destruct (pack_Q o a) as [raw|] eqn:Hp; [|done].
    apply pack_Ret in Hp as [-> _]. cbn [obind]. intros ->%IH.
    cbn [map concat]. by rewrite <- app_assoc.
Qed.

Lemma write_lnt_spec f o lines line_map f' :
  write_lnt f o lines line_map = Ret f' ->
  f' = f ++ block magic_LNT o
         (int_bytes 8 o (len lines) ++ concat (map (int_bytes 8 o) line_map)) /\
  len (block magic_LNT o
         (int_bytes 8 o (len lines) ++ concat (map (int_bytes 8 o) line_map)))
    < 2 ^ 32.
Proof.
  unfold write_lnt.
  destruct (pack_Q o (len lines)) as [cnt|] eqn:Hc; [|done].
  apply pack_Ret in Hc as [-> _]. cbn [obind].
  destruct (write_lnt_loop _ _ _) as [lb|] eqn:Hl; [|done].
  apply write_lnt_loop_spec in Hl as ->. cbn [obind].
  destruct (pack_I o _) as [lf|] eqn:Hp; [|done].
  apply pack_Ret in Hp as [-> Hp]. cbn [obind]. intros [= <-].
  rewrite len_block by done. change (8 * N.of_nat 4) with 32 in Hp.
  split; [|done]. unfold block. by rewrite <- !app_assoc.
Qed.

Lemma len_header_bytes o lines : len (header_bytes o lines) = 24.
Proof.
  unfold header_bytes. rewrite !len_app, !len_int_bytes. by destruct o.
Qed.

(** [write_csb] returns only the layout, and only when the sizes fit. *)
Lemma write_csb_spec lines o out :
  write_csb lines o = Ret out -> out = layout lines o /\ fits lines o.
Proof.
  unfold write_csb, write_csb_to. rewrite header_counts_spec.
  rewrite N.add_0_l, N.max_0_l. cbn [app].
  destruct (pack_I o (total_fields_of lines)) as [r1|] eqn:H1; [|done].
  apply pack_Ret in H1 as [-> H1]. cbn [obind].
  destruct (pack_I o (max_columns_of lines)) as [r2|] eqn:H2; [|done].
  apply pack_Ret in H2 as [-> H2]. cbn [obind].
  destruct (pack_I o (len lines)) as [r3|] eqn:H3; [|done].
  apply pack_Ret in H3 as [-> H3]. cbn [obind].
  rewrite <- !app_assoc.
  change (magic_CSB ++ marker_of o ++ reserved ++ _)
    with (header_bytes o lines).
  destruct (write_strp _ _ _) as [[f1 sm]|] eqn:Hs; [|done].
  apply write_strp_spec in Hs as (-> & -> & Hs). cbn [obind].
  rewrite len_header_bytes. change (24 + 16) with 40.
  destruct (write_lnp _ _ _ _) as [[f2 lm]|] eqn:Hl; [|done].
  apply (write_lnp_spec _ _ _ _ (pool_addr 40 (get_unique_strs lines))) in Hl
    as (-> & -> & Hl).
  2:{ intros line s Hline Hs'. apply pool_index_lookup.
      - apply get_unique_strs_NoDup.
      - apply get_unique_strs_elem. eauto. }
  cbn [obind]. rewrite len_app, len_header_bytes in *.
  intros [-> Ht]%write_lnt_spec.
  change (8 * N.of_nat 4) with 32 in *.
  split.
  - unfold layout, lnp_block, lnt_block, lnp_payload, lnt_payload, lnp_start.
    rewrite <- !app_assoc. reflexivity.
  - unfold fits, total_lines_of, lnp_block, lnt_block, lnp_payload,
      lnt_payload, lnp_start.
    repeat split; assumption.
Qed.

(** ** The readers on the layout *)

Lemma bind_read data n p a r {B} (k : list byte -> io B) :
  unread data p = a ++ r -> length a = n ->
  io_bind (f_read data n) k p = k a (p + len a).
Proof. intros H Hn. unfold io_bind. by rewrite (f_read_at _ _ _ _ _ H Hn). Qed.

Lemma bind_tell {B} (k : N -> io B) p : io_bind f_tell k p = k p p.
Proof. done. Qed.

Lemma bind_lift {A B} (v : A) (k : A -> io B) p :
  io_bind (io_lift (Ret v)) k p = k v p.
Proof. done. Qed.

Lemma bind_seek {B} (k : unit -> io B) q p :
  q < 2 ^ 63 -> io_bind (f_seek q) k p = k tt q.
Proof. intros H. unfold io_bind. by rewrite f_seek_ok. Qed.

(** Read the next chunk of the known content [H] of the stream. *)
Ltac read_next H :=
  rewrite (bind_read _ _ _ _ _ _ H)
    by first [apply length_int_bytes | reflexivity];
  apply unread_advance in H; cbv beta.

Lemma len_strings_le_pool strings : len strings <= len (pool_bytes strings).
Proof.
  induction strings as [|s strings IH]; [done|].
  rewrite len_pool_bytes_cons, len_cons, len_c_string. lia.
Qed.

Lemma to_nat_len {A} (l : list A) : N.to_nat (len l) = length l.
Proof. unfold len. lia. Qed.

Lemma read_strp_loop_at data strings m p rest :
  Forall no_nul strings ->
  unread data p = pool_bytes strings ++ rest ->
  read_strp_loop data (length strings) m p =
  Ret (pool_map p strings m, p + len (pool_bytes strings)).
Proof.
  intros Hs. revert m p.
  induction Hs as [|s strings Hs _ IH]; intros m p H.
  - cbn. unfold io_ret. do 2 f_equal. change (len []) with 0. lia.
  - cbn [length read_strp_loop pool_map]. rewrite bind_tell.
    unfold pool_bytes in H. cbn [map concat] in H. rewrite <- app_assoc in H.
    unfold io_bind. rewrite (read_c_string_at _ _ _ _ Hs H).
    apply unread_advance in H. rewrite (IH _ _ H).
    rewrite len_pool_bytes_cons. do 2 f_equal. lia.
Qed.

Lemma read_strp_at data o p strings rest :
  unread data p =
    block magic_STRP o (int_bytes 8 o (len strings) ++ pool_bytes strings)
    ++ rest ->
  Forall no_nul strings ->
  len (pool_bytes strings) + 16 < 2 ^ 32 -> p < 2 ^ 62 ->
  read_strp data o p =
  Ret ((Some (pool_map (p + 16) strings ∅), SUCCESS),
       p + len (pool_bytes strings) + 16).
Proof.
  intros H Hs Hb Hp. unfold block in H. rewrite <- !app_assoc in H.
  pose proof (len_strings_le_pool strings) as Hle.
  unfold read_strp. rewrite bind_tell. read_next H.
  destruct (decide (magic_STRP <> magic_STRP)) as [?|_]; [done|].
  read_next H. unfold unpack_I.
  rewrite unpack_int_bytes
    by (rewrite len_app, len_int_bytes; change (8 * N.of_nat 4) with 32; lia).
  rewrite bind_lift. cbv beta zeta.
  read_next H. unfold unpack_Q.
  rewrite unpack_int_bytes by (change (8 * N.of_nat 8) with 64; lia).
  rewrite bind_lift. cbv beta. rewrite to_nat_len.
  rewrite !len_int_bytes in *. change (len magic_STRP) with 4 in *.
  replace (p + 4 + N.of_nat 4 + N.of_nat 8) with (p + 16) in * by lia.
  unfold io_bind at 1. rewrite (read_strp_loop_at _ _ _ _ _ Hs H).
  rewrite len_app, len_int_bytes. rewrite bind_seek by lia.
  unfold io_ret. do 2 f_equal. lia.
Qed.

Lemma pool_map_below base strings m a :
  a < base -> pool_map base strings m !! a = m !! a.
Proof.
  revert base m. induction strings as [|s strings IH]; intros base m H; [done|].
  cbn [pool_map]. rewrite IH by lia. apply lookup_insert_ne. lia.
Qed.

Lemma pool_map_lookup base strings m s :
  s ∈ strings ->
  pool_map base strings m !! pool_addr base strings s = Some (lossy s).
Proof.
  revert base m. induction strings as [|x strings IH]; intros base m Hs.
  - by apply elem_of_nil in Hs.
  - cbn [pool_map pool_addr]. case_decide as E.
    + subst x. rewrite pool_map_below by (rewrite len_c_string; lia).
      apply lookup_insert_eq.
    + apply elem_of_cons in Hs as [->|Hs]; [done|]. by apply IH.
Qed.

Lemma pool_addr_bound base strings s :
  s ∈ strings ->
  base <= pool_addr base strings s /\
  pool_addr base strings s < base + len (pool_bytes strings).
Proof.
  revert base. induction strings as [|x strings IH]; intros base Hs.
  - by apply elem_of_nil in Hs.
  - cbn [pool_addr]. rewrite len_pool_bytes_cons.
    pose proof (len_c_string x). case_decide as E; [lia|].
    apply elem_of_cons in Hs as [->|Hs]; [done|].
    specialize (IH (base + len (c_string x)) Hs). lia.
Qed.

Lemma read_lnp_fields_at data o sm addr line acc p rest :
  (forall s, s ∈ line -> addr s < 2 ^ 64 /\ sm !! addr s = Some (lossy s)) ->
  unread data p = concat (map (fun s => int_bytes 8 o (addr s)) line) ++ rest ->
  read_lnp_fields data o sm (length line) acc p =
  Ret (acc ++ map lossy line, p + 8 * len line).
Proof.
  revert acc p. induction line as [|s line IH]; intros acc p Hsm H.
  - cbn. unfold io_ret. rewrite app_nil_r. do 2 f_equal.
    change (len []) with 0. lia.
  - cbn [length read_lnp_fields]. cbn [map concat] in H.
    rewrite <- app_assoc in H.
    destruct (Hsm s) as [Hb Hl]; [apply elem_of_cons; auto|].
    read_next H. unfold unpack_Q.
    rewrite unpack_int_bytes by (change (8 * N.of_nat 8) with 64; lia).
    rewrite bind_lift. cbv beta. unfold getitem. rewrite Hl.
    rewrite bind_lift. cbv beta.
    rewrite (IH _ _ (fun s Hs => Hsm s (proj2 (elem_of_cons _ _ _) (or_intror Hs))) H).
    rewrite len_int_bytes, len_cons, <- app_assoc. cbn [map app].
    do 2 f_equal. lia.
Qed.

Lemma len_records_bytes_cons o addr a line lines :
  len (records_bytes o addr a (line :: lines)) =
  16 + 8 * len line + len (records_bytes o addr (a + 16 + 8 * len line) lines).
Proof. cbn [records_bytes]. by rewrite len_app, len_record_bytes. Qed.

Lemma read_lnp_loop_at data o sm addr lines m p rest :
  (forall line s, line ∈ lines -> s ∈ line ->
     addr s < 2 ^ 64 /\ sm !! addr s = Some (lossy s)) ->
  unread data p = records_bytes o addr p lines ++ rest ->
  p + len (records_bytes o addr p lines) < 2 ^ 63 ->
  read_lnp_loop data o sm (length lines) m p =
  Ret (record_map p lines m, p + len (records_bytes o addr p lines)).
Proof.
  revert m p. induction lines as [|line lines IH]; intros m p Hsm H Hb.
  - cbn. unfold io_ret. do 2 f_equal. change (len []) with 0. lia.
  - cbn [length read_lnp_loop record_map].
    rewrite len_records_bytes_cons in *.
    cbn [records_bytes] in H. unfold record_bytes in H.
    rewrite <- !app_assoc in H.
    rewrite bind_tell. read_next H. unfold unpack_Q.
    rewrite unpack_int_bytes by (change (8 * N.of_nat 8) with 64; lia).
    rewrite bind_lift. cbv beta.
    read_next H.
    rewrite unpack_int_bytes by (change (8 * N.of_nat 8) with 64; lia).
    rewrite bind_lift. cbv beta. rewrite bind_seek by lia.
    rewrite !len_int_bytes in H.
    replace (p + N.of_nat 8 + N.of_nat 8) with (p + 16) in H by lia.
    rewrite to_nat_len. unfold io_bind at 1.
    rewrite (read_lnp_fields_at _ _ _ _ _ _ _ _
               (fun s Hs => Hsm line s (proj2 (elem_of_cons _ _ _) (or_introl eq_refl)) Hs) H).
    cbn [app].
    apply unread_advance in H. rewrite len_field_addrs in H.
    rewrite (IH _ _ (fun l s Hl Hs => Hsm l s (proj2 (elem_of_cons _ _ _) (or_intror Hl)) Hs) H)
      by lia.
    do 2 f_equal. lia.
Qed.

Lemma read_lnp_at data o sm addr lines p rest :
  unread data p =
    block magic_LNP o
      (int_bytes 8 o (len lines) ++ records_bytes o addr (p + 16) lines)
    ++ rest ->
  (forall line s, line ∈ lines -> s ∈ line ->
     addr s < 2 ^ 64 /\ sm !! addr s = Some (lossy s)) ->
  len (records_bytes o addr (p + 16) lines) + 16 < 2 ^ 32 -> p < 2 ^ 62 ->
  len lines < 2 ^ 64 ->
  read_lnp data o sm p =
  Ret ((Some (record_map (p + 16) lines ∅), SUCCESS),
       p + len (records_bytes o addr (p + 16) lines) + 16).
Proof.
  intros H Hsm Hb Hp Hn. unfold block in H. rewrite <- !app_assoc in H.
  unfold read_lnp. rewrite bind_tell. read_next H.
  destruct (decide (magic_LNP <> magic_LNP)) as [?|_]; [done|].
  read_next H. unfold unpack_I.
  rewrite unpack_int_bytes
    by (rewrite len_app, len_int_bytes; change (8 * N.of_nat 4) with 32; lia).
  rewrite bind_lift. cbv beta zeta.
  read_next H. unfold unpack_Q.
  rewrite unpack_int_bytes by (change (8 * N.of_nat 8) with 64; lia).
  rewrite bind_lift. cbv beta. rewrite to_nat_len.
  rewrite !len_int_bytes in *. change (len magic_LNP) with 4 in *.
  replace (p + 4 + N.of_nat 4 + N.of_nat 8) with (p + 16) in * by lia.
  unfold io_bind at 1. rewrite (read_lnp_loop_at _ _ _ _ _ _ _ _ Hsm H) by lia.
  rewrite len_app, len_int_bytes. rewrite bind_seek by lia.
  unfold io_ret. do 2 f_equal. lia.
Qed.

Lemma record_map_below a lines m a' :
  a' < a -> record_map a lines m !! a' = m !! a'.
Proof.
  revert a m. induction lines as [|l lines IH]; intros a m H; [done|].
  cbn [record_map]. rewrite IH by lia. apply lookup_insert_ne. lia.
Qed.

Lemma record_map_lookup a lines m :
  Forall2 (fun a' l => record_map a lines m !! a' = Some l)
    (record_addrs a lines) (map (map lossy) lines).
Proof.
  revert a m. induction lines as [|l lines IH]; intros a m.
  - constructor.
  - cbn [record_addrs record_map map]. constructor; [|apply IH].
    rewrite record_map_below by lia. apply lookup_insert_eq.
Qed.

Lemma length_record_addrs a lines : length (record_addrs a lines) = length lines.
Proof. revert a. induction lines; intros; simpl; auto. Qed.

Lemma record_addrs_bound o addr a lines :
  Forall (fun a' => a <= a' /\ a' < a + len (records_bytes o addr a lines))
    (record_addrs a lines).
Proof.
  revert a. induction lines as [|l lines IH]; intros a; [constructor|].
  cbn [record_addrs]. rewrite len_records_bytes_cons. constructor; [lia|].
  eapply Forall_impl; [apply IH|]. intros a' Ha. cbv beta in Ha. lia.
Qed.

Lemma len_lnt_entries o (addrs : list N) :
  len (concat (map (int_bytes 8 o) addrs)) = 8 * len addrs.
Proof.
  induction addrs as [|a addrs IH]; [done|].
  cbn [map concat]. rewrite len_app, len_int_bytes, IH, len_cons. lia.
Qed.

Lemma read_lnt_loop_at data o lm addrs L acc p rest :
  Forall2 (fun a l => lm !! a = Some l) addrs L ->
  Forall (fun a => a < 2 ^ 64) addrs ->
  unread data p = concat (map (int_bytes 8 o) addrs) ++ rest ->
  read_lnt_loop data o lm (length addrs) acc p =
  Ret (acc ++ L, p + 8 * len addrs).
Proof.
  intros HL. revert acc p.
  induction HL as [|a l addrs L Ha _ IH]; intros acc p Hb H.
  - cbn. unfold io_ret. rewrite app_nil_r. do 2 f_equal.
    change (len []) with 0. lia.
  - cbn [length read_lnt_loop]. cbn [map concat] in H.
    rewrite <- app_assoc in H. apply Forall_cons in Hb as [Hb1 Hb].
    read_next H. unfold unpack_Q.
    rewrite unpack_int_bytes by (change (8 * N.of_nat 8) with 64; lia).
    rewrite bind_lift. cbv beta. unfold getitem. rewrite Ha.
    rewrite bind_lift. cbv beta. rewrite (IH _ _ Hb H).
    rewrite len_int_bytes, len_cons, <- app_assoc. cbn [app].
    do 2 f_equal. lia.
Qed.

Lemma read_lnt_at data o lm n addrs L p rest :
  unread data p =
    block magic_LNT o (int_bytes 8 o n ++ concat (map (int_bytes 8 o) addrs))
    ++ rest ->
  n = len addrs ->
  Forall2 (fun a l => lm !! a = Some l) addrs L ->
  Forall (fun a => a < 2 ^ 64) addrs ->
  8 * len addrs + 16 < 2 ^ 32 -> p < 2 ^ 62 ->
  read_lnt data o lm p =
  Ret ((Some L, SUCCESS), p + 8 * len addrs + 16).
Proof.
  intros H -> HL Ha Hb Hp. unfold block in H. rewrite <- !app_assoc in H.
  unfold read_lnt. rewrite bind_tell. read_next H.
  destruct (decide (magic_LNT <> magic_LNT)) as [?|_]; [done|].
  read_next H. unfold unpack_I.
  rewrite unpack_int_bytes
    by (rewrite len_app, len_int_bytes, len_lnt_entries;
        change (8 * N.of_nat 4) with 32; lia).
  rewrite bind_lift. cbv beta zeta.
  read_next H. unfold unpack_Q.
  rewrite unpack_int_bytes by (change (8 * N.of_nat 8) with 64; lia).
  rewrite bind_lift. cbv beta. rewrite to_nat_len.
  unfold io_bind at 1. rewrite (read_lnt_loop_at _ _ _ _ _ _ _ _ HL Ha H).
  rewrite len_app, !len_int_bytes, len_lnt_entries.
  change (len magic_LNT) with 4. rewrite bind_seek by lia.
  unfold io_ret. cbn [app]. do 2 f_equal. lia.
Qed.

Lemma len_strp_block o t :
  len (strp_block o t) = len (pool_bytes (get_unique_strs t)) + 16.
Proof.
  unfold strp_block, strp_payload. rewrite len_block by done.
  rewrite len_app, len_int_bytes. lia.
Qed.

Lemma len_lnp_block o t :
  len (lnp_block o t) =
  len (records_bytes o (pool_addr 40 (get_unique_strs t))
         (lnp_start o t + 16) t) + 16.
Proof.
  unfold lnp_block, lnp_payload. rewrite len_block by done.
  rewrite len_app, len_int_bytes. lia.
Qed.

Lemma len_lnt_block o t : len (lnt_block o t) = 8 * len t + 16.
Proof.
  unfold lnt_block, lnt_payload. rewrite len_block by done.
  rewrite len_app, len_int_bytes, len_lnt_entries.
  unfold len at 1. rewrite length_record_addrs. fold (len t). lia.
Qed.

Lemma unique_strs_no_nul t :
  table_no_nul t -> Forall no_nul (get_unique_strs t).
Proof.
  intros Ht. apply Forall_forall. intros s (line & Hl & Hs)%get_unique_strs_elem.
  unfold table_no_nul in Ht. rewrite Forall_forall in Ht.
  specialize (Ht line Hl). rewrite Forall_forall in Ht. by apply Ht.
Qed.

Lemma strp_step data o t rest :
  unread data 24 = strp_block o t ++ rest ->
  table_no_nul t -> len (strp_block o t) < 2 ^ 32 ->
  read_strp data o 24 =
  Ret ((Some (pool_map 40 (get_unique_strs t) ∅), SUCCESS), lnp_start o t).
Proof.
  intros H Ht Hb. rewrite len_strp_block in Hb.
  rewrite (read_strp_at data o 24 (get_unique_strs t) rest H);
    [|by apply unique_strs_no_nul|lia|lia].
  unfold lnp_start. rewrite len_strp_block. do 2 f_equal. lia.
Qed.

Lemma lnp_step data o t rest :
  unread data (lnp_start o t) = lnp_block o t ++ rest ->
  fits t o ->
  read_lnp data o (pool_map 40 (get_unique_strs t) ∅) (lnp_start o t) =
  Ret ((Some (record_map (lnp_start o t + 16) t ∅), SUCCESS), lnt_start o t).
Proof.
  intros H (_ & _ & Hn & Hs & Hl & _).
  unfold total_lines_of in Hn. rewrite len_lnp_block in Hl.
  pose proof (len_strp_block o t) as Es.
  assert (lnp_start o t < 2 ^ 33) as Hp by (unfold lnp_start; lia).
  rewrite (read_lnp_at data o _ (pool_addr 40 (get_unique_strs t)) t
             (lnp_start o t) rest H); [| |lia|lia|lia].
  - unfold lnt_start. rewrite len_lnp_block. do 2 f_equal. lia.
  - intros line s Hline Hs'.
    assert (s ∈ get_unique_strs t) as Hu by (apply get_unique_strs_elem; eauto).
    split; [|by apply pool_map_lookup].
    pose proof (pool_addr_bound 40 _ _ Hu). lia.
Qed.

Lemma lnt_step data o t rest :
  unread data (lnt_start o t) = lnt_block o t ++ rest ->
  fits t o ->
  read_lnt data o (record_map (lnp_start o t + 16) t ∅) (lnt_start o t) =
  Ret ((Some (lossy_table t), SUCCESS), lnt_start o t + len (lnt_block o t)).
Proof.
  intros H (_ & _ & Hn & Hs & Hl & Ht).
  unfold total_lines_of in Hn.
  pose proof (len_strp_block o t) as Es.
  pose proof (len_lnp_block o t) as El. rewrite len_lnt_block in *.
  assert (lnt_start o t < 2 ^ 34) as Hp by (unfold lnt_start, lnp_start; lia).
  assert (len (record_addrs (lnp_start o t + 16) t) = len t) as Ea
    by (unfold len; by rewrite length_record_addrs).
  rewrite (read_lnt_at data o _ (len t) (record_addrs (lnp_start o t + 16) t)
             (lossy_table t) (lnt_start o t) rest H);
    [|done|apply record_map_lookup| |lia|lia].
  - rewrite Ea. do 2 f_equal. lia.
  - eapply Forall_impl;
      [apply (record_addrs_bound o (pool_addr 40 (get_unique_strs t)))|].
    intros a Ha. cbv beta in Ha. unfold lnp_start in *. lia.
Qed.

Lemma read_blocks_at data o t rest :
  unread data 24 = strp_block o t ++ lnp_block o t ++ lnt_block o t ++ rest ->
  table_no_nul t -> fits t o ->
  read_blocks data o = Ret (Some (lossy_table t), SUCCESS).
Proof.
  intros H Ht Hf. unfold read_blocks.
  pose proof Hf as (_ & _ & _ & Hs & _).
  rewrite (strp_step _ _ _ _ H Ht Hs).
  apply unread_advance in H. fold (lnp_start o t) in H.
  rewrite (lnp_step _ _ _ _ H Hf).
  apply unread_advance in H. fold (lnt_start o t) in H.
  by rewrite (lnt_step _ _ _ _ H Hf).
Qed.

(** ** The writer returns whenever the sizes fit *)

Lemma write_lnp_fields_fits o sm addr line blk :
  (forall s, s ∈ line -> sm !! s = Some (addr s) /\ addr s < 2 ^ 64) ->
  write_lnp_fields o sm line blk =
  Ret (blk ++ concat (map (fun s => int_bytes 8 o (addr s)) line)).
Proof.
  revert blk. induction line as [|s line IH]; intros blk Hsm.
  - cbn. by rewrite app_nil_r.
  - cbn [write_lnp_fields]. unfold getitem.
    destruct (Hsm s) as [Hl Hb]; [apply elem_of_cons; auto|].
    rewrite Hl. cbn [obind]. unfold pack_Q. rewrite pack_fits by exact Hb.
    cbn [obind]. rewrite IH by (intros; apply Hsm, elem_of_cons; auto).
    cbn [map concat]. by rewrite <- app_assoc.
Qed.

Lemma write_lnp_loop_fits o sm addr ft lines blk lm :
  (forall line s, line ∈ lines -> s ∈ line ->
     sm !! s = Some (addr s) /\ addr s < 2 ^ 64) ->
  ft + len blk + 4 + len (records_bytes o addr (ft + len blk + 4) lines)
    < 2 ^ 64 ->
  write_lnp_loop o sm ft lines blk lm =
  Ret (blk ++ records_bytes o addr (ft + len blk + 4) lines,
       lm ++ record_addrs (ft + len blk + 4) lines).
Proof.
  revert blk lm. induction lines as [|line lines IH]; intros blk lm Hsm Hb.
  - cbn. by rewrite !app_nil_r.
  - cbn [write_lnp_loop]. rewrite len_records_bytes_cons in Hb.
    unfold pack_Q. rewrite !pack_fits by (change (8 * N.of_nat 8) with 64; lia).
    cbn [obind].
    rewrite (write_lnp_fields_fits _ _ addr)
      by (intros; eapply Hsm; [apply elem_of_cons; left; reflexivity|assumption]).
    cbn [obind]. rewrite IH.
    + cbn [records_bytes record_addrs]. unfold record_bytes.
      rewrite !len_app, !len_int_bytes, len_field_addrs.
      replace (ft + (len blk + (N.of_nat 8 + N.of_nat 8) + 8 * len line) + 4)
        with (ft + len blk + 4 + 16 + 8 * len line) by lia.
      rewrite <- !app_assoc. reflexivity.
    + intros l s Hl Hs. apply (Hsm l s); [apply elem_of_cons; auto|assumption].
    + rewrite !len_app, !len_int_bytes, len_field_addrs.
      replace (ft + (len blk + (N.of_nat 8 + N.of_nat 8) + 8 * len line) + 4)
        with (ft + len blk + 4 + 16 + 8 * len line) by lia.
      lia.
Qed.

Lemma write_lnt_loop_fits o line_map blk :
  Forall (fun a => a < 2 ^ 64) line_map ->
  write_lnt_loop o line_map blk =
  Ret (blk ++ concat (map (int_bytes 8 o) line_map)).
Proof.
  intros H. revert blk. induction H as [|a line_map Ha _ IH]; intros blk.
  - cbn. by rewrite app_nil_r.
  - cbn [write_lnt_loop]. unfold pack_Q. rewrite pack_fits by exact Ha.
    cbn [obind]. rewrite IH. cbn [map concat]. by rewrite <- app_assoc.
Qed.

Lemma total_lines_le_fields_bound t o :
  fits t o -> len t < 2 ^ 32 /\ len (get_unique_strs t) < 2 ^ 32.
Proof.
  intros (_ & _ & Hn & Hs & _). unfold total_lines_of in Hn.
  rewrite len_strp_block in Hs.
  pose proof (len_strings_le_pool (get_unique_strs t)). lia.
Qed.

Lemma write_strp_fits f o t :
  len (strp_block o t) < 2 ^ 32 ->
  write_strp f o t =
  Ret (f ++ strp_block o t, pool_index (len f + 16) (get_unique_strs t) ∅).
Proof.
  intros Hs. rewrite len_strp_block in Hs.
  pose proof (len_strings_le_pool (get_unique_strs t)).
  unfold write_strp, pack_Q, pack_I.
  rewrite pack_fits by (change (8 * N.of_nat 8) with 64; lia).
  cbn [obind]. rewrite write_strp_loop_spec.
  rewrite !len_app, len_int_bytes. change (len magic_STRP) with 4.
  rewrite pack_fits by (change (8 * N.of_nat 4) with 32; lia).
  cbn [obind]. unfold strp_block, block, strp_payload.
  rewrite len_app, len_int_bytes, <- !app_assoc.
  replace (len f + 4 + N.of_nat 8 + 4) with (len f + 16) by lia.
  reflexivity.
Qed.

Lemma write_lnp_fits f o lines sm addr :
  (forall line s, line ∈ lines -> s ∈ line ->
     sm !! s = Some (addr s) /\ addr s < 2 ^ 64) ->
  len (records_bytes o addr (len f + 16) lines) + 16 < 2 ^ 32 ->
  len f < 2 ^ 62 -> len lines < 2 ^ 64 ->
  write_lnp f o lines sm =
  Ret (f ++ block magic_LNP o
         (int_bytes 8 o (len lines) ++ records_bytes o addr (len f + 16) lines),
       record_addrs (len f + 16) lines).
Proof.
  intros Hsm Hb Hf Hn. unfold write_lnp, pack_Q, pack_I.
  rewrite pack_fits by (change (8 * N.of_nat 8) with 64; lia).
  cbn [obind].
  assert (E : len (f ++ magic_LNP) + len (int_bytes 8 o (len lines)) + 4
              = len f + 16).
  { rewrite len_app, len_int_bytes. change (len magic_LNP) with 4. lia. }
  rewrite (write_lnp_loop_fits _ _ addr) by (try exact Hsm; rewrite E; lia).
  rewrite E. cbn [obind app].
  rewrite len_app, len_int_bytes.
  rewrite pack_fits by (change (8 * N.of_nat 4) with 32; lia).
  cbn [obind]. unfold block.
  rewrite len_app, len_int_bytes, <- !app_assoc. reflexivity.
Qed.

Lemma write_lnt_fits f o lines line_map :
  Forall (fun a => a < 2 ^ 64) line_map ->
  len lines < 2 ^ 64 -> 8 * len line_map + 16 < 2 ^ 32 ->
  write_lnt f o lines line_map =
  Ret (f ++ block magic_LNT o
         (int_bytes 8 o (len lines) ++ concat (map (int_bytes 8 o) line_map))).
Proof.
  intros Ha Hn Hb. unfold write_lnt, pack_Q, pack_I.
  rewrite pack_fits by (change (8 * N.of_nat 8) with 64; lia).
  cbn [obind]. fold pack_Q. rewrite write_lnt_loop_fits by exact Ha.
  cbn [obind]. rewrite len_app, len_int_bytes, len_lnt_entries.
  rewrite pack_fits by (change (8 * N.of_nat 4) with 32; lia).
  cbn [obind]. unfold block.
  rewrite len_app, len_int_bytes, len_lnt_entries, <- !app_assoc.
  reflexivity.
Qed.

Lemma write_csb_fits t o : fits t o -> write_csb t o = Ret (layout t o).
Proof.
  intros Hf. pose proof (total_lines_le_fields_bound t o Hf) as [Hn Hu].
  destruct Hf as (H1 & H2 & H3 & Hs & Hl & Ht).
  pose proof (len_strp_block o t) as Es.
  pose proof (len_lnp_block o t) as El.
  pose proof (len_lnt_block o t) as Et.
  unfold write_csb, write_csb_to. rewrite header_counts_spec.
  rewrite N.add_0_l, N.max_0_l. cbn [app].
  unfold pack_I. rewrite !pack_fits by assumption. cbn [obind].
  rewrite <- !app_assoc.
  change (magic_CSB ++ marker_of o ++ reserved ++ _)
    with (header_bytes o t).
  rewrite write_strp_fits by exact Hs. cbn [obind].
  rewrite len_header_bytes. change (24 + 16) with 40.
  assert (Ep : len (header_bytes o t ++ strp_block o t) = lnp_start o t)
    by (by rewrite len_app, len_header_bytes).
  rewrite (write_lnp_fits _ _ _ _ (pool_addr 40 (get_unique_strs t)));
    rewrite ?Ep; [| |lia|unfold lnp_start; lia|lia].
  2:{ intros line s Hline Hs'.
      assert (s ∈ get_unique_strs t) as Hin
        by (apply get_unique_strs_elem; eauto).
      split.
      - apply pool_index_lookup; [apply get_unique_strs_NoDup|assumption].
      - pose proof (pool_addr_bound 40 _ _ Hin). lia. }
  cbn [obind].
  assert (len (record_addrs (lnp_start o t + 16) t) = len t) as Ea
    by (unfold len; by rewrite length_record_addrs).
  rewrite write_lnt_fits; [| |lia|rewrite Ea; lia].
  2:{ eapply Forall_impl;
        [apply (record_addrs_bound o (pool_addr 40 (get_unique_strs t)))|].
      intros a Ha. cbv beta in Ha. unfold lnp_start in *. lia. }
  unfold layout, lnp_block, lnt_block, lnp_payload, lnt_payload.
  rewrite <- !app_assoc. reflexivity.
Qed.

(** [write_csb] returns exactly when the sizes fit, and then it returns the
    layout. *)
Lemma write_csb_iff t o out :
  write_csb t o = Ret out <-> fits t o /\ out = layout t o.
Proof.
  split.
  - intros H. apply write_csb_spec in H. tauto.
  - intros [Hf ->]. by apply write_csb_fits.
Qed.

(** ** The header of the layout *)

Lemma order_of_marker_of o : order_of_marker (marker_of o) = Some o.
Proof. by destruct o. Qed.

Lemma declared_header o a b c body :
  a < 2 ^ 32 -> b < 2 ^ 32 -> c < 2 ^ 32 ->
  declared (magic_CSB ++ marker_of o ++ reserved
            ++ int_bytes 4 o a ++ int_bytes 4 o b ++ int_bytes 4 o c ++ body)
  = Some (o, (a, b, c)).
Proof.
  intros Ha Hb Hc. unfold declared.
  set (tail := int_bytes 4 o a ++ int_bytes 4 o b ++ int_bytes 4 o c ++ body).
  replace (take 4 (magic_CSB ++ marker_of o ++ reserved ++ tail))
    with magic_CSB by reflexivity.
  destruct (decide (magic_CSB = magic_CSB)) as [_|?]; [|done].
  replace (take 2 (drop 4 (magic_CSB ++ marker_of o ++ reserved ++ tail)))
    with (marker_of o) by (by destruct o).
  rewrite order_of_marker_of.
  replace (drop 12 (magic_CSB ++ marker_of o ++ reserved ++ tail))
    with tail by (by destruct o).
  replace (drop 16 (magic_CSB ++ marker_of o ++ reserved ++ tail))
    with (drop 4 tail) by (by destruct o).
  replace (drop 20 (magic_CSB ++ marker_of o ++ reserved ++ tail))
    with (drop 8 tail) by (by destruct o).
  subst tail.
  rewrite (take_app_length' (int_bytes 4 o a)) by (by rewrite length_int_bytes).
  rewrite (drop_app_length' (int_bytes 4 o a)) by (by rewrite length_int_bytes).
  rewrite (take_app_length' (int_bytes 4 o b)) by (by rewrite length_int_bytes).
  rewrite (app_assoc (int_bytes 4 o a)).
  rewrite (drop_app_length' (int_bytes 4 o a ++ int_bytes 4 o b))
    by (by rewrite length_app, !length_int_bytes).
  rewrite (take_app_length' (int_bytes 4 o c)) by (by rewrite length_int_bytes).
  unfold unpack_I. rewrite !unpack_int_bytes by assumption. reflexivity.
Qed.

Lemma unread_header o a b c body :
  unread (magic_CSB ++ marker_of o ++ reserved
          ++ int_bytes 4 o a ++ int_bytes 4 o b ++ int_bytes 4 o c ++ body) 24
  = body.
Proof.
  set (pre := magic_CSB ++ marker_of o ++ reserved
              ++ int_bytes 4 o a ++ int_bytes 4 o b ++ int_bytes 4 o c).
  assert (len pre = 24) as <-.
  { subst pre. rewrite !len_app, !len_int_bytes. by destruct o. }
  apply unread_at. subst pre. by rewrite <- !app_assoc.
Qed.

Lemma declared_layout t o :
  fits t o ->
  declared (layout t o) =
  Some (o, (total_fields_of t, max_columns_of t, total_lines_of t)).
Proof.
  intros (H1 & H2 & H3 & _). unfold layout, header_bytes.
  rewrite <- !app_assoc. by apply declared_header.
Qed.

Lemma unread_layout t o :
  unread (layout t o) 24 =
  strp_block o t ++ lnp_block o t ++ lnt_block o t ++ [].
Proof.
  unfold layout, header_bytes. rewrite <- !app_assoc, unread_header.
  by rewrite app_nil_r.
Qed.

(** ** Round trip *)

Lemma len_lossy_table t : total_lines_of (lossy_table t) = total_lines_of t.
Proof. unfold total_lines_of, lossy_table, len. by rewrite length_map. Qed.

Lemma total_fields_lossy_table t :
  total_fields_of (lossy_table t) = total_fields_of t.
Proof.
  unfold total_fields_of, lossy_table.
  induction t as [|l t IH]; [done|]. cbn [map foldr]. rewrite IH.
  unfold len. by rewrite length_map.
Qed.

Lemma max_columns_lossy_table t :
  max_columns_of (lossy_table t) = max_columns_of t.
Proof.
  unfold max_columns_of, lossy_table.
  induction t as [|l t IH]; [done|]. cbn [map foldr]. rewrite IH.
  unfold len. by rewrite length_map.
Qed.

Lemma lossy_table_text t : table_is_text t -> lossy_table t = t.
Proof.
  unfold lossy_table. induction 1 as [|l t Hl _ IH]; [done|].
  cbn [map]. rewrite IH. f_equal.
  induction Hl as [|s l Hs _ IHl]; [done|].
  cbn [map]. by rewrite IHl, is_text_lossy.
Qed.

Lemma table_is_text_no_nul t : table_is_text t -> table_no_nul t.
Proof.
  intros H. eapply Forall_impl; [exact H|]. intros l Hl.
  eapply Forall_impl; [exact Hl|]. apply is_text_no_nul.
Qed.

Lemma read_layout t o :
  table_no_nul t -> fits t o ->
  read_csb (layout t o) true = Ret (Some (lossy_table t), SUCCESS).
Proof.
  intros Ht Hf.
  rewrite (read_csb_validated _ _ _ _ _ (lossy_table t) (declared_layout t o Hf)).
  - rewrite validate_spec, len_lossy_table, total_fields_lossy_table,
      max_columns_lossy_table.
    repeat case_decide; congruence.
  - exact (read_blocks_at _ _ _ _ (unread_layout t o) Ht Hf).
Qed.

(** C1, as the code has it: a table none of whose fields contains U+0000
    and whose sizes fit the fixed-width fields of the format is encoded, in
    either byte order, to a stream that decodes with validation to the same
    rows in the same order, every field having gone through the UTF-8
    encoder and decoder with invalid code points ignored; a table of text
    comes back unchanged. *)
Theorem round_trip t o :
  table_no_nul t -> fits t o ->
  exists out,
    write_csb t o = Ret out /\
    read_csb out true = Ret (Some (lossy_table t), SUCCESS) /\
    (table_is_text t -> read_csb out true = Ret (Some t, SUCCESS)).
Proof.
  intros Ht Hf. exists (layout t o). split_and!.
  - by apply write_csb_fits.
  - by apply read_layout.
  - intros Htext. rewrite read_layout by assumption.
    by rewrite lossy_table_text.
Qed.

(** C1, as stated, fails on a table with U+0000 in a field: the encodings
    are produced, but one does not decode and the other decodes to
    different rows. *)
Lemma round_trip_counterexample :
  (exists out, write_csb table_nul LittleEndian = Ret out /\
               read_csb out true = Raise KeyError) /\
  (exists out, write_csb table_nul_single LittleEndian = Ret out /\
               read_csb out true = Ret (Some [[[97]]], SUCCESS) /\
               [[[97]]] <> table_nul_single).
Proof.
  split.
  - eexists. split; [vm_compute; reflexivity|]. vm_compute. reflexivity.
  - eexists. split; [vm_compute; reflexivity|].
    split; [vm_compute; reflexivity|discriminate].
Qed.

Lemma table_ab_is_text : table_is_text table_ab.
Proof.
  unfold table_is_text, table_ab, is_text, is_scalar.
  repeat (constructor; try (split; lia)).
Qed.

Lemma table_ab_fits o : fits table_ab o.
Proof. destruct o; vm_compute; repeat split; reflexivity. Qed.

Lemma round_trip_witness :
  exists out,
    write_csb table_ab BigEndian = Ret out /\
    read_csb out true = Ret (Some table_ab, SUCCESS).
Proof.
  destruct (round_trip table_ab BigEndian) as (out & Hw & _ & Hr).
  - apply table_is_text_no_nul, table_ab_is_text.
  - vm_compute. repeat split; reflexivity.
  - exists out. split; [exact Hw|]. apply Hr, table_ab_is_text.
Defined.

(** ** Header counts *)

(** C7: the three counts in the header of an encoding are the sum of the
    row lengths, the largest row length (0 for the empty table) and the
    number of rows, and the encoder writes them at offsets 12, 16 and 20,
    where the decoder reads them. *)
Theorem header_counts_written t o out :
  write_csb t o = Ret out ->
  take 24 out =
    magic_CSB ++ marker_of o ++ reserved
    ++ int_bytes 4 o (total_fields_of t)
    ++ int_bytes 4 o (max_columns_of t)
    ++ int_bytes 4 o (total_lines_of t) /\
  declared out =
    Some (o, (total_fields_of t, max_columns_of t, total_lines_of t)) /\
  max_columns_of [] = 0.
Proof.
  intros [-> Hf]%write_csb_spec. split_and!.
  - unfold layout. rewrite take_app_length'; [reflexivity|].
    pose proof (len_header_bytes o t) as H. unfold len in H. lia.
  - by apply declared_layout.
  - reflexivity.
Qed.

Lemma header_counts_written_witness :
  declared (encoding table_ab LittleEndian) = Some (LittleEndian, (3, 2, 2)).
Proof.
  refine (proj1 (proj2 (header_counts_written table_ab LittleEndian
                          (encoding table_ab LittleEndian) _))).
  vm_compute. reflexivity.
Defined.

(** ** The string pool *)

Lemma first_index_app_l s l r :
  s ∈ l -> (first_index s (l ++ r) < length l)%nat.
Proof.
  induction l as [|x l IH]; intros H; [by apply elem_of_nil in H|].
  cbn [app first_index length]. case_decide; [lia|].
  apply elem_of_cons in H as [->|H]; [done|]. specialize (IH H). lia.
Qed.

Lemma first_index_app_r s l r :
  s ∉ l -> first_index s (l ++ s :: r) = length l.
Proof.
  induction l as [|x l IH]; intros H; cbn [app first_index length].
  - by case_decide.
  - apply not_elem_of_cons in H as [Hx H]. case_decide; [congruence|].
    by rewrite IH.
Qed.

Lemma dict_fromkeys_order seen strs keys :
  (forall s, s ∈ keys <-> s ∈ seen) ->
  by_first_occurrence (seen ++ strs) keys ->
  by_first_occurrence (seen ++ strs) (dict_fromkeys strs keys).
Proof.
  revert seen keys. induction strs as [|x strs IH]; intros seen keys Hk Ho.
  - exact Ho.
  - cbn [dict_fromkeys].
    replace (seen ++ x :: strs) with ((seen ++ [x]) ++ strs) in *
      by (by rewrite <- app_assoc).
    case_decide as Hx.
    + apply IH; [|exact Ho].
      intros s. rewrite elem_of_app, list_elem_of_singleton, <- Hk.
      split; [tauto|]. intros [?| ->]; assumption.
    + apply IH.
      { intros s. rewrite !elem_of_app, Hk. tauto. }
      intros i j si sj Hi Hj Hij.
      destruct (decide (j < length keys)%nat) as [Hlt|Hge].
      * rewrite lookup_app_l in Hi by lia. rewrite lookup_app_l in Hj by lia.
        by apply (Ho i j).
      * assert (j = length keys) as ->.
        { apply lookup_lt_Some in Hj. rewrite length_app in Hj. simpl in Hj. lia. }
        rewrite lookup_app_l in Hi by lia.
        rewrite lookup_app_r, Nat.sub_diag in Hj by lia.
        injection Hj as <-.
        assert (si ∈ seen) as Hsi by (apply Hk; eapply list_elem_of_lookup_2; eauto).
        assert (x ∉ seen) as Hxd by (by rewrite <- Hk).
        rewrite <- !app_assoc. cbn [app].
        rewrite first_index_app_r by exact Hxd.
        by apply first_index_app_l.
Qed.

Lemma get_unique_strs_order t :
  by_first_occurrence (concat t) (get_unique_strs t).
Proof.
  unfold get_unique_strs.
  apply (dict_fromkeys_order [] (concat t) []); [done|].
  intros i j si sj Hi. by rewrite lookup_nil in Hi.
Qed.

(** ** The entries that the pool stores *)

Lemma c_string_inj_text s1 s2 :
  is_text s1 -> is_text s2 -> c_string s1 = c_string s2 -> s1 = s2.
Proof.
  intros H1 H2 E. unfold c_string in E. apply app_inj_tail in E as [E _].
  rewrite <- (is_text_lossy s1 H1), <- (is_text_lossy s2 H2).
  unfold lossy. by rewrite E.
Qed.

Lemma NoDup_map_c_string strings :
  Forall is_text strings -> NoDup strings -> NoDup (map c_string strings).
Proof.
  intros Ht Hn. induction Hn as [|s strings Hs Hn IH]; [constructor|].
  apply Forall_cons in Ht as [Ht1 Ht]. cbn [map]. constructor; [|by apply IH].
  intros Hin. apply Hs. apply list_elem_of_In, in_map_iff in Hin
    as (s' & E & Hs'). apply list_elem_of_In in Hs'.
  assert (s' = s) as <-; [|done].
  apply c_string_inj_text; [|done|done].
  by apply (proj1 (Forall_forall _ _) Ht).
Qed.

Lemma pool_map_at base strings m i s :
  strings !! i = Some s ->
  pool_map base strings m !! (base + len (pool_bytes (take i strings)))
    = Some (lossy s).
Proof.
  revert base m i. induction strings as [|x strings IH]; intros base m i H.
  - by rewrite lookup_nil in H.
  - cbn [pool_map]. destruct i as [|i].
    + injection H as ->. cbn [take]. change (len (pool_bytes [])) with 0.
      rewrite N.add_0_r.
      rewrite pool_map_below by (rewrite len_c_string; lia).
      apply lookup_insert_eq.
    + cbn [take]. rewrite len_pool_bytes_cons, N.add_assoc. by apply IH.
Qed.

Lemma pool_map_inv base strings m a v :
  pool_map base strings m !! a = Some v ->
  m !! a = Some v \/
  exists i s, strings !! i = Some s /\
    a = base + len (pool_bytes (take i strings)) /\ v = lossy s.
Proof.
  revert base m. induction strings as [|x strings IH]; intros base m H.
  - by left.
  - cbn [pool_map] in H. apply IH in H as [H|(i & s & Hi & -> & ->)].
    + destruct (decide (a = base)) as [->|Hne].
      * rewrite lookup_insert_eq in H. injection H as <-.
        right. exists 0%nat, x. split; [done|]. cbn [take].
        change (len (pool_bytes [])) with 0. split; [lia|done].
      * rewrite lookup_insert_ne in H by done. by left.
    + right. exists (S i), s. split; [done|]. cbn [take].
      rewrite len_pool_bytes_cons. split; [lia|done].
Qed.

Lemma len_pool_take_lt strings i j s :
  strings !! i = Some s -> (i < j)%nat ->
  len (pool_bytes (take i strings)) < len (pool_bytes (take j strings)).
Proof.
  revert i j. induction strings as [|x strings IH]; intros i j Hi Hij.
  - by rewrite lookup_nil in Hi.
  - destruct j as [|j]; [lia|]. cbn [take]. rewrite len_pool_bytes_cons.
    destruct i as [|i].
    + cbn [take]. change (len (pool_bytes [])) with 0. rewrite len_c_string. lia.
    + cbn [take]. rewrite len_pool_bytes_cons.
      assert (len (pool_bytes (take i strings))
              < len (pool_bytes (take j strings))); [|lia].
      apply IH; [done|lia].
Qed.

Lemma pool_entry_index strings i j si sj :
  strings !! i = Some si -> strings !! j = Some sj ->
  len (pool_bytes (take i strings)) < len (pool_bytes (take j strings)) ->
  (i < j)%nat.
Proof.
  intros Hi Hj Hlt. destruct (decide (i < j)%nat) as [|Hge]; [done|].
  destruct (decide (i = j)) as [->|Hne]; [lia|].
  pose proof (len_pool_take_lt strings j i sj Hj). lia.
Qed.

Lemma pool_map_size base strings m :
  (forall a, is_Some (m !! a) -> a < base) ->
  size (pool_map base strings m) = (size m + length strings)%nat.
Proof.
  revert base m. induction strings as [|x strings IH]; intros base m Hm.
  - cbn. lia.
  - cbn [pool_map length]. rewrite IH.
    + rewrite map_size_insert_None; [lia|].
      destruct (m !! base) eqn:E; [|done].
      assert (base < base) by (apply Hm; by rewrite E). lia.
    + intros a Ha. rewrite len_c_string.
      destruct (decide (a = base)) as [->|Hne]; [lia|].
      rewrite lookup_insert_ne in Ha by done. apply Hm in Ha. lia.
Qed.

Lemma get_unique_strs_text t :
  table_is_text t -> Forall is_text (get_unique_strs t).
Proof.
  intros Ht. apply Forall_forall. intros s Hs.
  apply get_unique_strs_elem in Hs as (line & Hl & Hs).
  apply (proj1 (Forall_forall _ _) (proj1 (Forall_forall _ _) Ht line Hl) s Hs).
Qed.

(** C5: the pool that [write_strp] emits holds, after its count, the C
    strings of a list [strings] in which every field value of the table
    occurs, each exactly once, in the order of first occurrence in the
    table read row by row, left to right.  When the fields are text
    (Unicode scalar values, none of them U+0000), the entries stored are as
    many and as distinct as these strings: no two of the C strings written
    are equal, and [read_strp] reads from the block a pool in which every
    field value of the table stands at exactly one address, with the
    addresses growing in the order of first occurrence. *)
Theorem string_pool_unique f o t f' str_map :
  write_strp f o t = Ret (f', str_map) ->
  exists strings,
    f' = f ++ magic_STRP ++ int_bytes 4 o (len (pool_bytes strings) + 16)
           ++ int_bytes 8 o (len strings) ++ concat (map c_string strings) /\
    NoDup strings /\
    (forall s, s ∈ strings <-> s ∈ concat t) /\
    by_first_occurrence (concat t) strings /\
    (table_is_text t -> len f < 2 ^ 62 ->
     NoDup (map c_string strings) /\
     exists pool : gmap N pystr,
       read_strp f' o (len f) = Ret ((Some pool, SUCCESS), len f') /\
       size pool = length strings /\
       (forall s, (exists a, pool !! a = Some s) <-> s ∈ concat t) /\
       (forall a1 a2 s,
          pool !! a1 = Some s -> pool !! a2 = Some s -> a1 = a2) /\
       (forall a1 a2 s1 s2,
          pool !! a1 = Some s1 -> pool !! a2 = Some s2 -> a1 < a2 ->
          (first_index s1 (concat t) < first_index s2 (concat t))%nat)).
Proof.
  intros (-> & _ & Hlen)%write_strp_spec.
  set (strings := get_unique_strs t).
  assert (forall s, s ∈ strings <-> s ∈ concat t) as Hel.
  { intros s. unfold strings. rewrite get_unique_strs_elem, elem_of_concat.
    tauto. }
  exists strings. split_and!.
  - unfold strp_block, block, strp_payload.
    rewrite len_app, len_int_bytes.
    replace (N.of_nat 8 + len (pool_bytes (get_unique_strs t)) + 8)
      with (len (pool_bytes (get_unique_strs t)) + 16) by lia.
    reflexivity.
  - apply get_unique_strs_NoDup.
  - exact Hel.
  - apply get_unique_strs_order.
  - intros Ht Hf.
    pose proof (get_unique_strs_text t Ht) as Htext. fold strings in Htext.
    pose proof (get_unique_strs_NoDup t) as Hnd. fold strings in Hnd.
    assert (forall s, s ∈ strings -> lossy s = s) as Hlossy.
    { intros s Hs. apply is_text_lossy.
      by apply (proj1 (Forall_forall _ _) Htext). }
    assert (forall a v, pool_map (len f + 16) strings ∅ !! a = Some v ->
              exists i, strings !! i = Some v /\
                a = len f + 16 + len (pool_bytes (take i strings))) as Hinv.
    { intros a v [H|(i & s & Hi & -> & ->)]%pool_map_inv.
      - by rewrite lookup_empty in H.
      - exists i. rewrite Hlossy by (eapply list_elem_of_lookup_2; eauto).
        by split. }
    split; [by apply NoDup_map_c_string|].
    exists (pool_map (len f + 16) strings ∅).
    rewrite len_strp_block in Hlen. fold strings in Hlen.
    split_and!.
    + rewrite (read_strp_at _ o (len f) strings []).
      * do 2 f_equal. rewrite len_app, len_strp_block. fold strings. lia.
      * rewrite app_nil_r. by apply unread_at.
      * eapply Forall_impl; [exact Htext|]. apply is_text_no_nul.
      * exact Hlen.
      * exact Hf.
    + rewrite pool_map_size; [by rewrite map_size_empty|].
      intros a [v Ha]. by rewrite lookup_empty in Ha.
    + intros s. rewrite <- Hel. split.
      * intros [a (i & Hi & _)%Hinv]. eapply list_elem_of_lookup_2; eauto.
      * intros Hs. destruct (proj1 (list_elem_of_lookup _ _) Hs) as [i Hi].
        eexists. rewrite (pool_map_at _ _ _ i s Hi). by rewrite Hlossy.
    + intros a1 a2 s (i & Hi & ->)%Hinv (j & Hj & ->)%Hinv.
      by rewrite (NoDup_lookup _ _ _ _ Hnd Hi Hj).
    + intros a1 a2 s1 s2 (i & Hi & ->)%Hinv (j & Hj & ->)%Hinv Hlt.
      apply (get_unique_strs_order t i j); [done|done|].
      apply (pool_entry_index strings i j s1 s2); [done|done|lia].
Qed.

Lemma string_pool_unique_witness :
  exists strings,
    NoDup strings /\
    (forall s, s ∈ strings <-> s ∈ concat table_ba) /\
    by_first_occurrence (concat table_ba) strings /\
    NoDup (map c_string strings) /\
    exists pool : gmap N pystr,
      read_strp (header_bytes LittleEndian table_ba
                 ++ strp_block LittleEndian table_ba) LittleEndian 24
        = Ret ((Some pool, SUCCESS), 46) /\
      size pool = length strings /\
      (forall s, (exists a, pool !! a = Some s) <-> s ∈ concat table_ba) /\
      (forall a1 a2 s,
         pool !! a1 = Some s -> pool !! a2 = Some s -> a1 = a2) /\
      (forall a1 a2 s1 s2,
         pool !! a1 = Some s1 -> pool !! a2 = Some s2 -> a1 < a2 ->
         (first_index s1 (concat table_ba)
          < first_index s2 (concat table_ba))%nat).
Proof.
  destruct (string_pool_unique (header_bytes LittleEndian table_ba)
              LittleEndian table_ba
              (header_bytes LittleEndian table_ba
               ++ strp_block LittleEndian table_ba)
              (pool_index 40 (get_unique_strs table_ba) ∅))
    as (strings & _ & H1 & H2 & H3 & H4).
  - vm_compute. reflexivity.
  - exists strings. split; [exact H1|]. split; [exact H2|].
    split; [exact H3|]. apply H4.
    + unfold table_is_text, table_ba, is_text, is_scalar.
      repeat (constructor; try (split; lia)).
    + vm_compute. reflexivity.
Defined.

(** C5, as stated for every table, fails: the strings that differ by a lone
    surrogate only are two entries of the list and one value in the pool,
    stored twice; and a field with U+0000 inside is stored as a C string
    that ends at the U+0000, the rest of it lying in the pool as a value of
    its own. *)
Lemma string_pool_unique_counterexample :
  get_unique_strs table_lone_surrogate = [[97; 0xD800]; [97]] /\
  write_strp (header_bytes LittleEndian table_lone_surrogate) LittleEndian
    table_lone_surrogate
    = Ret (take 44 (encoding table_lone_surrogate LittleEndian),
           {[ [97; 0xD800] := 40; [97] := 42 ]}) /\
  drop 40 (take 44 (encoding table_lone_surrogate LittleEndian))
    = [x61; x00; x61; x00] /\
  read_strp (encoding table_lone_surrogate LittleEndian) LittleEndian 24
    = Ret ((Some {[ 40 := [97]; 42 := [97] ]}, SUCCESS), 44) /\
  ~ NoDup (map c_string (get_unique_strs table_lone_surrogate)) /\
  get_unique_strs table_nul = [[97; 0; 98]; [98]] /\
  drop 40 (take 46 (encoding table_nul LittleEndian))
    = [x61; x00; x62; x00; x62; x00] /\
  read_strp (encoding table_nul LittleEndian) LittleEndian 24
    = Ret ((Some {[ 40 := [97]; 42 := [98] ]}, SUCCESS), 46).
Proof.
  split; [reflexivity|]. split; [vm_compute; reflexivity|].
  split; [vm_compute; reflexivity|]. split; [vm_compute; reflexivity|].
  split.
  { intros H. apply NoDup_cons in H as [H _]. apply H. left. }
  split; [reflexivity|]. split; vm_compute; reflexivity.
Qed.

(** The pool of [table_ba] is [b], [a], [c]: the order of first occurrence,
    not the sorted order, and one copy of each. *)
Example string_pool_table_ba :
  get_unique_strs table_ba = [[98]; [97]; [99]].
Proof. reflexivity. Qed.

(** ** The block readers depend on their block only *)

Lemma nuls_app B C : nuls (B ++ C) = (nuls B + nuls C)%nat.
Proof. unfold nuls. by rewrite filter_app, length_app. Qed.

Lemma nuls_pool strings : (length strings <= nuls (pool_bytes strings))%nat.
Proof.
  induction strings as [|s strings IH]; [simpl; lia|].
  unfold pool_bytes in *. cbn [map concat length]. rewrite nuls_app.
  assert (1 <= nuls (c_string s))%nat.
  { unfold c_string. rewrite nuls_app. change (nuls [x00]) with 1%nat. lia. }
  lia.
Qed.

Lemma nuls_none bs : x00 ∉ bs -> nuls bs = 0%nat.
Proof.
  unfold nuls. induction bs as [|b bs IH]; intros H; [done|].
  apply not_elem_of_cons in H as [Hb H].
  rewrite filter_cons_False by congruence. by apply IH.
Qed.

Lemma nuls_pos_split B :
  (0 < nuls B)%nat ->
  exists bs B', B = bs ++ x00 :: B' /\ (x00 ∉ bs) /\ nuls B = S (nuls B').
Proof.
  intros H. assert (x00 ∈ B) as Hin.
  { unfold nuls in H. destruct (filter (fun b => b = x00) B) as [|b l] eqn:E;
      [simpl in H; lia|].
    assert (b ∈ filter (fun b => b = x00) B) as Hb
      by (rewrite E; apply elem_of_cons; auto).
    apply list_elem_of_filter in Hb as [-> Hb]. exact Hb. }
  apply list_elem_of_split_l in Hin as (bs & B' & -> & Hbs).
  exists bs, B'. split_and!; [done|done|].
  rewrite nuls_app. cbn [app].
  rewrite (nuls_none bs Hbs). unfold nuls. by rewrite filter_cons_True.
Qed.

Lemma read_strp_loop_frame data data' k :
  forall B m p rest rest',
    unread data p = B ++ rest -> unread data' p = B ++ rest' ->
    (k <= nuls B)%nat ->
    exists m' q,
      read_strp_loop data k m p = Ret (m', q) /\
      read_strp_loop data' k m p = Ret (m', q) /\
      q <= p + len B.
Proof.
  induction k as [|k IH]; intros B m p rest rest' H H' Hk.
  - exists m, p. cbn. unfold io_ret. split_and!; [done|done|lia].
  - destruct (nuls_pos_split B) as (bs & B' & -> & Hbs & Hn); [lia|].
    rewrite <- app_assoc in H, H'. cbn [app] in H, H'.
    cbn [read_strp_loop]. rewrite !bind_tell. unfold io_bind, read_c_string.
    rewrite H, H', !c_string_bytes_app by exact Hbs. cbn [obind].
    apply unread_advance in H, H'.
    apply (unread_advance _ _ [x00]) in H, H'.
    change (len [x00]) with 1 in H, H'.
    destruct (IH B' (<[p := utf8_decode bs]> m) (p + len bs + 1) rest rest'
                H H') as (m' & q & E & E' & Hq); [lia|].
    exists m', q. rewrite E, E'. split_and!; [done|done|].
    rewrite len_app, len_cons. lia.
Qed.

Lemma read_strp_frame data data' o t rest rest' :
  unread data 24 = strp_block o t ++ rest ->
  unread data' 24 = strp_block o t ++ rest' ->
  len (strp_block o t) < 2 ^ 32 ->
  exists sm,
    read_strp data o 24 = Ret ((Some sm, SUCCESS), lnp_start o t) /\
    read_strp data' o 24 = Ret ((Some sm, SUCCESS), lnp_start o t).
Proof.
  intros H H' Hb. pose proof (len_strp_block o t) as El.
  pose proof (len_strings_le_pool (get_unique_strs t)) as Hle.
  unfold strp_block, block, strp_payload in H, H'.
  rewrite <- !app_assoc in H, H'.
  unfold read_strp. rewrite !bind_tell.
  read_next H. read_next H'.
  destruct (decide (magic_STRP <> magic_STRP)) as [?|_]; [done|].
  read_next H. read_next H'. unfold unpack_I.
  rewrite unpack_int_bytes
    by (rewrite len_app, len_int_bytes; change (8 * N.of_nat 4) with 32; lia).
  rewrite !bind_lift. cbv beta zeta.
  read_next H. read_next H'. unfold unpack_Q.
  rewrite unpack_int_bytes by (change (8 * N.of_nat 8) with 64; lia).
  rewrite !bind_lift. cbv beta. rewrite to_nat_len.
  destruct (read_strp_loop_frame data data' (length (get_unique_strs t))
              _ ∅ _ _ _ H H' (nuls_pool _)) as (sm & q & E & E' & Hq).
  exists sm. unfold io_bind at 1 3. rewrite E, E'.
  rewrite len_app, !len_int_bytes. change (len magic_STRP) with 4.
  rewrite !bind_seek by lia. unfold io_ret, lnp_start.
  split; do 2 f_equal; lia.
Qed.

Lemma read_lnp_fields_frame data data' o sm n :
  forall acc p X rest rest',
    unread data p = X ++ rest -> unread data' p = X ++ rest' ->
    length X = (8 * n)%nat ->
    read_lnp_fields data o sm n acc p = read_lnp_fields data' o sm n acc p /\
    (forall l q, read_lnp_fields data o sm n acc p = Ret (l, q) ->
                 q = p + 8 * N.of_nat n).
Proof.
  induction n as [|n IH]; intros acc p X rest rest' H H' Hl.
  - cbn. unfold io_ret. split; [done|]. intros l q [= _ <-]. lia.
  - assert (X = take 8 X ++ drop 8 X) as EX by (by rewrite take_drop).
    assert (length (take 8 X) = 8%nat) as L8 by (rewrite length_take; lia).
    rewrite EX, <- app_assoc in H, H'.
    cbn [read_lnp_fields].
    rewrite (bind_read _ _ _ _ _ _ H L8), (bind_read _ _ _ _ _ _ H' L8).
    apply unread_advance in H, H'.
    unfold io_bind at 1 3, io_lift.
    destruct (unpack_Q o (take 8 X)) as [a|]; [|split; [done|discriminate]].
    unfold io_bind at 1 3.
    destruct (getitem sm a) as [s|]; [|split; [done|discriminate]].
    destruct (IH (acc ++ [s]) (p + len (take 8 X)) (drop 8 X) rest rest' H H')
      as [E Hq]; [rewrite length_drop; lia|].
    split; [exact E|]. intros l q Hr. apply Hq in Hr.
    unfold len in Hr. rewrite L8 in Hr. lia.
Qed.

Lemma read_lnp_loop_frame data data' o sm addr lines :
  forall m p rest rest',
    unread data p = records_bytes o addr p lines ++ rest ->
    unread data' p = records_bytes o addr p lines ++ rest' ->
    p + len (records_bytes o addr p lines) < 2 ^ 63 ->
    read_lnp_loop data o sm (length lines) m p
      = read_lnp_loop data' o sm (length lines) m p /\
    (forall m' q, read_lnp_loop data o sm (length lines) m p = Ret (m', q) ->
                  q = p + len (records_bytes o addr p lines)).
Proof.
  induction lines as [|line lines IH]; intros m p rest rest' H H' Hb.
  - cbn. unfold io_ret. split; [done|]. intros m' q [= _ <-].
    change (len []) with 0. lia.
  - cbn [length read_lnp_loop]. rewrite len_records_bytes_cons in *.
    cbn [records_bytes] in H, H'. unfold record_bytes in H, H'.
    rewrite <- !app_assoc in H, H'.
    rewrite !bind_tell. read_next H. read_next H'. unfold unpack_Q.
    rewrite unpack_int_bytes by (change (8 * N.of_nat 8) with 64; lia).
    rewrite !bind_lift. cbv beta. read_next H. read_next H'.
    rewrite unpack_int_bytes by (change (8 * N.of_nat 8) with 64; lia).
    rewrite !bind_lift. cbv beta. rewrite !bind_seek by lia.
    rewrite !len_int_bytes in H, H'.
    replace (p + N.of_nat 8 + N.of_nat 8) with (p + 16) in H, H' by lia.
    rewrite to_nat_len.
    destruct (read_lnp_fields_frame data data' o sm (length line) [] (p + 16)
                _ _ _ H H') as [E Hq].
    { pose proof (len_field_addrs o addr line) as L. unfold len in L. lia. }
    unfold io_bind. rewrite <- E.
    destruct (read_lnp_fields data o sm (length line) [] (p + 16))
      as [[l q]|] eqn:Ef; [|split; [done|discriminate]].
    specialize (Hq l q eq_refl). subst q.
    apply unread_advance in H, H'. rewrite len_field_addrs in H, H'.
    fold (len line).
    destruct (IH (<[p := l]> m) (p + 16 + 8 * len line) rest rest' H H')
      as [E2 Hq2]; [lia|].
    split; [exact E2|]. intros m' q Hr. apply Hq2 in Hr. lia.
Qed.

Lemma read_lnp_frame data data' o sm t rest rest' :
  unread data (lnp_start o t) = lnp_block o t ++ rest ->
  unread data' (lnp_start o t) = lnp_block o t ++ rest' ->
  fits t o ->
  read_lnp data o sm (lnp_start o t) = read_lnp data' o sm (lnp_start o t) /\
  (forall r q, read_lnp data o sm (lnp_start o t) = Ret (r, q) ->
               q = lnt_start o t).
Proof.
  intros H H' (_ & _ & Hn & Hs & Hl & _).
  unfold total_lines_of in Hn.
  pose proof (len_strp_block o t) as Es.
  pose proof (len_lnp_block o t) as El.
  assert (lnp_start o t < 2 ^ 33) as Hp by (unfold lnp_start; lia).
  unfold lnp_block, block, lnp_payload in H, H'.
  rewrite <- !app_assoc in H, H'.
  unfold read_lnp. rewrite !bind_tell.
  read_next H. read_next H'.
  destruct (decide (magic_LNP <> magic_LNP)) as [?|_]; [done|].
  read_next H. read_next H'. unfold unpack_I.
  rewrite unpack_int_bytes
    by (rewrite len_app, len_int_bytes; change (8 * N.of_nat 4) with 32; lia).
  rewrite !bind_lift. cbv beta zeta.
  read_next H. read_next H'. unfold unpack_Q.
  rewrite unpack_int_bytes by (change (8 * N.of_nat 8) with 64; lia).
  rewrite !bind_lift. cbv beta. rewrite to_nat_len.
  rewrite !len_int_bytes in *. change (len magic_LNP) with 4 in *.
  replace (lnp_start o t + 4 + N.of_nat 4 + N.of_nat 8)
    with (lnp_start o t + 16) in * by lia.
  destruct (read_lnp_loop_frame data data' o sm _ t ∅ _ _ _ H H') as [E Hq];
    [lia|].
  unfold io_bind. rewrite <- E.
  destruct (read_lnp_loop data o sm (length t) ∅ (lnp_start o t + 16))
    as [[lm q]|]; [|split; [done|discriminate]].
  rewrite len_app, len_int_bytes. rewrite !f_seek_ok by lia.
  unfold io_ret. split; [done|]. intros r q' [= _ <-].
  unfold lnt_start. lia.
Qed.

Lemma read_lnt_loop_end data o lm addrs :
  forall acc p rest L q,
    unread data p = concat (map (int_bytes 8 o) addrs) ++ rest ->
    read_lnt_loop data o lm (length addrs) acc p = Ret (L, q) ->
    q = p + 8 * len addrs.
Proof.
  induction addrs as [|a addrs IH]; intros acc p rest L q H.
  - cbn. unfold io_ret. intros [= _ <-]. change (len []) with 0. lia.
  - cbn [length read_lnt_loop]. cbn [map concat] in H.
    rewrite <- app_assoc in H. read_next H.
    unfold io_bind, io_lift.
    destruct (unpack_Q o (int_bytes 8 o a)) as [a'|]; [|discriminate].
    destruct (getitem lm a') as [l|]; [|discriminate].
    intros Hr. apply (IH _ _ _ _ _ H) in Hr.
    rewrite len_int_bytes in Hr. rewrite len_cons. lia.
Qed.

Lemma read_lnt_end data o lm t rest :
  unread data (lnt_start o t) = lnt_block o t ++ rest ->
  fits t o ->
  forall r q,
    read_lnt data o lm (lnt_start o t) = Ret (r, q) ->
    q = lnt_start o t + len (lnt_block o t).
Proof.
  intros H (_ & _ & Hn & Hs & Hl & Ht) r q.
  unfold total_lines_of in Hn.
  pose proof (len_strp_block o t) as Es.
  pose proof (len_lnp_block o t) as El.
  pose proof (len_lnt_block o t) as Et.
  assert (lnt_start o t < 2 ^ 34) as Hp by (unfold lnt_start, lnp_start; lia).
  assert (len (record_addrs (lnp_start o t + 16) t) = len t) as Ea
    by (unfold len; by rewrite length_record_addrs).
  unfold lnt_block, block, lnt_payload in H. rewrite <- !app_assoc in H.
  unfold read_lnt. rewrite bind_tell. read_next H.
  destruct (decide (magic_LNT <> magic_LNT)) as [?|_]; [done|].
  read_next H. unfold unpack_I.
  rewrite unpack_int_bytes
    by (rewrite len_app, len_int_bytes, len_lnt_entries, Ea;
        change (8 * N.of_nat 4) with 32; lia).
  rewrite bind_lift. cbv beta zeta. read_next H. unfold unpack_Q.
  rewrite unpack_int_bytes by (change (8 * N.of_nat 8) with 64; lia).
  rewrite bind_lift. cbv beta. rewrite to_nat_len.
  rewrite <- (length_record_addrs (lnp_start o t + 16) t).
  unfold io_bind.
  destruct (read_lnt_loop data o lm _ [] _) as [[L q']|] eqn:E; [|discriminate].
  rewrite len_app, !len_int_bytes, len_lnt_entries, Ea.
  rewrite f_seek_ok by lia. unfold io_ret. intros [= _ <-]. lia.
Qed.

(** ** Block lengths *)

Lemma unread_lnp_start t o :
  unread (layout t o) (lnp_start o t) = lnp_block o t ++ lnt_block o t ++ [].
Proof.
  pose proof (unread_layout t o) as H. apply unread_advance in H. exact H.
Qed.

Lemma unread_lnt_start t o :
  unread (layout t o) (lnt_start o t) = lnt_block o t ++ [].
Proof.
  pose proof (unread_lnp_start t o) as H. apply unread_advance in H. exact H.
Qed.

Lemma len_layout t o :
  len (layout t o) = lnt_start o t + len (lnt_block o t).
Proof.
  unfold layout, lnt_start, lnp_start.
  rewrite !len_app, len_header_bytes. lia.
Qed.

(** The 4-byte length that a block reader finds behind the magic at
    [start], as [struct.unpack] returns it. *)
Lemma declared_length_at data o start magic payload rest :
  length magic = 4%nat ->
  unread data start = block magic o payload ++ rest ->
  len (block magic o payload) < 2 ^ 32 ->
  unpack_I o (take 4 (unread data (start + 4))) = Ret (len (block magic o payload)).
Proof.
  intros Hm H Hb. unfold block in H. rewrite <- !app_assoc in H.
  apply unread_advance in H. unfold len at 1 in H. rewrite Hm in H.
  change (N.of_nat 4) with 4 in H. rewrite H.
  rewrite take_app_length' by (by rewrite length_int_bytes).
  rewrite len_block in * by exact Hm.
  unfold unpack_I. by apply unpack_int_bytes.
Qed.

(** C10: each of the three blocks of an encoding declares as its length the
    size of the whole block, magic and length field included, that is its
    payload plus 8; the blocks follow one another from offset 24 to the end
    of the stream, so what a reader computes as [start_pos + block_length]
    is the offset of the next block (the end of the stream after the last
    one), and that is where a block reader that returns leaves the
    stream. *)
Theorem block_lengths t o out :
  write_csb t o = Ret out ->
  out = header_bytes o t ++ strp_block o t ++ lnp_block o t ++ lnt_block o t /\
  (strp_block o t =
     magic_STRP ++ int_bytes 4 o (len (strp_payload o t) + 8) ++ strp_payload o t /\
   lnp_block o t =
     magic_LNP ++ int_bytes 4 o (len (lnp_payload o t) + 8) ++ lnp_payload o t /\
   lnt_block o t =
     magic_LNT ++ int_bytes 4 o (len (lnt_payload o t) + 8) ++ lnt_payload o t) /\
  (len (strp_block o t) = len (strp_payload o t) + 8 /\
   len (lnp_block o t) = len (lnp_payload o t) + 8 /\
   len (lnt_block o t) = len (lnt_payload o t) + 8) /\
  (unpack_I o (take 4 (unread out (24 + 4))) = Ret (len (strp_block o t)) /\
   unpack_I o (take 4 (unread out (lnp_start o t + 4)))
     = Ret (len (lnp_block o t)) /\
   unpack_I o (take 4 (unread out (lnt_start o t + 4)))
     = Ret (len (lnt_block o t))) /\
  (24 + len (strp_block o t) = lnp_start o t /\
   lnp_start o t + len (lnp_block o t) = lnt_start o t /\
   lnt_start o t + len (lnt_block o t) = len out) /\
  ((exists str_map,
      read_strp out o 24 = Ret ((Some str_map, SUCCESS), lnp_start o t)) /\
   (forall str_map r q,
      read_lnp out o str_map (lnp_start o t) = Ret (r, q) ->
      q = lnt_start o t) /\
   (forall line_map r q,
      read_lnt out o line_map (lnt_start o t) = Ret (r, q) -> q = len out)) /\
  (table_no_nul t ->
   exists str_map line_map lines,
     read_strp out o 24 = Ret ((Some str_map, SUCCESS), lnp_start o t) /\
     read_lnp out o str_map (lnp_start o t)
       = Ret ((Some line_map, SUCCESS), lnt_start o t) /\
     read_lnt out o line_map (lnt_start o t)
       = Ret ((Some lines, SUCCESS), len out)).
Proof.
  intros [-> Hf]%write_csb_spec.
  pose proof Hf as (_ & _ & _ & Hs & Hl & Ht).
  split_and!; try reflexivity.
  - unfold strp_block. by apply len_block.
  - unfold lnp_block. by apply len_block.
  - unfold lnt_block. by apply len_block.
  - apply (declared_length_at _ _ 24 magic_STRP _ _ eq_refl (unread_layout t o)).
    exact Hs.
  - apply (declared_length_at _ _ _ magic_LNP _ _ eq_refl (unread_lnp_start t o)).
    exact Hl.
  - apply (declared_length_at _ _ _ magic_LNT _ _ eq_refl (unread_lnt_start t o)).
    exact Ht.
  - symmetry. apply len_layout.
  - destruct (read_strp_frame _ _ o t _ _ (unread_layout t o)
                (unread_layout t o) Hs) as (sm & E & _).
    by exists sm.
  - intros sm r q.
    apply (read_lnp_frame _ _ o sm t _ _ (unread_lnp_start t o)
             (unread_lnp_start t o) Hf).
  - intros lm r q. rewrite len_layout.
    apply (read_lnt_end _ _ lm _ _ (unread_lnt_start t o) Hf).
  - intros Hn. eexists _, _, _. split_and!.
    + exact (strp_step _ _ _ _ (unread_layout t o) Hn Hs).
    + exact (lnp_step _ _ _ _ (unread_lnp_start t o) Hf).
    + rewrite len_layout. exact (lnt_step _ _ _ _ (unread_lnt_start t o) Hf).
Qed.

Lemma block_lengths_witness :
  let out := encoding table_ab LittleEndian in
  (unpack_I LittleEndian (take 4 (unread out (24 + 4)))
     = Ret (len (strp_block LittleEndian table_ab)) /\
   unpack_I LittleEndian (take 4 (unread out (lnp_start LittleEndian table_ab + 4)))
     = Ret (len (lnp_block LittleEndian table_ab)) /\
   unpack_I LittleEndian (take 4 (unread out (lnt_start LittleEndian table_ab + 4)))
     = Ret (len (lnt_block LittleEndian table_ab))) /\
  (24 + len (strp_block LittleEndian table_ab) = lnp_start LittleEndian table_ab /\
   lnp_start LittleEndian table_ab + len (lnp_block LittleEndian table_ab)
     = lnt_start LittleEndian table_ab /\
   lnt_start LittleEndian table_ab + len (lnt_block LittleEndian table_ab)
     = len out) /\
  exists str_map line_map lines,
    read_strp out LittleEndian 24
      = Ret ((Some str_map, SUCCESS), lnp_start LittleEndian table_ab) /\
    read_lnp out LittleEndian str_map (lnp_start LittleEndian table_ab)
      = Ret ((Some line_map, SUCCESS), lnt_start LittleEndian table_ab) /\
    read_lnt out LittleEndian line_map (lnt_start LittleEndian table_ab)
      = Ret ((Some lines, SUCCESS), len out).
Proof.
  cbv zeta.
  destruct (block_lengths table_ab LittleEndian (encoding table_ab LittleEndian))
    as (_ & _ & _ & H1 & H2 & _ & H3).
  - vm_compute. reflexivity.
  - split; [exact H1|]. split; [exact H2|].
    apply H3, table_is_text_no_nul, table_ab_is_text.
Defined.

(** ** LineIndex records *)

Lemma records_bytes_at o addr a0 lines i a line :
  record_addrs a0 lines !! i = Some a -> lines !! i = Some line ->
  exists pre post,
    records_bytes o addr a0 lines = pre ++ record_bytes o addr a line ++ post /\
    a = a0 + len pre.
Proof.
  revert a0 i. induction lines as [|l lines IH]; intros a0 i Ha Hl.
  - by destruct i.
  - destruct i as [|i]; cbn [record_addrs records_bytes] in *.
    + injection Ha as <-. injection Hl as <-.
      exists [], (records_bytes o addr (a0 + 16 + 8 * len l) lines).
      split; [reflexivity|]. change (len []) with 0. lia.
    + cbn [lookup list_lookup] in Ha, Hl.
      destruct (IH _ _ Ha Hl) as (pre & post & E & Ea).
      exists (record_bytes o addr a0 l ++ pre), post. split.
      * rewrite E. by rewrite <- !app_assoc.
      * rewrite len_app, len_record_bytes. lia.
Qed.

Lemma entries_at o (addrs : list N) i a :
  addrs !! i = Some a ->
  exists pre post,
    concat (map (int_bytes 8 o) addrs) = pre ++ int_bytes 8 o a ++ post /\
    len pre = 8 * N.of_nat i.
Proof.
  revert i. induction addrs as [|x addrs IH]; intros i Ha.
  - by destruct i.
  - destruct i as [|i]; cbn [map concat].
    + injection Ha as <-. by exists [], (concat (map (int_bytes 8 o) addrs)).
    + cbn [lookup list_lookup] in Ha.
      destruct (IH _ Ha) as (pre & post & E & El).
      exists (int_bytes 8 o x ++ pre), post. split.
      * rewrite E. by rewrite <- !app_assoc.
      * rewrite len_app, len_int_bytes, El. lia.
Qed.

(** In an encoding, the record of row [i] sits at the [i]-th address of
    [record_addrs], and the [i]-th entry of the LineOrder block holds that
    address. *)
Lemma record_in_layout t o i a line :
  record_addrs (lnp_start o t + 16) t !! i = Some a -> t !! i = Some line ->
  (exists rest,
     unread (layout t o) a =
     record_bytes o (pool_addr 40 (get_unique_strs t)) a line ++ rest) /\
  (exists rest,
     unread (layout t o) (lnt_start o t + 16 + 8 * N.of_nat i) =
     int_bytes 8 o a ++ rest).
Proof.
  intros Ha Hl. split.
  - pose proof (unread_lnp_start t o) as H.
    unfold lnp_block, block, lnp_payload in H. rewrite <- !app_assoc in H.
    do 3 apply unread_advance in H.
    rewrite !len_int_bytes in H. change (len magic_LNP) with 4 in H.
    replace (lnp_start o t + 4 + N.of_nat 4 + N.of_nat 8)
      with (lnp_start o t + 16) in H by lia.
    destruct (records_bytes_at o (pool_addr 40 (get_unique_strs t)) _ _ _ _ _
                Ha Hl) as (pre & post & E & ->).
    rewrite E, <- !app_assoc in H. apply unread_advance in H. eauto.
  - pose proof (unread_lnt_start t o) as H.
    unfold lnt_block, block, lnt_payload in H. rewrite <- !app_assoc in H.
    do 3 apply unread_advance in H.
    rewrite !len_int_bytes in H. change (len magic_LNT) with 4 in H.
    replace (lnt_start o t + 4 + N.of_nat 4 + N.of_nat 8)
      with (lnt_start o t + 16) in H by lia.
    destruct (entries_at o _ _ _ Ha) as (pre & post & E & El).
    rewrite E, <- !app_assoc in H. apply unread_advance in H.
    rewrite El in H. eauto.
Qed.

Lemma read_lnp_fields_gen data o sm addrs line acc p rest :
  Forall2 (fun a s => a < 2 ^ 64 /\ sm !! a = Some s) addrs line ->
  unread data p = concat (map (int_bytes 8 o) addrs) ++ rest ->
  read_lnp_fields data o sm (length addrs) acc p =
  Ret (acc ++ line, p + 8 * len addrs).
Proof.
  intros HL. revert acc p.
  induction HL as [|a s addrs line [Hb Ha] _ IH]; intros acc p H.
  - cbn. unfold io_ret. rewrite app_nil_r. do 2 f_equal.
    change (len []) with 0. lia.
  - cbn [length read_lnp_fields]. cbn [map concat] in H.
    rewrite <- app_assoc in H.
    read_next H. unfold unpack_Q.
    rewrite unpack_int_bytes by (change (8 * N.of_nat 8) with 64; lia).
    rewrite bind_lift. cbv beta. unfold getitem. rewrite Ha.
    rewrite bind_lift. cbv beta. rewrite (IH _ _ H).
    rewrite len_int_bytes, len_cons, <- app_assoc. cbn [app].
    do 2 f_equal. lia.
Qed.

(** One turn of the loop of [read_lnp] on any stream: with the field count
    [len addrs] and the payload address [q] at the current position [p], and
    the field addresses at [q], the row is read at [q], wherever that is, and
    stored under [p]; the next record is expected behind the field
    addresses. *)
Lemma read_lnp_record data o sm k m p q addrs line rest rest' :
  unread data p = int_bytes 8 o (len addrs) ++ int_bytes 8 o q ++ rest ->
  len addrs < 2 ^ 64 -> q < 2 ^ 63 ->
  unread data q = concat (map (int_bytes 8 o) addrs) ++ rest' ->
  Forall2 (fun a s => a < 2 ^ 64 /\ sm !! a = Some s) addrs line ->
  read_lnp_loop data o sm (S k) m p =
  read_lnp_loop data o sm k (<[p := line]> m) (q + 8 * len addrs).
Proof.
  intros H Hn Hq Hf HL. cbn [read_lnp_loop].
  rewrite bind_tell. read_next H. unfold unpack_Q.
  rewrite unpack_int_bytes by (change (8 * N.of_nat 8) with 64; lia).
  rewrite bind_lift. cbv beta. read_next H.
  rewrite unpack_int_bytes by (change (8 * N.of_nat 8) with 64; lia).
  rewrite bind_lift. cbv beta. rewrite bind_seek by exact Hq.
  rewrite to_nat_len. unfold io_bind at 1.
  rewrite (read_lnp_fields_gen _ _ _ _ _ _ _ _ HL Hf). reflexivity.
Qed.

Lemma lookup_map_Some {A B} (f : A -> B) (l : list A) i x :
  l !! i = Some x -> map f l !! i = Some (f x).
Proof.
  revert i. induction l as [|y l IH]; intros [|i] H; try done.
  - by injection H as ->.
  - by apply IH.
Qed.

Lemma record_addrs_lookup a0 (t : table) i line :
  t !! i = Some line -> exists a, record_addrs a0 t !! i = Some a.
Proof.
  intros H. apply lookup_lt_is_Some. rewrite length_record_addrs.
  by eapply lookup_lt_Some.
Qed.



(** C3, as the code has it: a LineIndex record is identified by the offset
    of its first byte, where its field count is.  In an encoding the
    LineOrder entry of a row holds the offset of the row's field count; the
    field addresses of the row begin 16 bytes further; and the reader
    stores the row under the offset of the field count.  On any stream the
    reader stores a row under the position at which it read the field
    count. *)
Theorem record_identity :
  (forall t o out i line,
     write_csb t o = Ret out -> t !! i = Some line ->
     exists a r1 r2 r3,
       record_addrs (lnp_start o t + 16) t !! i = Some a /\
       unread out (lnt_start o t + 16 + 8 * N.of_nat i)
         = int_bytes 8 o a ++ r1 /\
       unread out a = int_bytes 8 o (len line) ++ r2 /\
       unread out (a + 16) =
         concat (map (fun s => int_bytes 8 o
                                 (pool_addr 40 (get_unique_strs t) s)) line)
         ++ r3 /\
       (table_no_nul t ->
        exists str_map line_map,
          read_strp out o 24 = Ret ((Some str_map, SUCCESS), lnp_start o t) /\
          read_lnp out o str_map (lnp_start o t)
            = Ret ((Some line_map, SUCCESS), lnt_start o t) /\
          line_map !! a = Some (map lossy line))) /\
  (forall data o sm k m p q addrs line rest rest',
     unread data p = int_bytes 8 o (len addrs) ++ int_bytes 8 o q ++ rest ->
     len addrs < 2 ^ 64 -> q < 2 ^ 63 ->
     unread data q = concat (map (int_bytes 8 o) addrs) ++ rest' ->
     Forall2 (fun a s => a < 2 ^ 64 /\ sm !! a = Some s) addrs line ->
     read_lnp_loop data o sm (S k) m p =
     read_lnp_loop data o sm k (<[p := line]> m) (q + 8 * len addrs)).
Proof.
  split.
  - intros t o out i line [-> Hf]%write_csb_spec Hl.
    destruct (record_addrs_lookup (lnp_start o t + 16) t i line Hl) as [a Ha].
    destruct (record_in_layout t o i a line Ha Hl) as [[rest H] [r1 H1]].
    unfold record_bytes in H. rewrite <- !app_assoc in H.
    pose proof H as H2. do 2 apply unread_advance in H2.
    rewrite !len_int_bytes in H2.
    replace (a + N.of_nat 8 + N.of_nat 8) with (a + 16) in H2 by lia.
    eexists a, r1, _, rest. split_and!; [exact Ha|exact H1|exact H|exact H2|].
    intros Hn. pose proof Hf as (_ & _ & _ & Hs & _).
    eexists _, _. split_and!.
    + exact (strp_step _ _ _ _ (unread_layout t o) Hn Hs).
    + exact (lnp_step _ _ _ _ (unread_lnp_start t o) Hf).
    + pose proof (record_map_lookup (lnp_start o t + 16) t ∅) as HF.
      eapply Forall2_lookup_lr in HF; [exact HF|exact Ha|].
      unfold lossy_table. by apply lookup_map_Some.
  - intros. by eapply read_lnp_record.
Qed.

Lemma record_identity_witness :
  (exists a r1 r2 r3,
     record_addrs (lnp_start LittleEndian table_ab + 16) table_ab !! 1%nat
       = Some a /\
     unread (encoding table_ab LittleEndian)
       (lnt_start LittleEndian table_ab + 16 + 8 * N.of_nat 1)
       = int_bytes 8 LittleEndian a ++ r1 /\
     unread (encoding table_ab LittleEndian) a
       = int_bytes 8 LittleEndian (len [[97]]) ++ r2 /\
     unread (encoding table_ab LittleEndian) (a + 16) =
       concat (map (fun s => int_bytes 8 LittleEndian
                     (pool_addr 40 (get_unique_strs table_ab) s)) [[97]])
       ++ r3 /\
     exists str_map line_map,
       read_strp (encoding table_ab LittleEndian) LittleEndian 24
         = Ret ((Some str_map, SUCCESS), lnp_start LittleEndian table_ab) /\
       read_lnp (encoding table_ab LittleEndian) LittleEndian str_map
           (lnp_start LittleEndian table_ab)
         = Ret ((Some line_map, SUCCESS), lnt_start LittleEndian table_ab) /\
       line_map !! a = Some (map lossy [[97]])) /\
  read_lnp_loop stream_gap LittleEndian {[7 := [120]]} 1%nat ∅ 0 =
  read_lnp_loop stream_gap LittleEndian {[7 := [120]]} 0%nat
    (<[0 := [[120]]]> ∅) (24 + 8 * len [7]).
Proof.
  split.
  - destruct (proj1 record_identity table_ab LittleEndian
                (encoding table_ab LittleEndian) 1%nat [[97]])
      as (a & r1 & r2 & r3 & H1 & H2 & H3 & H4 & H5).
    + vm_compute. reflexivity.
    + reflexivity.
    + exists a, r1, r2, r3. repeat (split; [assumption|]).
      apply H5, table_is_text_no_nul, table_ab_is_text.
  - refine (proj2 record_identity stream_gap LittleEndian {[7 := [120]]}
              0%nat ∅ 0 24 [7] [[120]]
              (int_bytes 8 LittleEndian 99 ++ int_bytes 8 LittleEndian 7) []
              _ _ _ _ _).
    + vm_compute. reflexivity.
    + vm_compute. reflexivity.
    + vm_compute. reflexivity.
    + vm_compute. reflexivity.
    + repeat constructor.
Defined.

(** C3, as stated, fails: in the encoding of [[["a","b"],["a"]]] the first
    record has its field count at offset 60 and its field addresses from
    offset 76 on; the LineOrder block refers to it as 60, and the reader
    stores the row under 60 and nothing under 76. *)
Lemma record_identity_counterexample :
  let out := encoding table_ab LittleEndian in
  unpack_Q LittleEndian (take 8 (unread out 60)) = Ret 2 /\
  unpack_Q LittleEndian (take 8 (unread out 76)) = Ret 40 /\
  unpack_Q LittleEndian (take 8 (unread out 84)) = Ret 42 /\
  c_string_bytes (unread out 40) = Ret [byte_of_N 97] /\
  c_string_bytes (unread out 42) = Ret [byte_of_N 98] /\
  unpack_Q LittleEndian
    (take 8 (unread out (lnt_start LittleEndian table_ab + 16))) = Ret 60 /\
  exists str_map line_map p1 p2,
    read_strp out LittleEndian 24 = Ret ((Some str_map, SUCCESS), p1) /\
    read_lnp out LittleEndian str_map p1 = Ret ((Some line_map, SUCCESS), p2) /\
    line_map !! 60 = Some [[97]; [98]] /\
    line_map !! 76 = None.
Proof.
  cbv zeta.
  split; [vm_compute; reflexivity|].
  split; [vm_compute; reflexivity|].
  split; [vm_compute; reflexivity|].
  split; [vm_compute; reflexivity|].
  split; [vm_compute; reflexivity|].
  split; [vm_compute; reflexivity|].
  exists (pool_map 40 (get_unique_strs table_ab) ∅),
         (record_map 60 table_ab ∅), 44, 116.
  split; [vm_compute; reflexivity|].
  split; [vm_compute; reflexivity|].
  split; vm_compute; reflexivity.
Qed.

(** ** Corrupted magics and markers *)

Lemma patch_app (pre x post y : list byte) :
  length y = length x ->
  patch (pre ++ x ++ post) (length pre) y = pre ++ y ++ post.
Proof.
  intros Hy. unfold patch. rewrite take_app_length. f_equal. f_equal.
  rewrite <- drop_drop, drop_app_length, Hy. apply drop_app_length.
Qed.

Lemma read_csb_bad_magic data v :
  take 4 data <> magic_CSB -> read_csb data v = Ret (None, INVALID_CSB_MAGIC).
Proof.
  intros H. unfold read_csb, read_csb_io, io_bind, f_read.
  rewrite unread_drop. change (drop (N.to_nat 0) data) with data.
  by destruct (decide (take 4 data <> magic_CSB)).
Qed.

Lemma read_csb_bad_marker data v :
  take 4 data = magic_CSB ->
  order_of_marker (take 2 (drop 4 data)) = None ->
  read_csb data v = Ret (None, INVALID_BYTE_ORDER).
Proof.
  intros Hm Ho. unfold read_csb, read_csb_io, io_bind, f_read.
  rewrite unread_drop. change (drop (N.to_nat 0) data) with data.
  rewrite Hm. destruct (decide (magic_CSB <> magic_CSB)) as [?|_]; [done|].
  rewrite unread_drop. change (N.to_nat (0 + len magic_CSB)) with 4%nat.
  by rewrite Ho.
Qed.

Lemma read_strp_bad_magic data o p bad rest :
  unread data p = bad ++ rest -> length bad = 4%nat -> bad <> magic_STRP ->
  read_strp data o p = Ret ((None, INVALID_STRP_MAGIC), p + 4).
Proof.
  intros H Hl Hb. unfold read_strp. rewrite bind_tell.
  rewrite (bind_read _ _ _ _ _ _ H Hl).
  destruct (decide (bad <> magic_STRP)); [|done].
  unfold io_ret, len. by rewrite Hl.
Qed.

Lemma read_lnp_bad_magic data o sm p bad rest :
  unread data p = bad ++ rest -> length bad = 4%nat -> bad <> magic_LNP ->
  read_lnp data o sm p = Ret ((None, INVALID_LNP_MAGIC), p + 4).
Proof.
  intros H Hl Hb. unfold read_lnp. rewrite bind_tell.
  rewrite (bind_read _ _ _ _ _ _ H Hl).
  destruct (decide (bad <> magic_LNP)); [|done].
  unfold io_ret, len. by rewrite Hl.
Qed.

Lemma read_lnt_bad_magic data o lm p bad rest :
  unread data p = bad ++ rest -> length bad = 4%nat -> bad <> magic_LNT ->
  read_lnt data o lm p = Ret ((None, INVALID_LNT_MAGIC), p + 4).
Proof.
  intros H Hl Hb. unfold read_lnt. rewrite bind_tell.
  rewrite (bind_read _ _ _ _ _ _ H Hl).
  destruct (decide (bad <> magic_LNT)); [|done].
  unfold io_ret, len. by rewrite Hl.
Qed.

(** The layout with the bytes at the start of one block replaced. *)
Lemma patch_strp t o bad :
  length bad = 4%nat ->
  patch (layout t o) 24 bad =
  header_bytes o t
  ++ (bad ++ int_bytes 4 o (len (strp_payload o t) + 8) ++ strp_payload o t)
  ++ lnp_block o t ++ lnt_block o t.
Proof.
  intros Hl. unfold layout, strp_block, block.
  rewrite <- !app_assoc.
  assert (length (header_bytes o t) = 24%nat) as <-.
  { pose proof (len_header_bytes o t) as H. unfold len in H. lia. }
  by rewrite (patch_app _ magic_STRP).
Qed.

Lemma patch_lnp t o bad :
  length bad = 4%nat ->
  patch (layout t o) (N.to_nat (lnp_start o t)) bad =
  header_bytes o t ++ strp_block o t
  ++ (bad ++ int_bytes 4 o (len (lnp_payload o t) + 8) ++ lnp_payload o t)
  ++ lnt_block o t.
Proof.
  intros Hl. unfold layout, lnp_block, block.
  assert (N.to_nat (lnp_start o t)
          = length (header_bytes o t ++ strp_block o t)) as ->.
  { unfold lnp_start. pose proof (len_header_bytes o t) as H.
    rewrite length_app. unfold len in *. lia. }
  rewrite <- !app_assoc. rewrite !(app_assoc (header_bytes o t)).
  by rewrite (patch_app _ magic_LNP).
Qed.

Lemma patch_lnt t o bad :
  length bad = 4%nat ->
  patch (layout t o) (N.to_nat (lnt_start o t)) bad =
  header_bytes o t ++ strp_block o t ++ lnp_block o t
  ++ (bad ++ int_bytes 4 o (len (lnt_payload o t) + 8) ++ lnt_payload o t).
Proof.
  intros Hl. unfold layout, lnt_block, block.
  assert (N.to_nat (lnt_start o t)
          = length ((header_bytes o t ++ strp_block o t) ++ lnp_block o t))
    as ->.
  { unfold lnt_start, lnp_start. pose proof (len_header_bytes o t) as H.
    rewrite !length_app. unfold len in *. lia. }
  rewrite <- (app_nil_r (magic_LNT ++ _)), <- !app_assoc.
  rewrite !(app_assoc (header_bytes o t)), (app_assoc (_ ++ strp_block o t)).
  rewrite (patch_app _ magic_LNT) by exact Hl.
  by rewrite !app_nil_r, <- !app_assoc.
Qed.

Lemma declared_with_body t o body :
  fits t o ->
  declared (header_bytes o t ++ body) =
  Some (o, (total_fields_of t, max_columns_of t, total_lines_of t)).
Proof.
  intros (H1 & H2 & H3 & _). unfold header_bytes.
  rewrite <- !app_assoc. by apply declared_header.
Qed.

Lemma unread_with_body t o body : unread (header_bytes o t ++ body) 24 = body.
Proof. unfold header_bytes. rewrite <- !app_assoc. apply unread_header. Qed.

(** C8: an encoding in which the four bytes of one magic are replaced by
    four other bytes is refused with the error of that magic, and no table;
    a stream that starts with the container magic and whose next two bytes
    are neither [FF FE] nor [FE FF] is refused with [INVALID_BYTE_ORDER], and
    so is an encoding whose marker is replaced by two such bytes.  For the
    magic of the LineOrder block the encoding must be one that decodes, as
    the encoding of every table without U+0000 does. *)
Theorem corruption_detected :
  (forall data v,
     take 4 data <> magic_CSB ->
     read_csb data v = Ret (None, INVALID_CSB_MAGIC)) /\
  (forall data v,
     take 4 data = magic_CSB ->
     take 2 (drop 4 data) <> marker_LE -> take 2 (drop 4 data) <> marker_BE ->
     read_csb data v = Ret (None, INVALID_BYTE_ORDER)) /\
  (forall t o out bad v,
     write_csb t o = Ret out -> length bad = 4%nat ->
     (bad <> magic_CSB ->
      read_csb (patch out 0 bad) v = Ret (None, INVALID_CSB_MAGIC)) /\
     (bad <> magic_STRP ->
      read_csb (patch out 24 bad) v = Ret (None, INVALID_STRP_MAGIC)) /\
     (bad <> magic_LNP ->
      read_csb (patch out (N.to_nat (lnp_start o t)) bad) v
        = Ret (None, INVALID_LNP_MAGIC)) /\
     (forall lines,
        read_csb out false = Ret (Some lines, SUCCESS) ->
        bad <> magic_LNT ->
        read_csb (patch out (N.to_nat (lnt_start o t)) bad) v
          = Ret (None, INVALID_LNT_MAGIC)) /\
     (table_no_nul t ->
      read_csb out false = Ret (Some (lossy_table t), SUCCESS))) /\
  (forall t o out mk v,
     write_csb t o = Ret out -> length mk = 2%nat ->
     mk <> marker_LE -> mk <> marker_BE ->
     read_csb (patch out 4 mk) v = Ret (None, INVALID_BYTE_ORDER)).
Proof.
  split_and!.
  - apply read_csb_bad_magic.
  - intros data v Hm H1 H2. apply read_csb_bad_marker; [exact Hm|].
    unfold order_of_marker. by repeat case_decide.
  - intros t o out bad v [-> Hf]%write_csb_spec Hl.
    pose proof Hf as (_ & _ & _ & Hs & _).
    split_and!.
    + intros Hb. apply read_csb_bad_magic.
      unfold patch. change (take 0 (layout t o)) with (@nil byte).
      cbn [app]. by rewrite take_app_length' by (by rewrite Hl).
    + intros Hb. rewrite (patch_strp _ _ _ Hl).
      rewrite (read_csb_declared _ _ _ _ _ _ (declared_with_body t o _ Hf)).
      unfold read_blocks.
      match goal with |- context [read_strp ?d _ _] => set (data := d) end.
      assert (unread data 24 =
              bad ++ (int_bytes 4 o (len (strp_payload o t) + 8)
                      ++ strp_payload o t) ++ lnp_block o t ++ lnt_block o t)
        as H by (subst data; by rewrite unread_with_body, <- ?app_assoc).
      by rewrite (read_strp_bad_magic _ _ _ _ _ H Hl Hb).
    + intros Hb. rewrite (patch_lnp _ _ _ Hl).
      rewrite (read_csb_declared _ _ _ _ _ _ (declared_with_body t o _ Hf)).
      unfold read_blocks.
      match goal with |- context [read_strp ?d _ _] => set (data := d) end.
      assert (unread data 24 =
              strp_block o t
              ++ bad ++ (int_bytes 4 o (len (lnp_payload o t) + 8)
                         ++ lnp_payload o t) ++ lnt_block o t)
        as H by (subst data; by rewrite unread_with_body, <- ?app_assoc).
      destruct (read_strp_frame data data o t _ _ H H Hs) as (sm & -> & _).
      apply unread_advance in H. fold (lnp_start o t) in H.
      by rewrite (read_lnp_bad_magic _ _ _ _ _ _ H Hl Hb).
    + intros lines Hdec Hb.
      rewrite (read_csb_declared _ _ _ _ _ _ (declared_layout t o Hf)) in Hdec.
      rewrite (patch_lnt _ _ _ Hl).
      rewrite (read_csb_declared _ _ _ _ _ _ (declared_with_body t o _ Hf)).
      unfold read_blocks in *.
      match goal with |- context [read_strp ?d _ _] => set (data := d) end.
      assert (unread data 24 =
              strp_block o t ++ lnp_block o t
              ++ bad ++ (int_bytes 4 o (len (lnt_payload o t) + 8)
                         ++ lnt_payload o t))
        as H by (subst data; by rewrite unread_with_body, <- ?app_assoc).
      pose proof (unread_layout t o) as H0.
      destruct (read_strp_frame (layout t o) data o t _ _ H0 H Hs)
        as (sm & E0 & ->).
      rewrite E0 in Hdec.
      apply unread_advance in H, H0. fold (lnp_start o t) in H, H0.
      destruct (read_lnp_frame (layout t o) data o sm t _ _ H0 H Hf)
        as [<- Hq].
      destruct (read_lnp (layout t o) o sm (lnp_start o t))
        as [[[[lm|] e] q]|]; [|done|done].
      rewrite (Hq _ _ eq_refl).
      apply unread_advance in H. fold (lnt_start o t) in H.
      by rewrite (read_lnt_bad_magic _ _ _ _ _ _ H Hl Hb).
    + intros Hn.
      rewrite (read_csb_unvalidated _ _ _ _ _ (lossy_table t)
                 (declared_layout t o Hf)); [done|].
      exact (read_blocks_at _ _ _ _ (unread_layout t o) Hn Hf).
  - intros t o out mk v [-> Hf]%write_csb_spec Hl H1 H2.
    assert (patch (layout t o) 4 mk = magic_CSB ++ mk ++ drop 6 (layout t o))
      as -> by (unfold patch; by rewrite Hl).
    apply read_csb_bad_marker; [reflexivity|].
    change (drop 4 (magic_CSB ++ mk ++ drop 6 (layout t o)))
      with (mk ++ drop 6 (layout t o)).
    rewrite take_app_length' by (by rewrite Hl).
    unfold order_of_marker. by repeat case_decide.
Qed.

Lemma corruption_detected_witness :
  read_csb bad_magic false = Ret (None, INVALID_CSB_MAGIC) /\
  read_csb (magic_CSB ++ bad_marker) true = Ret (None, INVALID_BYTE_ORDER) /\
  (let out := encoding table_ab LittleEndian in
   read_csb (patch out 0 bad_magic) true = Ret (None, INVALID_CSB_MAGIC) /\
   read_csb (patch out 24 bad_magic) true = Ret (None, INVALID_STRP_MAGIC) /\
   read_csb (patch out (N.to_nat (lnp_start LittleEndian table_ab)) bad_magic)
     true = Ret (None, INVALID_LNP_MAGIC) /\
   read_csb (patch out (N.to_nat (lnt_start LittleEndian table_ab)) bad_magic)
     true = Ret (None, INVALID_LNT_MAGIC)) /\
  read_csb (patch (encoding table_ab LittleEndian) 4 bad_marker) true
    = Ret (None, INVALID_BYTE_ORDER).
Proof.
  split; [|split; [|split]].
  - refine (proj1 corruption_detected bad_magic false _). discriminate.
  - refine (proj1 (proj2 corruption_detected) (magic_CSB ++ bad_marker) true
              _ _ _).
    + reflexivity.
    + discriminate.
    + discriminate.
  - cbv zeta.
    destruct (proj1 (proj2 (proj2 corruption_detected)) table_ab LittleEndian
                (encoding table_ab LittleEndian) bad_magic true)
      as (H1 & H2 & H3 & H4 & _).
    + vm_compute. reflexivity.
    + reflexivity.
    + split_and!.
      * apply H1. discriminate.
      * apply H2. discriminate.
      * apply H3. discriminate.
      * apply (H4 table_ab); [vm_compute; reflexivity|discriminate].
  - refine (proj2 (proj2 (proj2 corruption_detected)) table_ab LittleEndian
              (encoding table_ab LittleEndian) bad_marker true _ _ _ _).
    + vm_compute. reflexivity.
    + reflexivity.
    + discriminate.
    + discriminate.
Defined.

(** ** The validation switch *)

Lemma set_counts_layout t o tf mc tl :
  set_counts o tf mc tl (layout t o) =
  magic_CSB ++ marker_of o ++ reserved
  ++ int_bytes 4 o tf ++ int_bytes 4 o mc ++ int_bytes 4 o tl
  ++ strp_block o t ++ lnp_block o t ++ lnt_block o t.
Proof.
  unfold set_counts, layout, header_bytes.
  set (body := strp_block o t ++ lnp_block o t ++ lnt_block o t).
  set (pre := magic_CSB ++ marker_of o ++ reserved).
  set (old := int_bytes 4 o (total_fields_of t)
              ++ int_bytes 4 o (max_columns_of t)
              ++ int_bytes 4 o (total_lines_of t)).
  replace ((magic_CSB ++ marker_of o ++ reserved ++ _) ++ body)
    with (pre ++ old ++ body)
    by (subst pre old; by rewrite <- !app_assoc).
  assert (length pre = 12%nat) as <- by (subst pre; by destruct o).
  rewrite (patch_app pre old body)
    by (subst old; by rewrite !length_app, !length_int_bytes).
  subst pre. by rewrite <- !app_assoc.
Qed.

Lemma validate_rejects lines tf mc tl :
  (tf, mc, tl) <>
    (total_fields_of lines, max_columns_of lines, total_lines_of lines) ->
  exists e,
    validate lines tf mc tl = (None, e) /\
    ((e = INCONSISTENT_TOTAL_LINES /\ tl <> total_lines_of lines) \/
     (e = INCONSISTENT_TOTAL_FIELDS /\ tf <> total_fields_of lines) \/
     (e = INCONSISTENT_MAX_COLUMNS /\ mc <> max_columns_of lines)).
Proof.
  intros H. rewrite validate_spec. repeat case_decide; eauto 10.
  congruence.
Qed.

(** C9: a stream whose blocks decode and whose header counts are not those
    of the decoded rows is refused with validation, by the error of a count
    that is wrong, and decodes to the rows of its blocks without; so does
    every encoding whose header counts have been overwritten.  Without
    validation no consistency error is ever returned, and a table returned
    with validation is the table returned without. *)
Theorem validation_toggle :
  (forall data o tf mc tl lines,
     declared data = Some (o, (tf, mc, tl)) ->
     read_blocks data o = Ret (Some lines, SUCCESS) ->
     (tf, mc, tl) <>
       (total_fields_of lines, max_columns_of lines, total_lines_of lines) ->
     read_csb data false = Ret (Some lines, SUCCESS) /\
     exists e,
       read_csb data true = Ret (None, e) /\
       ((e = INCONSISTENT_TOTAL_LINES /\ tl <> total_lines_of lines) \/
        (e = INCONSISTENT_TOTAL_FIELDS /\ tf <> total_fields_of lines) \/
        (e = INCONSISTENT_MAX_COLUMNS /\ mc <> max_columns_of lines))) /\
  (forall t o out tf mc tl,
     table_no_nul t -> write_csb t o = Ret out ->
     tf < 2 ^ 32 -> mc < 2 ^ 32 -> tl < 2 ^ 32 ->
     (tf, mc, tl) <> (total_fields_of t, max_columns_of t, total_lines_of t) ->
     read_csb (set_counts o tf mc tl out) false
       = Ret (Some (lossy_table t), SUCCESS) /\
     exists e,
       read_csb (set_counts o tf mc tl out) true = Ret (None, e) /\
       ((e = INCONSISTENT_TOTAL_LINES /\ tl <> total_lines_of t) \/
        (e = INCONSISTENT_TOTAL_FIELDS /\ tf <> total_fields_of t) \/
        (e = INCONSISTENT_MAX_COLUMNS /\ mc <> max_columns_of t))) /\
  (forall data r e,
     read_csb data false = Ret (r, e) -> ~ is_consistency_error e) /\
  (forall data lines e,
     read_csb data true = Ret (Some lines, e) ->
     e = SUCCESS /\ read_csb data false = Ret (Some lines, SUCCESS)).
Proof.
  assert (general : forall data o tf mc tl lines,
     declared data = Some (o, (tf, mc, tl)) ->
     read_blocks data o = Ret (Some lines, SUCCESS) ->
     (tf, mc, tl) <>
       (total_fields_of lines, max_columns_of lines, total_lines_of lines) ->
     read_csb data false = Ret (Some lines, SUCCESS) /\
     exists e,
       read_csb data true = Ret (None, e) /\
       ((e = INCONSISTENT_TOTAL_LINES /\ tl <> total_lines_of lines) \/
        (e = INCONSISTENT_TOTAL_FIELDS /\ tf <> total_fields_of lines) \/
        (e = INCONSISTENT_MAX_COLUMNS /\ mc <> max_columns_of lines))).
  { intros data o tf mc tl lines Hd Hb Hne. split.
    - by eapply read_csb_unvalidated.
    - rewrite (read_csb_validated _ _ _ _ _ _ Hd Hb).
      destruct (validate_rejects lines tf mc tl Hne) as (e & -> & He). eauto. }
  split_and!.
  - exact general.
  - intros t o out tf mc tl Hn [-> Hf]%write_csb_spec Htf Hmc Htl Hne.
    rewrite set_counts_layout.
    match goal with |- context [read_csb ?d false] => set (data := d) end.
    assert (Hd : declared data = Some (o, (tf, mc, tl)))
      by (by apply declared_header).
    assert (Hb : read_blocks data o = Ret (Some (lossy_table t), SUCCESS)).
    { apply (read_blocks_at data o t []); [|exact Hn|exact Hf].
      subst data. rewrite unread_header. by rewrite app_nil_r. }
    destruct (general data o tf mc tl (lossy_table t) Hd Hb) as [H1 H2].
    + by rewrite len_lossy_table, total_fields_lossy_table,
        max_columns_lossy_table.
    + rewrite len_lossy_table, total_fields_lossy_table,
        max_columns_lossy_table in H2. by split.
  - intros data r e. unfold read_csb.
    pose proof (read_csb_io_toggle data 0) as H.
    destruct (read_csb_io data false 0) as [[[[ls|] e'] p']|]; [| |done].
    + destruct H as [-> _]. intros [= <- <-] [?|[?|?]]; discriminate.
    + destruct H as [_ H]. by intros [= <- <-].
  - intros data lines e. unfold read_csb.
    pose proof (read_csb_io_toggle data 0) as H.
    destruct (read_csb_io data false 0) as [[[[ls|] e'] p']|].
    + destruct H as [-> (tf & mc & tl & ->)].
      destruct (validate ls tf mc tl) as [r e0] eqn:Hv.
      apply validate_answers in Hv as [[-> _]|[-> ->]]; [done|].
      by intros [= <- <-].
    + destruct H as [-> _]. done.
    + by rewrite H.
Qed.

Lemma validation_toggle_witness :
  (read_csb stream_two_wrong_counts false = Ret (Some table_ab, SUCCESS) /\
   exists e,
     read_csb stream_two_wrong_counts true = Ret (None, e) /\
     ((e = INCONSISTENT_TOTAL_LINES /\ 2 <> total_lines_of table_ab) \/
      (e = INCONSISTENT_TOTAL_FIELDS /\ 9 <> total_fields_of table_ab) \/
      (e = INCONSISTENT_MAX_COLUMNS /\ 9 <> max_columns_of table_ab))) /\
  (read_csb stream_wrong_lines false = Ret (Some (lossy_table table_ab), SUCCESS) /\
   exists e,
     read_csb stream_wrong_lines true = Ret (None, e) /\
     ((e = INCONSISTENT_TOTAL_LINES /\ 3 <> total_lines_of table_ab) \/
      (e = INCONSISTENT_TOTAL_FIELDS /\ 3 <> total_fields_of table_ab) \/
      (e = INCONSISTENT_MAX_COLUMNS /\ 2 <> max_columns_of table_ab))) /\
  ~ is_consistency_error SUCCESS /\
  (SUCCESS = SUCCESS /\
   read_csb (encoding table_ab BigEndian) false = Ret (Some table_ab, SUCCESS)).
Proof.
  split; [|split; [|split]].
  - refine (proj1 validation_toggle stream_two_wrong_counts LittleEndian
              9 9 2 table_ab _ _ _).
    + vm_compute. reflexivity.
    + vm_compute. reflexivity.
    + vm_compute. discriminate.
  - refine (proj1 (proj2 validation_toggle) table_ab BigEndian
              (encoding table_ab BigEndian) 3 2 3 _ _ _ _ _ _).
    + apply table_is_text_no_nul, table_ab_is_text.
    + vm_compute. reflexivity.
    + reflexivity.
    + reflexivity.
    + reflexivity.
    + vm_compute. discriminate.
  - refine (proj1 (proj2 (proj2 validation_toggle))
              stream_wrong_lines (Some table_ab) SUCCESS _).
    vm_compute. reflexivity.
  - refine (proj2 (proj2 (proj2 validation_toggle))
              (encoding table_ab BigEndian) table_ab SUCCESS _).
    vm_compute. reflexivity.
Defined.

(** ** Addresses that lead nowhere *)

Lemma read_lnt_loop_missing data o lm addrs n acc p rest :
  unread data p = concat (map (int_bytes 8 o) addrs) ++ rest ->
  Forall (fun a => a < 2 ^ 64) addrs ->
  (length addrs <= n)%nat ->
  Exists (fun a => lm !! a = None) addrs ->
  read_lnt_loop data o lm n acc p = Raise KeyError.
Proof.
  revert n acc p. induction addrs as [|a addrs IH]; intros n acc p H Hb Hn Hex.
  - by apply Exists_nil in Hex.
  - destruct n as [|n]; [simpl in Hn; lia|].
    cbn [read_lnt_loop]. cbn [map concat] in H. rewrite <- app_assoc in H.
    apply Forall_cons in Hb as [Ha Hb].
    read_next H. unfold unpack_Q.
    rewrite unpack_int_bytes by (change (8 * N.of_nat 8) with 64; lia).
    rewrite bind_lift. cbv beta. unfold getitem.
    destruct (lm !! a) as [l|] eqn:El; [|reflexivity].
    rewrite bind_lift. cbv beta.
    apply Exists_cons in Hex as [Hex|Hex]; [congruence|].
    apply (IH _ _ _ H Hb); [simpl in Hn; lia|exact Hex].
Qed.

Lemma read_lnp_fields_missing data o sm addrs n acc p rest :
  unread data p = concat (map (int_bytes 8 o) addrs) ++ rest ->
  Forall (fun a => a < 2 ^ 64) addrs ->
  (length addrs <= n)%nat ->
  Exists (fun a => sm !! a = None) addrs ->
  read_lnp_fields data o sm n acc p = Raise KeyError.
Proof.
  revert n acc p. induction addrs as [|a addrs IH]; intros n acc p H Hb Hn Hex.
  - by apply Exists_nil in Hex.
  - destruct n as [|n]; [simpl in Hn; lia|].
    cbn [read_lnp_fields]. cbn [map concat] in H. rewrite <- app_assoc in H.
    apply Forall_cons in Hb as [Ha Hb].
    read_next H. unfold unpack_Q.
    rewrite unpack_int_bytes by (change (8 * N.of_nat 8) with 64; lia).
    rewrite bind_lift. cbv beta. unfold getitem.
    destruct (sm !! a) as [l|] eqn:El; [|reflexivity].
    rewrite bind_lift. cbv beta.
    apply Exists_cons in Hex as [Hex|Hex]; [congruence|].
    apply (IH _ _ _ H Hb); [simpl in Hn; lia|exact Hex].
Qed.

Lemma read_lnp_loop_app data o sm k j m p :
  read_lnp_loop data o sm (k + j) m p =
  match read_lnp_loop data o sm k m p with
  | Ret (m', p') => read_lnp_loop data o sm j m' p'
  | Raise e => Raise e
  end.
Proof.
  revert m p. induction k as [|k IH]; intros m p; [done|].
  cbn [Nat.add read_lnp_loop]. unfold io_bind, io_lift, f_tell, f_read, f_seek.
  repeat (io_step; try done); try apply IH.
Qed.

(** A record whose field addresses are not all in the pool. *)
Lemma read_lnp_record_missing data o sm j m p c q addrs rest rest' :
  unread data p = int_bytes 8 o c ++ int_bytes 8 o q ++ rest ->
  c < 2 ^ 64 -> q < 2 ^ 63 ->
  unread data q = concat (map (int_bytes 8 o) addrs) ++ rest' ->
  Forall (fun a => a < 2 ^ 64) addrs ->
  (length addrs <= N.to_nat c)%nat ->
  Exists (fun a => sm !! a = None) addrs ->
  read_lnp_loop data o sm (S j) m p = Raise KeyError.
Proof.
  intros H Hc Hq Hf Hb Hn Hex. cbn [read_lnp_loop].
  rewrite bind_tell. read_next H. unfold unpack_Q.
  rewrite unpack_int_bytes by (change (8 * N.of_nat 8) with 64; lia).
  rewrite bind_lift. cbv beta. read_next H.
  rewrite unpack_int_bytes by (change (8 * N.of_nat 8) with 64; lia).
  rewrite bind_lift. cbv beta. rewrite bind_seek by exact Hq.
  unfold io_bind at 1.
  by rewrite (read_lnp_fields_missing _ _ _ _ _ _ _ _ Hf Hb Hn Hex).
Qed.

(** C4, as the code has it: a stream that is well formed up to a LineOrder
    entry, or up to a field address of a LineIndex record, whose address is
    no key of the map decoded before, is not decoded: the dict lookup raises
    [KeyError], which [read_csb] lets escape; it returns neither a table nor
    one of its error kinds. *)
Theorem absent_address :
  (forall data o counts sm lm p1 p2 bl n addrs rest v,
     declared data = Some (o, counts) ->
     read_strp data o 24 = Ret ((Some sm, SUCCESS), p1) ->
     read_lnp data o sm p1 = Ret ((Some lm, SUCCESS), p2) ->
     unread data p2 =
       magic_LNT ++ int_bytes 4 o bl ++ int_bytes 8 o n
       ++ concat (map (int_bytes 8 o) addrs) ++ rest ->
     bl < 2 ^ 32 -> n < 2 ^ 64 ->
     (length addrs <= N.to_nat n)%nat ->
     Forall (fun a => a < 2 ^ 64) addrs ->
     Exists (fun a => lm !! a = None) addrs ->
     read_csb data v = Raise KeyError) /\
  (forall data o counts sm p1 bl n k m p c q addrs rest rest1 rest2 v,
     declared data = Some (o, counts) ->
     read_strp data o 24 = Ret ((Some sm, SUCCESS), p1) ->
     unread data p1 = magic_LNP ++ int_bytes 4 o bl ++ int_bytes 8 o n ++ rest ->
     bl < 2 ^ 32 -> n < 2 ^ 64 ->
     (k < N.to_nat n)%nat ->
     read_lnp_loop data o sm k ∅ (p1 + 16) = Ret (m, p) ->
     unread data p = int_bytes 8 o c ++ int_bytes 8 o q ++ rest1 ->
     c < 2 ^ 64 -> q < 2 ^ 63 ->
     unread data q = concat (map (int_bytes 8 o) addrs) ++ rest2 ->
     (length addrs <= N.to_nat c)%nat ->
     Forall (fun a => a < 2 ^ 64) addrs ->
     Exists (fun a => sm !! a = None) addrs ->
     read_csb data v = Raise KeyError).
Proof.
  split.
  - intros data o [[tf mc] tl] sm lm p1 p2 bl n addrs rest v
      Hd Hs Hl H Hbl Hn Hlen Hb Hex.
    rewrite (read_csb_declared _ _ _ _ _ _ Hd). unfold read_blocks.
    rewrite Hs, Hl.
    assert (read_lnt data o lm p2 = Raise KeyError) as ->; [|reflexivity].
    unfold read_lnt. rewrite bind_tell. read_next H.
    destruct (decide (magic_LNT <> magic_LNT)) as [?|_]; [done|].
    read_next H. unfold unpack_I.
    rewrite unpack_int_bytes by exact Hbl.
    rewrite bind_lift. cbv beta zeta. read_next H. unfold unpack_Q.
    rewrite unpack_int_bytes by exact Hn.
    rewrite bind_lift. cbv beta. unfold io_bind at 1.
    by rewrite (read_lnt_loop_missing _ _ _ _ _ _ _ _ H Hb Hlen Hex).
  - intros data o [[tf mc] tl] sm p1 bl n k m p c q addrs rest rest1 rest2 v
      Hd Hs H Hbl Hn Hk Hloop Hp Hc Hq Hf Hlen Hb Hex.
    rewrite (read_csb_declared _ _ _ _ _ _ Hd). unfold read_blocks.
    rewrite Hs.
    assert (read_lnp data o sm p1 = Raise KeyError) as ->; [|reflexivity].
    unfold read_lnp. rewrite bind_tell. read_next H.
    destruct (decide (magic_LNP <> magic_LNP)) as [?|_]; [done|].
    read_next H. unfold unpack_I.
    rewrite unpack_int_bytes by exact Hbl.
    rewrite bind_lift. cbv beta zeta. read_next H. unfold unpack_Q.
    rewrite unpack_int_bytes by exact Hn.
    rewrite bind_lift. cbv beta. unfold io_bind at 1.
    rewrite !len_int_bytes. change (len magic_LNP) with 4.
    replace (p1 + 4 + N.of_nat 4 + N.of_nat 8) with (p1 + 16) by lia.
    replace (N.to_nat n) with (k + S (N.to_nat n - S k))%nat by lia.
    rewrite read_lnp_loop_app, Hloop.
    by rewrite (read_lnp_record_missing _ _ _ _ _ _ _ _ _ _ _
                  Hp Hc Hq Hf Hb Hlen Hex).
Qed.

Lemma absent_address_witness :
  read_csb stream_dangling_line true = Raise KeyError /\
  read_csb stream_dangling_field true = Raise KeyError.
Proof.
  split.
  - refine (proj1 absent_address stream_dangling_line LittleEndian (3, 2, 2)
              (pool_map 40 (get_unique_strs table_ab) ∅)
              (record_map 60 table_ab ∅) 44 116 32 2 [61; 92] [] true
              _ _ _ _ _ _ _ _ _).
    + vm_compute. reflexivity.
    + vm_compute. reflexivity.
    + vm_compute. reflexivity.
    + vm_compute. reflexivity.
    + reflexivity.
    + reflexivity.
    + vm_compute. lia.
    + repeat constructor.
    + apply Exists_cons_hd. vm_compute. reflexivity.
  - refine (proj2 absent_address stream_dangling_field LittleEndian (3, 2, 2)
              (pool_map 40 (get_unique_strs table_ab) ∅)
              44 72 2 0%nat ∅ 60 2 76 [41; 42]
              (drop 60 stream_dangling_field) (drop 76 stream_dangling_field)
              (drop 92 stream_dangling_field) true
              _ _ _ _ _ _ _ _ _ _ _ _ _ _).
    + vm_compute. reflexivity.
    + vm_compute. reflexivity.
    + vm_compute. reflexivity.
    + reflexivity.
    + reflexivity.
    + vm_compute. lia.
    + reflexivity.
    + vm_compute. reflexivity.
    + reflexivity.
    + reflexivity.
    + vm_compute. reflexivity.
    + vm_compute. lia.
    + repeat constructor.
    + apply Exists_cons_hd. vm_compute. reflexivity.
Defined.

(** C4, as stated, fails: with a LineOrder entry, or a field address, that
    leads nowhere, [read_csb] answers with no [ReadError] at all. *)
Lemma absent_address_counterexample :
  (read_csb stream_dangling_line true = Raise KeyError /\
   forall r e, read_csb stream_dangling_line true <> Ret (r, e)) /\
  (read_csb stream_dangling_field true = Raise KeyError /\
   forall r e, read_csb stream_dangling_field true <> Ret (r, e)).
Proof.
  assert (H1 : read_csb stream_dangling_line true = Raise KeyError)
    by (vm_compute; reflexivity).
  assert (H2 : read_csb stream_dangling_field true = Raise KeyError)
    by (vm_compute; reflexivity).
  split; (split; [assumption|]); intros r e; congruence.
Qed.

(** ** The example of the specification *)

(** The little-endian encoding of [[["a","b"],["a"]]], byte by byte: the
    header with the counts 3, 2, 2; the pool of 20 bytes with [a] at 40 and
    [b] at 42; the LineIndex block of 72 bytes with the records at 60 (two
    fields) and 92 (one field); the LineOrder block of 32 bytes with the
    entries 60 and 92. *)
Example encoding_table_ab :
  map Byte.to_N (encoding table_ab LittleEndian) =
  [67; 83; 66; 32; 255; 254; 0; 1; 255; 255; 0; 0;
   3; 0; 0; 0; 2; 0; 0; 0; 2; 0; 0; 0;
   83; 84; 82; 80; 20; 0; 0; 0; 2; 0; 0; 0; 0; 0; 0; 0; 97; 0; 98; 0;
   76; 78; 80; 32; 72; 0; 0; 0; 2; 0; 0; 0; 0; 0; 0; 0;
   2; 0; 0; 0; 0; 0; 0; 0; 76; 0; 0; 0; 0; 0; 0; 0;
   40; 0; 0; 0; 0; 0; 0; 0; 42; 0; 0; 0; 0; 0; 0; 0;
   1; 0; 0; 0; 0; 0; 0; 0; 108; 0; 0; 0; 0; 0; 0; 0;
   40; 0; 0; 0; 0; 0; 0; 0;
   76; 78; 84; 32; 32; 0; 0; 0; 2; 0; 0; 0; 0; 0; 0; 0;
   60; 0; 0; 0; 0; 0; 0; 0; 92; 0; 0; 0; 0; 0; 0; 0].
Proof. vm_compute. reflexivity. Qed.

Example decoding_table_ab :
  read_csb (encoding table_ab LittleEndian) true = Ret (Some table_ab, SUCCESS).
Proof. vm_compute. reflexivity. Qed.

(** * Further properties of the codec *)

(** ** What [read_csb] answers *)

Lemma read_csb_io_answers data v p r e q :
  read_csb_io data v p = Ret ((r, e), q) ->
  (is_Some r /\ e = SUCCESS) \/ (r = None /\ e <> SUCCESS).
Proof.
  unfold read_csb_io, io_bind, io_lift, io_ret.
  intros H. repeat (io_step; simplify_eq; try done);
    repeat match goal with
    | H : read_strp _ _ _ = Ret _ |- _ => apply read_strp_answers in H
    | H : read_lnp _ _ _ _ = Ret _ |- _ => apply read_lnp_answers in H
    | H : read_lnt _ _ _ _ = Ret _ |- _ => apply read_lnt_answers in H
    | H : validate _ _ _ _ = _ |- _ => apply validate_answers in H
    end;
    unfold is_consistency_error in *;
    try (right; split; [reflexivity|discriminate]);
    try (left; split; [eexists; reflexivity|reflexivity]).
  all: intuition (subst; try discriminate; eauto).
  all: try (right; split; [reflexivity|]; intuition (subst; discriminate)).
  all: exfalso;
    match goal with H : is_Some None |- _ => by destruct H end.
Qed.

(** X1: The two components of the answer of [read_csb] are never both absent
    and never both present: a table comes with [SUCCESS], and no table
    comes with one of the eight errors, whose value, the exit code of the
    command line, is between 1 and 8. *)
Theorem read_csb_answers data v r e :
  read_csb data v = Ret (r, e) ->
  (is_Some r /\ e = SUCCESS) \/
  (r = None /\ e <> SUCCESS /\ 1 <= ReadError_value e <= 8).
Proof.
  unfold read_csb.
  destruct (read_csb_io data v 0) as [[[r' e'] q]|] eqn:E; [|discriminate].
  intros [= -> ->]. apply read_csb_io_answers in E as [H|[H1 H2]]; [by left|].
  right. split_and!; [done|done| |]; destruct e; simpl; try lia; done.
Qed.

(** * CSV text *)

Lemma split_from_ne sep piece s : split_from sep piece s <> [].
Proof.
  revert piece. induction s as [|c s IH]; intros piece; simpl; [done|].
  destruct (decide (c = sep)); [done|apply IH].
Qed.

Lemma join_split_from sep piece s :
  join [sep] (split_from sep piece s) = piece ++ s.
Proof.
  revert piece. induction s as [|c s IH]; intros piece; cbn [split_from].
  - simpl. by rewrite app_nil_r.
  - destruct (decide (c = sep)) as [->|Hc].
    + specialize (IH []). pose proof (split_from_ne sep [] s) as Hne.
      destruct (split_from sep [] s) as [|p l]; [done|].
      change (join [sep] (piece :: p :: l))
        with (piece ++ [sep] ++ join [sep] (p :: l)).
      by rewrite IH.
    + rewrite IH. by rewrite <- app_assoc.
Qed.

Lemma join_split sep s : join [sep] (split sep s) = s.
Proof. apply join_split_from. Qed.



Lemma split_from_Forall (P : N -> Prop) sep piece s :
  Forall P piece -> Forall P s -> Forall (Forall P) (split_from sep piece s).
Proof.
  revert piece. induction s as [|c s IH]; intros piece Hp Hs; simpl.
  - by constructor.
  - apply Forall_cons in Hs as [Hc Hs]. destruct (decide (c = sep)).
    + constructor; [done|]. by apply IH.
    + apply IH; [|done]. apply Forall_app. by split; [|constructor].
Qed.


Lemma read_csv_loop_map pieces lines :
  read_csv_loop pieces lines = lines ++ map (split comma) pieces.
Proof.
  revert lines. induction pieces as [|p ps IH]; intros lines; simpl.
  - by rewrite app_nil_r.
  - rewrite IH. by rewrite <- app_assoc.
Qed.

Lemma read_csv_map text :
  read_csv text = map (split comma) (split newline text).
Proof. unfold read_csv. by rewrite read_csv_loop_map. Qed.


Lemma write_csv_map_split pieces :
  write_csv (map (split comma) pieces) = join [newline] pieces.
Proof.
  unfold write_csv. rewrite map_map. f_equal.
  rewrite <- (map_id pieces) at 2. apply map_ext. intros line. apply join_split.
Qed.

(** X2: Writing what [read_csv] returned gives back the text, whatever the
    text. *)
Theorem write_read_csv text : write_csv (read_csv text) = text.
Proof. rewrite read_csv_map, write_csv_map_split. apply join_split. Qed.




(** * CSV to CSB and back *)

Lemma read_csv_is_text text : is_text text -> table_is_text (read_csv text).
Proof.
  intros H. rewrite read_csv_map. apply Forall_map, Forall_forall.
  intros line Hl. apply split_from_Forall; [constructor|].
  pose proof (split_from_Forall _ newline [] text (Forall_nil_2 _) H) as Hs.
  by apply (proj1 (Forall_forall _ _) Hs).
Qed.

(** X4: A CSV text of Unicode scalar values without U+0000, read by
    [read_csv], encoded by [write_csb], decoded by [read_csb] with
    validation and written by [write_csv], comes back unchanged, when the
    sizes fit the format. *)
Theorem csv_csb_csv text o :
  is_text text -> fits (read_csv text) o ->
  exists out lines,
    write_csb (read_csv text) o = Ret out /\
    read_csb out true = Ret (Some lines, SUCCESS) /\
    write_csv lines = text.
Proof.
  intros Ht Hf. exists (layout (read_csv text) o), (read_csv text).
  pose proof (read_csv_is_text _ Ht) as Htt.
  split; [by apply write_csb_fits|].
  split; [|rewrite read_csv_map, write_csv_map_split; apply join_split].
  rewrite read_layout; [|by apply table_is_text_no_nul|done].
  by rewrite lossy_table_text.
Qed.

Lemma csv_csb_csv_witness :
  exists out lines,
    write_csb (read_csv text_ab) BigEndian = Ret out /\
    read_csb out true = Ret (Some lines, SUCCESS) /\
    write_csv lines = text_ab.
Proof.
  apply csv_csb_csv.
  - unfold is_text, is_scalar. repeat constructor; vm_compute; try discriminate;
      left; reflexivity.
  - vm_compute. repeat split; reflexivity.
Defined.

(** * File names *)

Lemma endswith_spec s x : endswith s x = true <-> exists k, s = k ++ x.
Proof.
  unfold endswith. rewrite bool_decide_eq_true. split.
  - intros H. exists (take (length s - length x) s).
    rewrite <- H at 2. by rewrite take_drop.
  - intros [k ->]. rewrite length_app.
    replace (length k + length x - length x)%nat with (length k) by lia.
    by rewrite drop_app_length.
Qed.

Lemma endswith_app k x : endswith (k ++ x) x = true.
Proof. apply endswith_spec. by exists k. Qed.

Lemma endswith_false s x : endswith s x = false <-> ~ exists k, s = k ++ x.
Proof.
  rewrite <- endswith_spec. destruct (endswith s x); split; done.
Qed.

Lemma endswith_suffix s x y :
  length x = length y -> x <> y -> endswith (s ++ x) y = false.
Proof.
  intros Hl Hne. apply endswith_false. intros [k H].
  apply app_inj_2 in H as [_ H]; done.
Qed.

Lemma drop_last_app k x : drop_last (length x) (k ++ x) = k.
Proof.
  unfold drop_last. rewrite length_app.
  replace (length k + length x - length x)%nat with (length k) by lia.
  by rewrite take_app_length.
Qed.

Lemma get_csv_name_fixed filename :
  endswith filename (str ".csv") = true -> get_csv_name filename = filename.
Proof. unfold get_csv_name. by intros ->. Qed.

Lemma get_csv_name_ends filename :
  endswith (get_csv_name filename) (str ".csv") = true.
Proof.
  unfold get_csv_name.
  destruct (endswith filename (str ".csv")) eqn:E1; [done|].
  destruct (endswith filename (str ".csv.csb")) eqn:E2.
  { apply endswith_spec in E2 as [k ->].
    change (str ".csv.csb") with (str ".csv" ++ str ".csb").
    rewrite app_assoc. rewrite (drop_last_app _ (str ".csb")).
    apply endswith_app. }
  destruct (endswith filename (str ".csb")) eqn:E3.
  { apply endswith_spec in E3 as [k ->].
    change (str ".csb") with (str ".cs" ++ str "b").
    rewrite app_assoc. rewrite (drop_last_app _ (str "b")).
    rewrite <- app_assoc. apply endswith_app. }
  apply endswith_app.
Qed.

(** X5: The name that [decode] gives its output always ends with [.csv], and
    naming is idempotent. *)
Theorem get_csv_name_csv filename :
  endswith (get_csv_name filename) (str ".csv") = true /\
  get_csv_name (get_csv_name filename) = get_csv_name filename.
Proof.
  split; [apply get_csv_name_ends|].
  apply get_csv_name_fixed, get_csv_name_ends.
Qed.

Lemma get_csb_name_ends filename :
  endswith (get_csb_name filename) (str ".csb") = true.
Proof.
  unfold get_csb_name.
  destruct (endswith filename (str ".csb")) eqn:E; [done|apply endswith_app].
Qed.

(** X6: The name that [encode] gives its output always ends with [.csb], and
    naming is idempotent. *)
Theorem get_csb_name_csb filename :
  endswith (get_csb_name filename) (str ".csb") = true /\
  get_csb_name (get_csb_name filename) = get_csb_name filename.
Proof.
  split; [apply get_csb_name_ends|].
  unfold get_csb_name at 1. by rewrite get_csb_name_ends.
Qed.

(** X7: Decoding what was encoded restores the name of the CSV file:
    [get_csv_name] undoes [get_csb_name] up to [get_csv_name] itself, so a
    name that ends with [.csv] comes back unchanged.  The other way round
    the extension piles up: the CSB name of a CSV name is that name with
    [.csb] appended. *)
Theorem csv_name_of_csb_name filename :
  get_csv_name (get_csb_name filename) = get_csv_name filename /\
  get_csb_name (get_csv_name filename) = get_csv_name filename ++ str ".csb".
Proof.
  split.
  - unfold get_csb_name.
    destruct (endswith filename (str ".csb")) eqn:E; [done|].
    unfold get_csv_name.
    rewrite (endswith_suffix filename (str ".csb") (str ".csv")) by done.
    destruct (endswith filename (str ".csv")) eqn:E1.
    + apply endswith_spec in E1 as [k ->].
      rewrite <- app_assoc.
      change (str ".csv" ++ str ".csb") with (str ".csv.csb").
      rewrite endswith_app.
      change (str ".csv.csb") with (str ".csv" ++ str ".csb").
      rewrite app_assoc. apply (drop_last_app _ (str ".csb")).
    + assert (endswith (filename ++ str ".csb") (str ".csv.csb") = false) as ->.
      { apply endswith_false. intros [k H].
        change (str ".csv.csb") with (str ".csv" ++ str ".csb") in H.
        rewrite app_assoc in H. apply app_inj_2 in H as [-> _]; [|done].
        by rewrite endswith_app in E1. }
      rewrite endswith_app.
      assert (endswith filename (str ".csv.csb") = false) as ->.
      { apply endswith_false. intros [k ->].
        change (str ".csv.csb") with (str ".csv" ++ str ".csb") in E.
        by rewrite app_assoc, endswith_app in E. }
      change (str ".csb") with (str ".cs" ++ str "b") at 1.
      rewrite app_assoc, (drop_last_app _ (str "b")), <- app_assoc.
      by rewrite E.
  - pose proof (get_csv_name_ends filename) as H.
    apply endswith_spec in H as [k ->]. unfold get_csb_name.
    by rewrite (endswith_suffix k (str ".csv") (str ".csb")).
Qed.

(** * The selection of the input files *)

Lemma list_remove_first x kept rest :
  x ∉ kept -> list_remove x (kept ++ x :: rest) = Ret (kept ++ rest).
Proof.
  induction kept as [|y kept IH]; intros Hx; simpl.
  - by destruct (decide (x = x)).
  - apply not_elem_of_cons in Hx as [Hxy Hx].
    destruct (decide (y = x)); [congruence|]. by rewrite IH.
Qed.

Lemma ignore_loop_filter d kept rest :
  Forall (fun f => endswith f (extension d) = true) kept ->
  ignore_loop d rest (kept ++ rest) =
  Ret (kept ++ filter (fun f => endswith f (extension d) = true) rest).
Proof.
  revert kept. induction rest as [|file rest IH]; intros kept Hk; [done|].
  cbn [ignore_loop]. rewrite filter_cons.
  assert (forall b : bool,
    endswith file (extension d) = b ->
    (if negb b
     then let+ new_files := list_remove file (kept ++ file :: rest) in
          ignore_loop d rest new_files
     else ignore_loop d rest (kept ++ file :: rest)) =
    Ret (kept ++ (if decide (b = true)
                  then file :: filter (fun f => endswith f (extension d) = true) rest
                  else filter (fun f => endswith f (extension d) = true) rest)))
    as Hstep.
  { intros [] Hb; simpl.
    - rewrite (cons_middle file), app_assoc, IH; [by rewrite <- app_assoc|].
      apply Forall_app. split; [done|by constructor].
    - rewrite list_remove_first; [by apply IH|].
      intros Hin. apply (proj1 (Forall_forall _ _) Hk) in Hin. congruence. }
  specialize (Hstep _ eq_refl).
  destruct d; simpl in *; rewrite Hstep; f_equal; f_equal;
    by repeat case_decide.
Qed.

(** X8: With [--ignore], the files passed on are the given files that end with
    the extension of the action, in the given order and as often as given;
    the calls of [list.remove] never raise [ValueError].  Without
    [--ignore] all files are passed on. *)
Theorem select_files_filter ignore d all_files :
  select_files ignore d all_files =
  Ret (if ignore
       then filter (fun f => endswith f (extension d) = true) all_files
       else all_files).
Proof.
  unfold select_files. destruct ignore; [|done].
  apply (ignore_loop_filter d []). constructor.
Qed.

(** * The command line *)

Lemma get_error_text_Some err :
  err <> SUCCESS -> is_Some (get_error_text err).
Proof. by destruct err; [done|..]; intros _; eexists. Qed.

Lemma read_csb_table_or_error data v r e :
  read_csb data v = Ret (r, e) ->
  (is_Some r /\ e = SUCCESS) \/ (r = None /\ e <> SUCCESS).
Proof.
  unfold read_csb.
  destruct (read_csb_io data v 0) as [[[r' e'] q]|] eqn:E; [|discriminate].
  intros [= -> ->]. by apply read_csb_io_answers in E.
Qed.

Lemma ReadError_value_range e : e <> SUCCESS -> 1 <= ReadError_value e <= 8.
Proof. destruct e; simpl; intros H; try lia. done. Qed.

Section Decode_properties.

Context {world : Type}.
Variable read_bytes : pystr -> world -> option (list byte).
Variable write_text : pystr -> pystr -> world -> option world.
Variable print : pystr -> world -> world.
Variable basename : pystr -> pystr.
Variable path_join : pystr -> pystr -> pystr.
Variable abspath : pystr -> pystr.

Lemma decode_app pre post outdir skip silent w :
  decode read_bytes write_text print basename path_join abspath
    (pre ++ post) outdir skip silent w =
  match decode read_bytes write_text print basename path_join abspath
          pre outdir skip silent w with
  | (Returned, w1) =>
    decode read_bytes write_text print basename path_join abspath
      post outdir skip silent w1
  | r => r
  end.
Proof.
  revert w. induction pre as [|file pre IH]; intros w; [done|].
  cbn [app decode].
  destruct (read_bytes file w) as [data|]; [|done].
  destruct (read_csb data (negb skip)) as [[[lines|] err]|e]; [|done|done].
  destruct (write_text _ _ w) as [w1|]; [|done].
  apply IH.
Qed.

(** X9: A call of [decode] that leaves through [exit] does so with a status
    from 1 to 8, the value of the error of a file of the list that
    [read_csb] refused, and unless silenced its last act was to print the
    text of that error, never [None].  So a call never exits with status
    0: it ends well only by returning. *)
Theorem decode_exit_status files outdir skip silent w c w' :
  decode read_bytes write_text print basename path_join abspath
    files outdir skip silent w = (Exited c, w') ->
  1 <= c <= 8 /\
  exists file w0 data err text,
    file ∈ files /\
    read_bytes file w0 = Some data /\
    read_csb data (negb skip) = Ret (None, err) /\
    c = ReadError_value err /\
    get_error_text err = Some text /\
    w' = if silent then w0 else print text w0.
Proof.
  revert w. induction files as [|file rest IH]; intros w; [done|].
  cbn [decode].
  destruct (read_bytes file w) as [data|] eqn:Er; [|done].
  destruct (read_csb data (negb skip)) as [[[lines|] err]|e] eqn:Ec;
    [|clear IH|done].
  - destruct (write_text _ _ w) as [w1|]; [|done].
    intros H. apply IH in H as (Hc & f & w0 & d & err' & text & Hin & H).
    split; [done|]. exists f, w0, d, err', text. split; [by right|done].
  - intros [= <- <-].
    destruct (read_csb_table_or_error _ _ _ _ Ec) as [[[? [=]] _]|(_ & Hne)].
    split; [by apply ReadError_value_range|].
    destruct (get_error_text_Some _ Hne) as [text Ht].
    exists file, w, data, err, text. rewrite Ht.
    split; [by left|]. by destruct silent.
Qed.

(** X10: A call of [decode] that returns has decoded every file of the list:
    each was opened, and [read_csb] gave a table for it. *)
Theorem decode_returned files outdir skip silent w w' :
  decode read_bytes write_text print basename path_join abspath
    files outdir skip silent w = (Returned, w') ->
  Forall (fun file =>
            exists w0 data lines,
              read_bytes file w0 = Some data /\
              read_csb data (negb skip) = Ret (Some lines, SUCCESS))
         files.
Proof.
  revert w. induction files as [|file rest IH]; intros w; [by constructor|].
  cbn [decode].
  destruct (read_bytes file w) as [data|] eqn:Er; [|done].
  destruct (read_csb data (negb skip)) as [[[lines|] err]|e] eqn:Ec;
    [|done|done].
  destruct (write_text _ _ w) as [w1|]; [|done].
  intros H. constructor; [|by eapply IH].
  exists w, data, lines. split; [done|].
  by destruct (read_csb_table_or_error _ _ _ _ Ec) as [[_ ->]|[[=] _]].
Qed.

(** X11: [decode] stops at the first file that [read_csb] refuses: the files
    before it have been decoded, the files after it are not touched, and
    the status is the value of the error. *)
Theorem decode_first_failure pre file post outdir skip silent w w1 data err :
  decode read_bytes write_text print basename path_join abspath
    pre outdir skip silent w = (Returned, w1) ->
  read_bytes file w1 = Some data ->
  read_csb data (negb skip) = Ret (None, err) ->
  decode read_bytes write_text print basename path_join abspath
    (pre ++ file :: post) outdir skip silent w =
  (Exited (ReadError_value err),
   if silent then w1 else print_optional print (get_error_text err) w1).
Proof.
  intros Hpre Hr Hc. rewrite decode_app, Hpre. cbn [decode].
  rewrite Hr, Hc. by destruct silent.
Qed.

End Decode_properties.

(** X12: With [silent] set, [decode] prints nothing: what it does is the same
    whatever [print] would do. *)
Theorem decode_silent {world} read_bytes write_text (print1 print2 : pystr -> world -> world)
    basename path_join abspath files outdir skip w :
  decode read_bytes write_text print1 basename path_join abspath
    files outdir skip true w =
  decode read_bytes write_text print2 basename path_join abspath
    files outdir skip true w.
Proof.
  revert w. induction files as [|file rest IH]; intros w; [done|].
  cbn [decode].
  destruct (read_bytes file w) as [data|]; [|done].
  destruct (read_csb data (negb skip)) as [[[lines|] err]|e]; [|done|done].
  destruct (write_text _ _ w) as [w1|]; [|done].
  apply IH.
Qed.


Lemma decode_exit_status_witness :
  1 <= 1 <= 8 /\
  exists file w0 data err text,
    file ∈ example_files /\
    example_read file w0 = Some data /\
    read_csb data (negb false) = Ret (None, err) /\
    1 = ReadError_value err /\
    get_error_text err = Some text /\
    example_log
      ++ [Printed (str "Invalid CSB file magic, are you sure this a csb file?")]
    = if false then w0 else example_print text w0.
Proof.
  apply (decode_exit_status example_read example_write example_print
           example_basename example_join id example_files (str "out")
           false false []).
  vm_compute. reflexivity.
Defined.

Lemma decode_returned_witness :
  Forall (fun file =>
            exists w0 data lines,
              example_read file w0 = Some data /\
              read_csb data (negb false) = Ret (Some lines, SUCCESS))
         [str "in/a.csb"].
Proof.
  apply (decode_returned example_read example_write example_print
           example_basename example_join id [str "in/a.csb"] (str "out")
           false false [] example_log).
  vm_compute. reflexivity.
Defined.

Lemma decode_first_failure_witness :
  example_decode example_files false =
  (Exited 1,
   example_log
     ++ [Printed (str "Invalid CSB file magic, are you sure this a csb file?")]).
Proof.
  refine (decode_first_failure example_read example_write example_print
            example_basename example_join id [str "in/a.csb"]
            (str "in/b.csb") [str "in/c.csb"] (str "out") false false
            [] example_log bad_magic INVALID_CSB_MAGIC _ _ _);
    vm_compute; reflexivity.
Defined.

(** * Bytes after the end of a stream

    A reader that returns with a table has read every byte it asked for, so
    it returns the same when bytes are appended to the stream. *)

Lemma bind_inv {A B} (m : io A) (k : A -> io B) p r :
  io_bind m k p = Ret r -> exists a p', m p = Ret (a, p') /\ k a p' = Ret r.
Proof. unfold io_bind. destruct (m p) as [[a p']|]; [eauto|discriminate]. Qed.

Lemma bind_step {A B} (m : io A) (k : A -> io B) p a p' :
  m p = Ret (a, p') -> io_bind m k p = k a p'.
Proof. unfold io_bind. by intros ->. Qed.

Lemma unread_app data ext p :
  unread (data ++ ext) p = unread data p ++ drop (N.to_nat p - length data) ext.
Proof. rewrite !unread_drop. apply drop_app. Qed.

Lemma f_read_ext data ext n p :
  length (take n (unread data p)) = n ->
  f_read (data ++ ext) n p = f_read data n p.
Proof.
  intros H. unfold f_read. rewrite unread_app, take_app_le; [done|].
  rewrite length_take in H. lia.
Qed.

Lemma f_read_then_full data n p bs q :
  f_read data n p = Ret (bs, q) -> unread data q <> [] -> length bs = n.
Proof.
  unfold f_read. intros [= <- <-] Hq.
  destruct (decide (length (take n (unread data p)) = n)) as [|Hn]; [done|].
  exfalso. apply Hq. rewrite length_take in Hn.
  rewrite take_ge by lia. rewrite !unread_drop.
  apply drop_ge. unfold len. rewrite length_drop. lia.
Qed.

Lemma read_int_ext data ext w o p {B} (k : N -> io B) r :
  io_bind (f_read data w) (fun raw => io_bind (io_lift (unpack w o raw)) k) p
    = Ret r ->
  exists x,
    unpack w o (take w (unread data p)) = Ret x /\
    k x (p + N.of_nat w) = Ret r /\
    forall B' (k' : N -> io B'),
      io_bind (f_read (data ++ ext) w)
        (fun raw => io_bind (io_lift (unpack w o raw)) k') p
      = k' x (p + N.of_nat w).
Proof.
  intros H. apply bind_inv in H as (raw & p' & Hr & H).
  apply bind_inv in H as (x & p'' & Hx & H).
  unfold f_read in Hr. injection Hr as <- <-.
  unfold io_lift in Hx.
  destruct (unpack w o (take w (unread data p))) as [x'|] eqn:Hu; [|discriminate].
  injection Hx as <- <-.
  pose proof (unpack_Ret_length _ _ _ _ Hu) as Hl.
  assert (len (take w (unread data p)) = N.of_nat w) as Hlen
    by (unfold len; by rewrite Hl).
  rewrite Hlen in H. exists x'. split; [done|]. split; [done|].
  intros B' k'. unfold io_bind at 1. rewrite f_read_ext by done.
  unfold f_read. rewrite Hlen. unfold io_bind, io_lift. by rewrite Hu.
Qed.

Lemma read_magic_ext data ext M p {A} (E : ReadError)
    (K : io (option A * ReadError)) x e q :
  length M = 4%nat ->
  io_bind (f_read data 4)
    (fun magic => if decide (magic <> M) then io_ret (None, E) else K) p
    = Ret ((Some x, e), q) ->
  K (p + 4) = Ret ((Some x, e), q) /\
  take 4 (unread data p) = M /\
  forall K' : io (option A * ReadError),
    io_bind (f_read (data ++ ext) 4)
      (fun magic => if decide (magic <> M) then io_ret (None, E) else K') p
    = K' (p + 4).
Proof.
  intros HM H. apply bind_inv in H as (raw & p' & Hr & H).
  unfold f_read in Hr. injection Hr as <- <-.
  destruct (decide (take 4 (unread data p) <> M)) as [|Hm]; [done|].
  destruct (decide (take 4 (unread data p) = M)) as [Hm'|]; [|done].
  assert (len (take 4 (unread data p)) = 4) as Hlen
    by (unfold len; by rewrite Hm', HM).
  rewrite Hlen in H. split; [done|]. split; [done|].
  intros K'. unfold io_bind. rewrite f_read_ext by (by rewrite Hm').
  unfold f_read. rewrite Hlen.
  by destruct (decide (take 4 (unread data p) <> M)).
Qed.

Lemma c_string_bytes_ext X Y bs :
  c_string_bytes X = Ret bs -> c_string_bytes (X ++ Y) = Ret bs.
Proof.
  revert bs. induction X as [|b X IH]; intros bs; simpl; [done|].
  destruct (decide (b = x00)); [done|].
  destruct (c_string_bytes X) as [bs'|]; [|done].
  intros [= <-]. by rewrite (IH bs').
Qed.

Lemma read_c_string_ext data ext p r :
  read_c_string data p = Ret r -> read_c_string (data ++ ext) p = Ret r.
Proof.
  unfold read_c_string. rewrite unread_app.
  destruct (c_string_bytes (unread data p)) as [bs|] eqn:E; [|done].
  by rewrite (c_string_bytes_ext _ _ _ E).
Qed.

Lemma read_strp_loop_ext data ext n m p r :
  read_strp_loop data n m p = Ret r ->
  read_strp_loop (data ++ ext) n m p = Ret r.
Proof.
  revert m p. induction n as [|n IH]; intros m p; [done|].
  cbn [read_strp_loop]. rewrite !bind_tell. intros H.
  apply bind_inv in H as (s & p' & Hs & H).
  rewrite (bind_step _ _ _ _ _ (read_c_string_ext _ ext _ _ Hs)). by apply IH.
Qed.

Lemma read_strp_ext data ext o p sm e q :
  read_strp data o p = Ret ((Some sm, e), q) ->
  read_strp (data ++ ext) o p = Ret ((Some sm, e), q).
Proof.
  unfold read_strp, unpack_I, unpack_Q. rewrite !bind_tell. intros H.
  apply (read_magic_ext _ ext) in H as (H & _ & ->); [|done].
  apply (read_int_ext _ ext) in H as (bl & _ & H & ->).
  apply (read_int_ext _ ext) in H as (n & _ & H & ->).
  apply bind_inv in H as (m & p' & Hm & H).
  by rewrite (bind_step _ _ _ _ _ (read_strp_loop_ext _ ext _ _ _ _ Hm)).
Qed.

Lemma read_lnp_fields_ext data ext o sm n line p r :
  read_lnp_fields data o sm n line p = Ret r ->
  read_lnp_fields (data ++ ext) o sm n line p = Ret r.
Proof.
  revert line p. induction n as [|n IH]; intros line p; [done|].
  cbn [read_lnp_fields]. unfold unpack_Q. intros H.
  apply (read_int_ext _ ext) in H as (a & _ & H & ->).
  apply bind_inv in H as (s & p' & Hs & H).
  rewrite (bind_step _ _ _ _ _ Hs). by apply IH.
Qed.

Lemma read_lnp_loop_ext data ext o sm n m p r :
  read_lnp_loop data o sm n m p = Ret r ->
  read_lnp_loop (data ++ ext) o sm n m p = Ret r.
Proof.
  revert m p. induction n as [|n IH]; intros m p; [done|].
  cbn [read_lnp_loop]. unfold unpack_Q. rewrite !bind_tell. intros H.
  apply (read_int_ext _ ext) in H as (c & _ & H & ->).
  apply (read_int_ext _ ext) in H as (a & _ & H & ->).
  apply bind_inv in H as (u & p' & Hu & H). rewrite (bind_step _ _ _ _ _ Hu).
  apply bind_inv in H as (l & p'' & Hl & H).
  rewrite (bind_step _ _ _ _ _ (read_lnp_fields_ext _ ext _ _ _ _ _ _ Hl)).
  by apply IH.
Qed.

Lemma read_lnp_ext data ext o sm p lm e q :
  read_lnp data o sm p = Ret ((Some lm, e), q) ->
  read_lnp (data ++ ext) o sm p = Ret ((Some lm, e), q).
Proof.
  unfold read_lnp, unpack_I, unpack_Q. rewrite !bind_tell. intros H.
  apply (read_magic_ext _ ext) in H as (H & _ & ->); [|done].
  apply (read_int_ext _ ext) in H as (bl & _ & H & ->).
  apply (read_int_ext _ ext) in H as (n & _ & H & ->).
  apply bind_inv in H as (m & p' & Hm & H).
  by rewrite (bind_step _ _ _ _ _ (read_lnp_loop_ext _ ext _ _ _ _ _ _ Hm)).
Qed.

Lemma read_lnt_loop_ext data ext o lm n lines p r :
  read_lnt_loop data o lm n lines p = Ret r ->
  read_lnt_loop (data ++ ext) o lm n lines p = Ret r.
Proof.
  revert lines p. induction n as [|n IH]; intros lines p; [done|].
  cbn [read_lnt_loop]. unfold unpack_Q. intros H.
  apply (read_int_ext _ ext) in H as (a & _ & H & ->).
  apply bind_inv in H as (s & p' & Hs & H).
  rewrite (bind_step _ _ _ _ _ Hs). by apply IH.
Qed.

Lemma read_lnt_ext data ext o lm p lines e q :
  read_lnt data o lm p = Ret ((Some lines, e), q) ->
  read_lnt (data ++ ext) o lm p = Ret ((Some lines, e), q).
Proof.
  unfold read_lnt, unpack_I, unpack_Q. rewrite !bind_tell. intros H.
  apply (read_magic_ext _ ext) in H as (H & _ & ->); [|done].
  apply (read_int_ext _ ext) in H as (bl & _ & H & ->).
  apply (read_int_ext _ ext) in H as (n & _ & H & ->).
  apply bind_inv in H as (m & p' & Hm & H).
  by rewrite (bind_step _ _ _ _ _ (read_lnt_loop_ext _ ext _ _ _ _ _ _ Hm)).
Qed.

(** ** What a successful [read_csb] has read *)

Lemma order_of_marker_length mk o : order_of_marker mk = Some o -> length mk = 2%nat.
Proof.
  unfold order_of_marker. repeat case_decide; intros; by subst.
Qed.

Lemma read_csb_success data v lines e :
  read_csb data v = Ret (Some lines, e) ->
  exists o tf mc tl,
    declared data = Some (o, (tf, mc, tl)) /\
    read_blocks data o = Ret (Some lines, SUCCESS) /\
    (24 <= length data)%nat.
Proof.
  unfold read_csb.
  destruct (read_csb_io data v 0) as [[r q]|] eqn:H; [|discriminate].
  intros [= ->]. unfold read_csb_io, unpack_I in H.
  apply (read_magic_ext _ []) in H as (H & Hmagic & _); [|done].
  apply bind_inv in H as (mk & p1 & Hmk & H).
  destruct (order_of_marker mk) as [o|] eqn:Ho; [|discriminate].
  pose proof (order_of_marker_length _ _ Ho) as Lmk.
  apply bind_inv in H as (rs & p2 & Hrs & H).
  apply (read_int_ext _ []) in H as (tf & Htf & H & _).
  apply (read_int_ext _ []) in H as (mc & Hmc & H & _).
  apply (read_int_ext _ []) in H as (tl & Htl & H & _).
  pose proof (unpack_Ret_length _ _ _ _ Htf) as Ltf.
  assert (length rs = 6%nat) as Lrs.
  { apply (f_read_then_full _ _ _ _ _ Hrs). intros E. by rewrite E in Ltf. }
  unfold f_read in Hmk, Hrs. injection Hmk as <- <-. injection Hrs as <- <-.
  unfold len in *. rewrite Lmk, Lrs in *.
  replace (0 + 4 + N.of_nat 2 + N.of_nat 6) with 12 in * by lia.
  replace (12 + N.of_nat 4) with 16 in * by lia.
  replace (16 + N.of_nat 4) with 20 in * by lia.
  replace (20 + N.of_nat 4) with 24 in * by lia.
  rewrite unread_drop in Hmagic, Ho, Htf, Hmc, Htl.
  change (N.to_nat 0) with 0%nat in Hmagic. rewrite drop_0 in Hmagic.
  change (N.to_nat (0 + 4)) with 4%nat in Ho.
  change (N.to_nat 12) with 12%nat in Htf.
  change (N.to_nat 16) with 16%nat in Hmc.
  change (N.to_nat 20) with 20%nat in Htl.
  pose proof (unpack_Ret_length _ _ _ _ Htl) as Ltl.
  rewrite length_take, length_drop in Ltl.
  apply bind_inv in H as ([[sm|] e1] & q1 & Hs & H); [|discriminate].
  apply bind_inv in H as ([[lm|] e2] & q2 & Hl & H); [|discriminate].
  apply bind_inv in H as ([[L|] e3] & q3 & Ht & H); [|discriminate].
  assert (L = lines) as ->.
  { destruct v; unfold io_ret in H; [|congruence].
    injection H as H _. apply validate_answers in H as [[[=] _]|[[=] _]]. done. }
  exists o, tf, mc, tl. split; [|split; [|lia]].
  - unfold declared, unpack_I. rewrite Hmagic, Ho, Htf, Hmc, Htl.
    by case_decide.
  - unfold read_blocks. by rewrite Hs, Hl, Ht.
Qed.

Lemma declared_ext data ext :
  (24 <= length data)%nat -> declared (data ++ ext) = declared data.
Proof.
  intros H. unfold declared.
  rewrite !(take_app_le data) by lia.
  rewrite !drop_app_le by lia.
  rewrite !(take_app_le (drop _ data)) by (rewrite length_drop; lia).
  done.
Qed.

Lemma read_blocks_ext data ext o lines :
  read_blocks data o = Ret (Some lines, SUCCESS) ->
  read_blocks (data ++ ext) o = Ret (Some lines, SUCCESS).
Proof.
  unfold read_blocks.
  destruct (read_strp data o 24) as [[[[sm|] e1] p1]|] eqn:Hs; try done.
  destruct (read_lnp data o sm p1) as [[[[lm|] e2] p2]|] eqn:Hl; try done.
  destruct (read_lnt data o lm p2) as [[[[L|] e3] p3]|] eqn:Ht; try done.
  intros [= ->].
  by rewrite (read_strp_ext _ ext _ _ _ _ _ Hs), (read_lnp_ext _ ext _ _ _ _ _ _ Hl),
    (read_lnt_ext _ ext _ _ _ _ _ _ Ht).
Qed.

(** X13: A stream that [read_csb] decodes to a table is decoded to the same
    table when bytes are appended: whatever follows the LineOrder block is
    never looked at. *)
Theorem read_csb_appended data ext v lines e :
  read_csb data v = Ret (Some lines, e) ->
  read_csb (data ++ ext) v = Ret (Some lines, e).
Proof.
  intros H. pose proof H as H0.
  apply read_csb_success in H as (o & tf & mc & tl & Hd & Hb & Hl).
  rewrite (read_csb_declared _ v _ _ _ _ Hd), Hb in H0.
  rewrite (read_csb_declared (data ++ ext) v o tf mc tl)
    by (by rewrite declared_ext).
  by rewrite (read_blocks_ext _ ext _ _ Hb).
Qed.

Lemma read_csb_appended_witness :
  read_csb (encoding table_ab LittleEndian ++ bad_magic) true
    = Ret (Some table_ab, SUCCESS).
Proof. apply read_csb_appended. vm_compute. reflexivity. Defined.

(** X14: A table that [read_csb] returns after validation agrees with the three
    counts of the header, whatever the stream. *)
Theorem validated_counts data lines e :
  read_csb data true = Ret (Some lines, e) ->
  exists o,
    declared data =
    Some (o, (total_fields_of lines, max_columns_of lines, total_lines_of lines)).
Proof.
  intros H. pose proof H as H0.
  apply read_csb_success in H as (o & tf & mc & tl & Hd & Hb & Hl).
  rewrite (read_csb_declared _ _ _ _ _ _ Hd), Hb, validate_spec in H0.
  repeat case_decide; try discriminate.
  exists o. rewrite Hd. by subst.
Qed.

Lemma validated_counts_witness :
  exists o,
    declared (encoding table_ab BigEndian) =
    Some (o, (total_fields_of table_ab, max_columns_of table_ab,
              total_lines_of table_ab)).
Proof. apply (validated_counts _ table_ab SUCCESS). vm_compute. reflexivity. Defined.

(** ** Truncated encodings *)

Lemma full_read_bound data n p :
  length (take n (unread data p)) = n -> (0 < n)%nat ->
  p + N.of_nat n <= len data.
Proof.
  rewrite unread_drop, length_take, length_drop. unfold len. lia.
Qed.

Lemma read_lnt_loop_full data o lm n acc p L q :
  read_lnt_loop data o lm n acc p = Ret (L, q) ->
  p <= len data -> p + 8 * N.of_nat n <= len data.
Proof.
  revert acc p. induction n as [|n IH]; intros acc p; [lia|].
  cbn [read_lnt_loop]. unfold unpack_Q. intros H Hp.
  apply (read_int_ext _ []) in H as (a & Ha & H & _).
  apply unpack_Ret_length, full_read_bound in Ha; [|lia].
  apply bind_inv in H as (s & p' & Hs & H).
  unfold io_lift in Hs. destruct (getitem lm a); [|discriminate].
  injection Hs as <- <-. apply IH in H; lia.
Qed.

Lemma read_lnt_full data o lm p L e q :
  read_lnt data o lm p = Ret ((Some L, e), q) ->
  exists n,
    unpack_Q o (take 8 (unread data (p + 8))) = Ret n /\
    p + 16 + 8 * n <= len data.
Proof.
  unfold read_lnt, unpack_I, unpack_Q. rewrite !bind_tell. intros H.
  apply (read_magic_ext _ []) in H as (H & _ & _); [|done].
  apply (read_int_ext _ []) in H as (bl & _ & H & _).
  apply (read_int_ext _ []) in H as (n & Hn & H & _).
  replace (p + 4 + N.of_nat 4) with (p + 8) in * by lia.
  exists n. split; [done|].
  apply bind_inv in H as (m & p' & Hm & _).
  apply unpack_Ret_length, full_read_bound in Hn; [|lia].
  apply read_lnt_loop_full in Hm; lia.
Qed.

(** X15: No proper prefix of an encoding decodes to a table: a file that was cut
    short makes [read_csb] return an error or raise, never return rows. *)
Theorem truncated_never_decodes t o out k v lines e :
  write_csb t o = Ret out -> (k < length out)%nat ->
  read_csb (take k out) v <> Ret (Some lines, e).
Proof.
  intros [Hf ->]%write_csb_iff Hk H.
  set (data := take k (layout t o)) in *.
  set (ext := drop k (layout t o)).
  assert (layout t o = data ++ ext) as Hout by (symmetry; apply take_drop).
  apply read_csb_success in H as (o' & tf & mc & tl & Hd & Hb & Hl).
  assert (o' = o) as ->.
  { rewrite <- (declared_ext _ ext), <- Hout, declared_layout in Hd by done.
    congruence. }
  unfold read_blocks in Hb.
  destruct (read_strp data o 24) as [[[[sm|] e1] p1]|] eqn:Hs; try done.
  destruct (read_lnp data o sm p1) as [[[[lm|] e2] p2]|] eqn:Hp; try done.
  destruct (read_lnt data o lm p2) as [[[[L|] e3] p3]|] eqn:Ht; try done.
  apply (read_strp_ext _ ext) in Hs. rewrite <- Hout in Hs.
  pose proof Hf as (_ & _ & _ & Hsb & _).
  destruct (read_strp_frame _ _ o t _ _ (unread_layout t o) (unread_layout t o) Hsb)
    as (sm' & Hs' & _).
  rewrite Hs' in Hs. injection Hs as <- <- <-.
  apply (read_lnp_ext _ ext) in Hp. rewrite <- Hout in Hp.
  destruct (read_lnp_frame _ _ o sm' t _ _ (unread_lnp_start t o)
              (unread_lnp_start t o) Hf) as [_ Hq].
  apply Hq in Hp. subst p2.
  apply read_lnt_full in Ht as (n & Hn & Hlen).
  assert (n = len t) as ->.
  { pose proof (unpack_Ret_length _ _ _ _ Hn) as L8.
    assert (take 8 (unread (layout t o) (lnt_start o t + 8))
            = take 8 (unread data (lnt_start o t + 8))) as E.
    { rewrite Hout, unread_app, take_app_le; [done|].
      rewrite length_take in L8. lia. }
    rewrite <- E in Hn.
    pose proof (unread_lnt_start t o) as Hu.
    unfold lnt_block, block, lnt_payload in Hu. rewrite <- !app_assoc in Hu.
    apply unread_advance in Hu. apply unread_advance in Hu.
    rewrite !len_int_bytes in Hu. unfold magic_LNT, len in Hu. simpl length in Hu.
    replace (lnt_start o t + N.of_nat 4 + N.of_nat 4)
      with (lnt_start o t + 8) in Hu by lia.
    rewrite Hu in Hn. rewrite take_app_length' in Hn by (by rewrite length_int_bytes).
    unfold unpack_Q in Hn. rewrite unpack_int_bytes in Hn; [by injection Hn as <-|].
    pose proof Hf as (_ & _ & Htl & _). unfold total_lines_of, len in Htl.
    change (2 ^ (8 * N.of_nat 8)) with (2 ^ 64). lia. }
  pose proof (len_layout t o) as Hlay. rewrite len_lnt_block in Hlay.
  assert (len data = N.of_nat k) as Hdk.
  { unfold len, data. rewrite length_take. lia. }
  unfold len in Hlay at 1. lia.
Qed.

Lemma truncated_never_decodes_witness :
  read_csb (take 139 (encoding table_ab LittleEndian)) true = Raise StructError /\
  read_csb (take 139 (encoding table_ab LittleEndian)) true
    <> Ret (Some table_ab, SUCCESS).
Proof.
  split; [vm_compute; reflexivity|].
  apply (truncated_never_decodes table_ab LittleEndian); vm_compute;
    [reflexivity|lia].
Defined.
(** ** A header that is cut short *)

Lemma read_int_short data w o p {B} (k : N -> io B) :
  (length (unread data p) < w)%nat ->
  io_bind (f_read data w) (fun raw => io_bind (io_lift (unpack w o raw)) k) p
  = Raise StructError.
Proof.
  intros H. unfold io_bind, f_read, io_lift, unpack.
  rewrite take_ge by lia. case_decide; [lia|done].
Qed.

Lemma read_int_full data w o p {B} (k : N -> io B) :
  (w <= length (unread data p))%nat ->
  io_bind (f_read data w) (fun raw => io_bind (io_lift (unpack w o raw)) k) p
  = k (le_value (match o with
                 | LittleEndian => take w (unread data p)
                 | BigEndian => rev (take w (unread data p))
                 end)) (p + N.of_nat w).
Proof.
  intros H. unfold io_bind, f_read, io_lift, unpack.
  assert (length (take w (unread data p)) = w) as Hl by (rewrite length_take; lia).
  case_decide; [|done]. unfold len. by rewrite Hl.
Qed.

(** X16: A stream with the magic and an order marker but fewer than the 24
    bytes of a header makes [read_csb] raise [struct.error]: there is no
    error value for a header that is cut short. *)
Theorem short_header_raises data v :
  take 4 data = magic_CSB ->
  is_Some (order_of_marker (take 2 (drop 4 data))) ->
  (length data < 24)%nat ->
  read_csb data v = Raise StructError.
Proof.
  intros Hm [o Ho] Hl.
  pose proof (order_of_marker_length _ _ Ho) as Lmk.
  assert (unread data 0 = magic_CSB ++ take 2 (drop 4 data) ++ drop 6 data) as H.
  { rewrite unread_drop. change (N.to_nat 0) with 0%nat. rewrite drop_0.
    rewrite <- Hm. rewrite <- (take_drop 4 data) at 1. f_equal.
    rewrite <- (take_drop 2 (drop 4 data)) at 1. f_equal. by rewrite drop_drop. }
  unfold read_csb, read_csb_io, unpack_I.
  rewrite (bind_read _ _ _ _ _ _ H) by done. apply unread_advance in H. cbv beta.
  case_decide; [done|].
  rewrite (bind_read _ _ _ _ _ _ H) by done. apply unread_advance in H. cbv beta.
  rewrite Ho. unfold io_bind at 1. unfold f_read at 1. rewrite H.
  unfold len. rewrite Lmk. simpl length.
  assert (length data = length (drop 6 data) + 6)%nat as Ld.
  { rewrite length_take, length_drop in Lmk. rewrite length_drop. lia. }
  set (p := 0 + N.of_nat 4 + N.of_nat 2 + N.of_nat (length (take 6 (drop 6 data)))).
  assert (forall j, length (unread data (p + N.of_nat j)) = (length data - 12 - j)%nat)
    as Hu.
  { intros j. rewrite unread_drop, length_drop. unfold p.
    rewrite length_take, length_drop. lia. }
  pose proof (Hu 0%nat) as Hu0. change (N.of_nat 0) with 0 in Hu0.
  rewrite N.add_0_r in Hu0.
  destruct (decide (length data < 16)%nat).
  { rewrite read_int_short; [done|].
    rewrite Hu0. lia. }
  rewrite read_int_full by (rewrite Hu0; lia).
  destruct (decide (length data < 20)%nat).
  { rewrite read_int_short; [done|]. rewrite (Hu 4%nat). lia. }
  rewrite read_int_full by (rewrite (Hu 4%nat); lia).
  rewrite read_int_short; [done|].
  replace (p + N.of_nat 4 + N.of_nat 4) with (p + N.of_nat 8) by lia.
  rewrite (Hu 8%nat). lia.
Qed.

Lemma short_header_raises_witness :
  read_csb (take 23 (encoding table_ab BigEndian)) false = Raise StructError.
Proof. apply short_header_raises; vm_compute; [reflexivity|by eexists|lia]. Defined.

(** * C strings *)

Lemma c_string_bytes_none X : x00 ∉ X -> c_string_bytes X = Raise IndexError.
Proof.
  induction X as [|b X IH]; [done|]. intros [Hb HX]%not_elem_of_cons. simpl.
  destruct (decide (b = x00)); [congruence|]. by rewrite IH.
Qed.

Lemma read_c_string_upto data p bs rest :
  unread data p = bs ++ x00 :: rest -> (x00 ∉ bs) ->
  read_c_string data p = Ret (utf8_decode bs, p + len bs + 1).
Proof. unfold read_c_string. intros -> H. by rewrite c_string_bytes_app. Qed.

(** X17: [read_c_string] reads up to the first NUL byte at or after the
    position and no further: it returns the bytes before it, decoded, and
    stops just behind it.  When no NUL byte follows it raises [IndexError]
    at the end of the file. *)
Theorem read_c_string_spec data p :
  ((x00 ∉ unread data p) -> read_c_string data p = Raise IndexError) /\
  (forall bs rest,
     unread data p = bs ++ x00 :: rest -> (x00 ∉ bs) ->
     read_c_string data p = Ret (utf8_decode bs, p + len bs + 1)).
Proof.
  split.
  - intros H. unfold read_c_string. by rewrite c_string_bytes_none.
  - apply read_c_string_upto.
Qed.

Lemma read_c_string_spec_witness :
  read_c_string [x00] 1 = Raise IndexError /\
  read_c_string (encoding table_ab LittleEndian) 42
    = Ret (utf8_decode [byte_of_N 98], 42 + len [byte_of_N 98] + 1).
Proof.
  split.
  - apply read_c_string_spec. vm_compute. apply not_elem_of_nil.
  - apply (proj2 (read_c_string_spec _ _) _
             (drop 44 (encoding table_ab LittleEndian))).
    + vm_compute. reflexivity.
    + vm_compute. intros H. apply list_elem_of_singleton in H. discriminate.
Defined.

Lemma before_nul_split s :
  s = before_nul s \/ exists tail, s = before_nul s ++ 0 :: tail.
Proof.
  induction s as [|c s IH]; [by left|]. simpl.
  destruct (decide (c = 0)) as [->|Hc]; [right; by exists s|].
  destruct IH as [IH|[tail IH]].
  - left. by f_equal.
  - right. exists tail. simpl. by f_equal.
Qed.

Lemma before_nul_no_nul s : Forall is_code_point s -> no_nul (before_nul s).
Proof.
  induction 1 as [|c s Hc Hs IH]; simpl; [constructor|].
  destruct (decide (c = 0)); by constructor.
Qed.

Lemma utf8_encode_app s r : utf8_encode (s ++ r) = utf8_encode s ++ utf8_encode r.
Proof. unfold utf8_encode. by rewrite map_app, concat_app. Qed.

(** X18: What [write_c_string] wrote, [read_c_string] reads back up to the
    first U+0000 of the string: the rest of the string is in the file but
    out of the reader's reach.  The position moves behind the first NUL. *)
Theorem read_write_c_string data p s rest :
  Forall is_code_point s ->
  unread data p = c_string s ++ rest ->
  read_c_string data p =
  Ret (lossy (before_nul s), p + len (utf8_encode (before_nul s)) + 1).
Proof.
  intros Hs Hu.
  pose proof (utf8_encode_no_nul _ (before_nul_no_nul _ Hs)) as Hn.
  unfold c_string in Hu.
  destruct (before_nul_split s) as [E|[tail E]].
  - apply (read_c_string_upto data p _ rest); [|done].
    rewrite Hu, <- E. by rewrite <- app_assoc.
  - apply (read_c_string_upto data p _
             (utf8_encode tail ++ [x00] ++ rest)); [|done].
    rewrite Hu. rewrite E at 1. rewrite utf8_encode_app.
    change (utf8_encode (0 :: tail)) with (x00 :: utf8_encode tail).
    by rewrite <- !app_assoc.
Qed.

Lemma read_write_c_string_witness :
  read_c_string (c_string [97; 0; 98] ++ [x01]) 0 =
  Ret (lossy (before_nul [97; 0; 98]),
       0 + len (utf8_encode (before_nul [97; 0; 98])) + 1).
Proof.
  apply (read_write_c_string _ _ _ [x01]).
  - repeat constructor; vm_compute; discriminate.
  - vm_compute. reflexivity.
Defined.

(** * What the writer can raise *)

Lemma obind_raise {A B} (m : outcome A) (k : A -> outcome B) e :
  obind m k = Raise e -> m = Raise e \/ exists a, m = Ret a /\ k a = Raise e.
Proof.
  destruct m as [a|e']; simpl; intros H; [right; by exists a|].
  injection H as ->. by left.
Qed.

Lemma pack_raise w o n e : pack w o n = Raise e -> e = StructError.
Proof. unfold pack. case_match; congruence. Qed.

Lemma write_strp_raise f o t e : write_strp f o t = Raise e -> e = StructError.
Proof.
  unfold write_strp, pack_Q, pack_I.
  intros [H|(c & _ & H)]%obind_raise; [by eapply pack_raise|].
  destruct (write_strp_loop _ _ _ _) as [blk sm].
  apply obind_raise in H as [H|(l & _ & H)]; [by eapply pack_raise|done].
Qed.

Lemma write_lnp_fields_raise o sm line blk e :
  (forall s, s ∈ line -> is_Some (sm !! s)) ->
  write_lnp_fields o sm line blk = Raise e -> e = StructError.
Proof.
  revert blk. induction line as [|s line IH]; intros blk Hsm; [done|].
  cbn [write_lnp_fields]. unfold getitem, pack_Q.
  destruct (Hsm s) as [a ->]; [by left|]. simpl.
  intros [H|(raw & _ & H)]%obind_raise; [by eapply pack_raise|].
  eapply IH; [|done]. intros s' Hs'. apply Hsm. by right.
Qed.

Lemma write_lnp_loop_raise o sm ft lines blk lm e :
  (forall line s, line ∈ lines -> s ∈ line -> is_Some (sm !! s)) ->
  write_lnp_loop o sm ft lines blk lm = Raise e -> e = StructError.
Proof.
  revert blk lm. induction lines as [|line lines IH]; intros blk lm Hsm; [done|].
  cbn [write_lnp_loop]. unfold pack_Q.
  intros [H|(c & _ & H)]%obind_raise; [by eapply pack_raise|].
  apply obind_raise in H as [H|(a & _ & H)]; [by eapply pack_raise|].
  apply obind_raise in H as [H|(blk' & _ & H)].
  - eapply write_lnp_fields_raise; [|done]. intros s Hs. eapply Hsm; [by left|done].
  - eapply IH; [|done]. intros l s Hl Hs. eapply Hsm; [by right|done].
Qed.

Lemma write_lnp_raise f o lines sm e :
  (forall line s, line ∈ lines -> s ∈ line -> is_Some (sm !! s)) ->
  write_lnp f o lines sm = Raise e -> e = StructError.
Proof.
  unfold write_lnp, pack_Q, pack_I. intros Hsm.
  intros [H|(c & _ & H)]%obind_raise; [by eapply pack_raise|].
  apply obind_raise in H as [H|([blk lm] & _ & H)].
  - by eapply write_lnp_loop_raise.
  - apply obind_raise in H as [H|(l & _ & H)]; [by eapply pack_raise|done].
Qed.

Lemma write_lnt_loop_raise o line_map blk e :
  write_lnt_loop o line_map blk = Raise e -> e = StructError.
Proof.
  revert blk. induction line_map as [|a lm IH]; intros blk; [done|].
  cbn [write_lnt_loop]. unfold pack_Q.
  intros [H|(raw & _ & H)]%obind_raise; [by eapply pack_raise|by eapply IH].
Qed.

Lemma write_lnt_raise f o lines line_map e :
  write_lnt f o lines line_map = Raise e -> e = StructError.
Proof.
  unfold write_lnt, pack_Q, pack_I.
  intros [H|(c & _ & H)]%obind_raise; [by eapply pack_raise|].
  apply obind_raise in H as [H|(blk & _ & H)]; [by eapply write_lnt_loop_raise|].
  apply obind_raise in H as [H|(l & _ & H)]; [by eapply pack_raise|done].
Qed.

Lemma write_csb_raise t o e : write_csb t o = Raise e -> e = StructError.
Proof.
  unfold write_csb, write_csb_to, pack_I.
  destruct (header_counts t 0 0) as [tf mc].
  intros [H|(r1 & _ & H)]%obind_raise; [by eapply pack_raise|].
  apply obind_raise in H as [H|(r2 & _ & H)]; [by eapply pack_raise|].
  apply obind_raise in H as [H|(r3 & _ & H)]; [by eapply pack_raise|].
  apply obind_raise in H as [H|([f1 sm] & Hs & H)]; [by eapply write_strp_raise|].
  apply obind_raise in H as [H|([f2 lm] & _ & H)]; [|by eapply write_lnt_raise].
  eapply write_lnp_raise; [|done].
  apply write_strp_spec in Hs as (_ & -> & _). intros line s Hl Hs.
  rewrite pool_index_lookup; [done|apply get_unique_strs_NoDup|].
  apply get_unique_strs_elem. eauto.
Qed.

(** X19: [write_csb] either returns, with the encoding in its closed form, or
    raises [struct.error]; which of the two is decided by the sizes alone.
    In particular the lookups in the string index never raise [KeyError]. *)
Theorem write_csb_outcome t o :
  (fits t o /\ write_csb t o = Ret (layout t o)) \/
  (~ fits t o /\ write_csb t o = Raise StructError).
Proof.
  destruct (write_csb t o) as [out|e] eqn:E.
  - apply write_csb_iff in E as [Hf ->]. by left.
  - right. rewrite (write_csb_raise _ _ _ E). split; [|done].
    intros Hf. apply write_csb_fits in Hf. congruence.
Qed.

(** * The size of an encoding *)

Lemma len_records_bytes o addr a t :
  len (records_bytes o addr a t) = 16 * len t + 8 * total_fields_of t.
Proof.
  revert a. induction t as [|line t IH]; intros a; [done|].
  rewrite len_records_bytes_cons, IH, len_cons. simpl. lia.
Qed.

(** X20: An encoding takes 72 bytes for the header and the three block
    headers, the C strings of the distinct field values, 24 bytes for every
    row and 8 bytes for every field. *)
Theorem encoding_size t o out :
  write_csb t o = Ret out ->
  len out =
  72 + len (pool_bytes (get_unique_strs t)) + 24 * len t + 8 * total_fields_of t.
Proof.
  intros [_ ->]%write_csb_iff.
  rewrite len_layout. unfold lnt_start, lnp_start.
  rewrite len_strp_block, len_lnp_block, len_lnt_block, len_records_bytes. lia.
Qed.

Lemma encoding_size_witness :
  len (encoding table_ab LittleEndian) =
  72 + len (pool_bytes (get_unique_strs table_ab)) + 24 * len table_ab
  + 8 * total_fields_of table_ab.
Proof. apply (encoding_size _ LittleEndian). vm_compute. reflexivity. Defined.

Section Encode_properties.

Context {world : Type}.
Variable read_text : pystr -> world -> option pystr.
Variable open_wb : pystr -> world -> option world.
Variable close_written : pystr -> list byte -> world -> world.
Variable close_abandoned : pystr -> world -> world.
Variable print : pystr -> world -> world.
Variable basename : pystr -> pystr.
Variable path_join : pystr -> pystr -> pystr.
Variable abspath : pystr -> pystr.

(** X21: A call of [encode] that returns has gone through one world per
    file, from the world it was called in to the world it leaves: in the
    world before a file it has read the text of the file and opened an
    output whose name ends with [.csb], and the world after the file is the
    one in which that output was closed with the encoding of the table that
    [read_csv] made of the text written to it, and then the message printed
    unless [silent].  The sizes of every table fit the format, and a text
    without U+0000 is one that [read_csb] gets back from the bytes written,
    after validation, up to the loss of lone surrogates. *)
Theorem encode_returned files outdir o silent w w' :
  encode read_text open_wb close_written close_abandoned print basename
    path_join abspath files outdir o silent w = (Returned, w') ->
  exists ws : list world,
    length ws = S (length files) /\
    ws !! 0%nat = Some w /\
    ws !! length files = Some w' /\
    forall i file,
      files !! i = Some file ->
      exists w0 w1 text,
        ws !! i = Some w0 /\
        read_text file w0 = Some text /\
        open_wb (path_join outdir (get_csb_name (basename file))) w0
          = Some w1 /\
        endswith (get_csb_name (basename file)) (str ".csb") = true /\
        fits (read_csv text) o /\
        write_csb (read_csv text) o = Ret (layout (read_csv text) o) /\
        ws !! S i =
          Some (let w2 :=
                  close_written
                    (path_join outdir (get_csb_name (basename file)))
                    (layout (read_csv text) o) w1 in
                if negb silent then
                  print (str "Encoded " ++ abspath file ++ str " to "
                         ++ abspath (path_join outdir
                                       (get_csb_name (basename file)))) w2
                else w2) /\
        (no_nul text ->
         read_csb (layout (read_csv text) o) true
           = Ret (Some (lossy_table (read_csv text)), SUCCESS)).
Proof.
  revert w. induction files as [|file rest IH]; intros w.
  { intros [= <-]. exists [w]. split; [done|]. split; [done|].
    split; [done|]. intros i file Hi. by rewrite lookup_nil in Hi. }
  cbn [encode].
  destruct (read_text file w) as [text|] eqn:Er; [|done].
  destruct (open_wb _ w) as [w1|] eqn:Eo; [|done].
  destruct (write_csb (read_csv text) o) as [f|e] eqn:Ew; [|done].
  apply write_csb_iff in Ew as [Hf ->].
  intros (ws & Hlen & H0 & Hlast & Hall)%IH.
  exists (w :: ws). split; [simpl; lia|]. split; [done|].
  split; [exact Hlast|].
  intros [|i] file' Hi.
  - injection Hi as <-. exists w, w1, text.
    split; [done|]. split; [exact Er|]. split; [exact Eo|].
    split; [apply get_csb_name_ends|]. split; [exact Hf|].
    split; [apply write_csb_fits; exact Hf|]. split; [exact H0|].
    intros Hn. apply read_layout; [|exact Hf].
    rewrite read_csv_map. apply Forall_map, Forall_forall. intros line Hl.
    apply split_from_Forall; [constructor|].
    pose proof (split_from_Forall _ newline [] text (Forall_nil_2 _) Hn) as Hs.
    by apply (proj1 (Forall_forall _ _) Hs).
  - apply (Hall i file' Hi).
Qed.

(** X22: [encode] never leaves through [exit], and the only exception of the
    codec that can escape from it is [struct.error], for a file whose
    table does not fit the sizes of the format. *)
Theorem encode_ending files outdir o silent w r w' :
  encode read_text open_wb close_written close_abandoned print basename
    path_join abspath files outdir o silent w = (r, w') ->
  (forall status, r <> Exited status) /\
  (forall e, r = Uncaught e ->
     e = StructError /\
     exists file w0 text,
       file ∈ files /\ read_text file w0 = Some text /\
       ~ fits (read_csv text) o).
Proof.
  revert w. induction files as [|file rest IH]; intros w.
  { by intros [= <- <-]. }
  cbn [encode].
  destruct (read_text file w) as [text|] eqn:Er; [|by intros [= <- <-]].
  destruct (open_wb _ w) as [w1|] eqn:Eo; [|by intros [= <- <-]].
  destruct (write_csb (read_csv text) o) as [out|e'] eqn:Ew.
  - intros H. apply IH in H as [H1 H2]. split; [done|].
    intros e He. destruct (H2 e He) as (-> & f & w0 & t & Hin & H).
    split; [done|]. exists f, w0, t. split; [by right|done].
  - intros [= <- <-]. split; [done|]. intros e [= <-].
    split; [by eapply write_csb_raise|].
    exists file, w, text. split; [by left|]. split; [done|].
    intros Hf. apply write_csb_fits in Hf. congruence.
Qed.

End Encode_properties.

Lemma encode_returned_witness :
  snd (example_encode [str "in/a.csv"])
    = [Encode_opened (str "out/a.csv.csb");
       Encode_closed (str "out/a.csv.csb") (encoding table_ab LittleEndian)] /\
  exists ws : list (list encode_event),
    length ws = 2%nat /\
    ws !! 0%nat = Some [] /\
    ws !! 1%nat = Some (snd (example_encode [str "in/a.csv"])) /\
    forall i file,
      [str "in/a.csv"] !! i = Some file ->
      exists w0 w1 text,
        ws !! i = Some w0 /\
        Some text_ab = Some text /\
        Some (w0 ++ [Encode_opened
                       (example_join (str "out")
                          (get_csb_name (example_basename file)))])
          = Some w1 /\
        endswith (get_csb_name (example_basename file)) (str ".csb")
          = true /\
        fits (read_csv text) LittleEndian /\
        write_csb (read_csv text) LittleEndian
          = Ret (layout (read_csv text) LittleEndian) /\
        ws !! S i =
          Some (w1 ++ [Encode_closed
                         (example_join (str "out")
                            (get_csb_name (example_basename file)))
                         (layout (read_csv text) LittleEndian)]) /\
        (no_nul text ->
         read_csb (layout (read_csv text) LittleEndian) true
           = Ret (Some (lossy_table (read_csv text)), SUCCESS)).
Proof.
  split; [vm_compute; reflexivity|].
  refine (encode_returned (fun _ _ => Some text_ab)
            (fun path w => Some (w ++ [Encode_opened path]))
            (fun path data w => w ++ [Encode_closed path data])
            (fun path w => w ++ [Encode_abandoned path])
            (fun text w => w ++ [Encode_printed text])
            example_basename example_join id [str "in/a.csv"] (str "out")
            LittleEndian true []
            (snd (example_encode [str "in/a.csv"])) _).
  vm_compute. reflexivity.
Defined.

Lemma encode_ending_witness :
  (forall status, Returned <> Exited status) /\
  (forall e, Returned = Uncaught e ->
     e = StructError /\
     exists file w0 text,
       file ∈ [str "in/a.csv"; str "in/b.csv"] /\
       (fun (_ : pystr) (_ : list encode_event) => Some text_ab) file w0
         = Some text /\
       ~ fits (read_csv text) LittleEndian).
Proof.
  refine (encode_ending (fun _ _ => Some text_ab)
            (fun path w => Some (w ++ [Encode_opened path]))
            (fun path data w => w ++ [Encode_closed path data])
            (fun path w => w ++ [Encode_abandoned path])
            (fun text w => w ++ [Encode_printed text])
            example_basename example_join id
            [str "in/a.csv"; str "in/b.csv"] (str "out") LittleEndian true []
            Returned (snd (example_encode [str "in/a.csv"; str "in/b.csv"])) _).
  vm_compute. reflexivity.
Defined.

(** * The LineOrder block decides the rows *)

Lemma row_address_lookup t o order :
  Forall (fun i => (i < length t)%nat) order ->
  Forall2 (fun a l => record_map (lnp_start o t + 16) t ∅ !! a = Some l)
    (map (row_address t o) order) (rows_in_order (lossy_table t) order) /\
  Forall (fun a => a < lnp_start o t + 16
                       + len (records_bytes o (pool_addr 40 (get_unique_strs t))
                                (lnp_start o t + 16) t))
    (map (row_address t o) order).
Proof.
  pose proof (record_map_lookup (lnp_start o t + 16) t ∅) as HM.
  pose proof (record_addrs_bound o (pool_addr 40 (get_unique_strs t))
                (lnp_start o t + 16) t) as HB.
  induction 1 as [|i order Hi _ [IH1 IH2]]; [by split; constructor|].
  assert (is_Some (record_addrs (lnp_start o t + 16) t !! i)) as [a Ha].
  { apply lookup_lt_is_Some. by rewrite length_record_addrs. }
  assert (is_Some (lossy_table t !! i)) as [l Hl].
  { apply lookup_lt_is_Some. unfold lossy_table. by rewrite length_map. }
  cbn [map rows_in_order]. unfold row_address at 1 3. rewrite Ha, Hl. simpl.
  split; constructor; try done.
  - eapply (Forall2_lookup_lr _ _ _ i) in HM; [exact HM|exact Ha|exact Hl].
  - apply (proj1 (Forall_forall _ _) HB a). eapply list_elem_of_lookup_2, Ha.
Qed.

Lemma seq_lookups {A} (d : A) (l : list A) :
  map (fun i => default d (l !! i)) (seq 0 (length l)) = l.
Proof.
  induction l as [|x l IH] using rev_ind; [done|].
  rewrite length_app. simpl length. rewrite Nat.add_1_r, seq_S, map_app.
  cbn [map Nat.add].
  rewrite lookup_app_r, Nat.sub_diag by lia. simpl. f_equal.
  rewrite <- IH at 2. apply map_ext_in. intros i Hi%in_seq.
  by rewrite lookup_app_l by lia.
Qed.

(** X23: The rows that [read_csb] returns are the records that the LineOrder
    block lists, in its order and as often as it lists them: for an
    encoding whose LineOrder block names the records of any rows, the
    reader without validation returns those rows.  The writer itself lists
    every record once, in the order of the table. *)
Theorem line_order_decides :
  (forall t o order,
     table_no_nul t -> fits t o ->
     Forall (fun i => (i < length t)%nat) order ->
     8 * len order + 16 < 2 ^ 32 ->
     read_csb (with_line_order t o order) false
       = Ret (Some (rows_in_order (lossy_table t) order), SUCCESS)) /\
  (forall t o, with_line_order t o (seq 0 (length t)) = layout t o).
Proof.
  split.
  - intros t o order Ht Hf Ho Hlen. unfold with_line_order.
    rewrite (read_csb_declared _ _ o _ _ _ (declared_with_body t o _ Hf)).
    pose proof (unread_with_body t o
                  (strp_block o t ++ lnp_block o t ++
                   block magic_LNT o
                     (int_bytes 8 o (len order) ++
                      concat (map (int_bytes 8 o) (map (row_address t o) order)))))
      as H.
    match goal with |- context [read_blocks ?d _] => set (data := d) in * end.
    unfold read_blocks.
    pose proof Hf as (_ & _ & Hn & Hs & Hl & _).
    rewrite (strp_step _ _ _ _ H Ht Hs).
    apply unread_advance in H. fold (lnp_start o t) in H.
    rewrite (lnp_step _ _ _ _ H Hf).
    apply unread_advance in H. fold (lnt_start o t) in H.
    rewrite <- (app_nil_r (block _ _ _)) in H.
    destruct (row_address_lookup t o order Ho) as [H1 H2].
    pose proof (len_strp_block o t) as Es.
    pose proof (len_lnp_block o t) as El.
    assert (len (map (row_address t o) order) = len order) as Ea
      by (unfold len; by rewrite length_map).
    rewrite (read_lnt_at data o _ (len order) (map (row_address t o) order)
               (rows_in_order (lossy_table t) order) (lnt_start o t) [] H);
      [done|by rewrite Ea|done| |rewrite Ea; lia|].
    + eapply Forall_impl; [exact H2|]. intros a Ha. cbv beta in Ha.
      unfold lnp_start in *. lia.
    + unfold lnt_start, lnp_start. lia.
  - intros t o. unfold with_line_order, layout, lnt_block, lnt_payload.
    do 5 f_equal.
    + unfold len. by rewrite length_seq.
    + f_equal. unfold row_address.
      rewrite <- (length_record_addrs (lnp_start o t + 16) t).
      f_equal. apply seq_lookups.
Qed.

Lemma line_order_decides_witness :
  read_csb (with_line_order table_ab BigEndian [1; 1; 0]%nat) false
    = Ret (Some (rows_in_order (lossy_table table_ab) [1; 1; 0]%nat), SUCCESS).
Proof.
  apply (proj1 line_order_decides).
  - apply table_is_text_no_nul, table_ab_is_text.
  - apply table_ab_fits.
  - repeat constructor.
  - vm_compute. reflexivity.
Defined.

(** * The six bytes after the order marker *)

Lemma patch_reserved data r :
  length r = 6%nat -> (12 <= length data)%nat ->
  patch data 6 r = take 6 data ++ r ++ drop 12 data.
Proof. intros Hr Hd. unfold patch. by rewrite Hr. Qed.

Lemma declared_patch_reserved data r :
  length r = 6%nat -> (12 <= length data)%nat ->
  declared (patch data 6 r) = declared data.
Proof.
  intros Hr Hd. rewrite patch_reserved by done. unfold declared.
  assert (length (take 6 data) = 6%nat) as L6 by (rewrite length_take; lia).
  rewrite (take_app_le (take 6 data)) by lia.
  rewrite take_take. change (4 `min` 6)%nat with 4%nat.
  rewrite (drop_app_le (take 6 data) _ 4) by lia.
  rewrite (take_app_le (drop 4 (take 6 data))) by (rewrite length_drop; lia).
  assert (drop 4 (take 6 data) = take 2 (drop 4 data)) as ->
    by (symmetry; apply (take_drop_commute data 2 4)).
  rewrite take_take.
  change (2 `min` 2)%nat with 2%nat.
  rewrite !(drop_app_ge (take 6 data)) by lia. rewrite L6.
  rewrite !(drop_app_ge r) by lia. rewrite Hr. rewrite !drop_drop.
  done.
Qed.

Lemma unread_patch_reserved data r :
  length r = 6%nat -> (12 <= length data)%nat ->
  unread (patch data 6 r) 24 = unread data 24.
Proof.
  intros Hr Hd. rewrite patch_reserved by done. rewrite !unread_drop.
  assert (length (take 6 data) = 6%nat) as L6 by (rewrite length_take; lia).
  change (N.to_nat 24) with 24%nat.
  rewrite (drop_app_ge (take 6 data)) by lia. rewrite L6.
  rewrite (drop_app_ge r) by lia. rewrite Hr. by rewrite drop_drop.
Qed.

(** X24: The reader ignores the six bytes after the order marker: an encoding
    decodes to the same table, with or without validation, whatever they
    are changed to. *)
Theorem reserved_ignored t o out r v :
  table_no_nul t -> write_csb t o = Ret out -> length r = 6%nat ->
  read_csb (patch out 6 r) v = Ret (Some (lossy_table t), SUCCESS).
Proof.
  intros Ht [Hf ->]%write_csb_iff Hr.
  assert (12 <= length (layout t o))%nat as Hl.
  { pose proof (len_layout t o) as E. unfold len, lnt_start, lnp_start in E. lia. }
  rewrite (read_csb_declared _ v o (total_fields_of t) (max_columns_of t)
             (total_lines_of t))
    by (rewrite declared_patch_reserved by done; by apply declared_layout).
  rewrite (read_blocks_at _ o t []);
    [|rewrite unread_patch_reserved by done; apply unread_layout|done|done].
  destruct v; [|done].
  rewrite validate_spec, len_lossy_table, total_fields_lossy_table,
    max_columns_lossy_table.
  repeat case_decide; congruence.
Qed.

Lemma reserved_ignored_witness :
  read_csb (patch (encoding table_ab LittleEndian) 6 other_reserved) true
    = Ret (Some (lossy_table table_ab), SUCCESS).
Proof.
  apply (reserved_ignored table_ab LittleEndian _ _ true).
  - apply table_is_text_no_nul, table_ab_is_text.
  - vm_compute. reflexivity.
  - reflexivity.
Defined.

Lemma read_csb_answers_witness :
  (is_Some (Some table_ab) /\ SUCCESS = SUCCESS) \/
  (Some table_ab = None /\ SUCCESS <> SUCCESS /\ 1 <= ReadError_value SUCCESS <= 8).
Proof.
  apply (read_csb_answers (encoding table_ab LittleEndian) true).
  vm_compute. reflexivity.
Defined.

(** * Error texts *)

(** X25: Only [SUCCESS] has no text, and different errors have different texts:
    what [decode] prints tells which error it was. *)
Theorem get_error_text_injective e1 e2 :
  (get_error_text e1 = None <-> e1 = SUCCESS) /\
  (get_error_text e1 = get_error_text e2 -> e1 = e2).
Proof.
  split.
  - split; [|by intros ->]. by destruct e1.
  - destruct e1, e2; vm_compute; intros H; first [reflexivity|discriminate H].
Qed.

Lemma get_error_text_injective_witness :
  (get_error_text INVALID_LNP_MAGIC = None <-> INVALID_LNP_MAGIC = SUCCESS) /\
  INVALID_LNP_MAGIC = INVALID_LNP_MAGIC.
Proof.
  split; [apply (get_error_text_injective INVALID_LNP_MAGIC SUCCESS)|].
  apply (get_error_text_injective INVALID_LNP_MAGIC INVALID_LNP_MAGIC).
  reflexivity.
Defined.

Example select_files_file_names :
  select_files true true file_names = Ret [str "a.csb"; str "a.csb"] /\
  select_files true false file_names = Ret [str "b.csv"] /\
  select_files false true file_names = Ret file_names.
Proof. repeat split. Qed.

Example decode_example_files :
  example_decode example_files true = (Exited 1, [Written (str "out/a.csv") text_ab]).
Proof. vm_compute. reflexivity. Qed.

(** * Where a block reader stops *)

Lemma seek_then_ret {A} (a : A) target p r q :
  io_bind (f_seek target) (fun _ => io_ret a) p = Ret (r, q) ->
  r = a /\ q = target.
Proof.
  intros (u & p' & Hs & H)%bind_inv. unfold f_seek in Hs.
  destruct (target <? 2 ^ 63); [|discriminate].
  injection Hs as _ <-. unfold io_ret in H. by injection H as <- <-.
Qed.

(** X26: Whatever the stream, a block reader that returns a map or rows has
    moved the stream to the start of its block plus the length that the
    block declares in the four bytes after its magic, however many bytes
    its entries took: what lies between the last entry and the declared end
    is skipped. *)
Theorem block_end_declared :
  (forall data o p sm e q,
     read_strp data o p = Ret ((Some sm, e), q) ->
     exists block_length,
       unpack_I o (take 4 (unread data (p + 4))) = Ret block_length /\
       q = p + block_length) /\
  (forall data o str_map p lm e q,
     read_lnp data o str_map p = Ret ((Some lm, e), q) ->
     exists block_length,
       unpack_I o (take 4 (unread data (p + 4))) = Ret block_length /\
       q = p + block_length) /\
  (forall data o line_map p lines e q,
     read_lnt data o line_map p = Ret ((Some lines, e), q) ->
     exists block_length,
       unpack_I o (take 4 (unread data (p + 4))) = Ret block_length /\
       q = p + block_length).
Proof.
  split; [|split].
  - intros data o p sm e q. unfold read_strp, unpack_I, unpack_Q.
    rewrite !bind_tell. intros H.
    apply (read_magic_ext _ []) in H as (H & _ & _); [|done].
    apply (read_int_ext _ []) in H as (bl & Hbl & H & _).
    apply (read_int_ext _ []) in H as (n & _ & H & _).
    apply bind_inv in H as (m & p' & _ & H).
    apply seek_then_ret in H as [_ ->]. by exists bl.
  - intros data o str_map p lm e q. unfold read_lnp, unpack_I, unpack_Q.
    rewrite !bind_tell. intros H.
    apply (read_magic_ext _ []) in H as (H & _ & _); [|done].
    apply (read_int_ext _ []) in H as (bl & Hbl & H & _).
    apply (read_int_ext _ []) in H as (n & _ & H & _).
    apply bind_inv in H as (m & p' & _ & H).
    apply seek_then_ret in H as [_ ->]. by exists bl.
  - intros data o line_map p lines e q. unfold read_lnt, unpack_I, unpack_Q.
    rewrite !bind_tell. intros H.
    apply (read_magic_ext _ []) in H as (H & _ & _); [|done].
    apply (read_int_ext _ []) in H as (bl & Hbl & H & _).
    apply (read_int_ext _ []) in H as (n & _ & H & _).
    apply bind_inv in H as (m & p' & _ & H).
    apply seek_then_ret in H as [_ ->]. by exists bl.
Qed.

Lemma block_end_declared_witness :
  exists block_length,
    unpack_I BigEndian (take 4 (unread (padded_pool BigEndian) (0 + 4)))
      = Ret block_length /\
    28 = 0 + block_length.
Proof.
  apply (proj1 block_end_declared (padded_pool BigEndian) BigEndian 0
           {[16 := [97]]} SUCCESS 28).
  vm_compute. reflexivity.
Defined.

(** * What is lost is lost once *)

Lemma decoded_2 n0 n1 :
  194 <= n0 -> n0 < 224 -> 128 <= n1 -> n1 < 192 ->
  128 <= n0 mod 32 * 64 + n1 mod 64 /\
  is_scalar (n0 mod 32 * 64 + n1 mod 64).
Proof.
  intros. unfold is_scalar.
  assert (n0 mod 32 = n0 - 192) as ->
    by (symmetry; apply (N.mod_unique n0 32 6); lia).
  assert (n1 mod 64 = n1 - 128) as ->
    by (symmetry; apply (N.mod_unique n1 64 2); lia).
  lia.
Qed.

Lemma decoded_3 n0 n1 n2 :
  224 <= n0 -> n0 < 240 -> 128 <= n1 -> n1 < 192 -> 128 <= n2 -> n2 < 192 ->
  (n0 = 224 -> 160 <= n1) -> (n0 = 237 -> n1 < 160) ->
  128 <= n0 mod 16 * 4096 + n1 mod 64 * 64 + n2 mod 64 /\
  is_scalar (n0 mod 16 * 4096 + n1 mod 64 * 64 + n2 mod 64).
Proof.
  intros. unfold is_scalar.
  assert (n0 mod 16 = n0 - 224) as ->
    by (symmetry; apply (N.mod_unique n0 16 14); lia).
  assert (n1 mod 64 = n1 - 128) as ->
    by (symmetry; apply (N.mod_unique n1 64 2); lia).
  assert (n2 mod 64 = n2 - 128) as ->
    by (symmetry; apply (N.mod_unique n2 64 2); lia).
  lia.
Qed.

Lemma decoded_4 n0 n1 n2 n3 :
  240 <= n0 -> n0 < 245 -> 128 <= n1 -> n1 < 192 -> 128 <= n2 -> n2 < 192 ->
  128 <= n3 -> n3 < 192 ->
  (n0 = 240 -> 144 <= n1) -> (n0 = 244 -> n1 < 144) ->
  128 <= n0 mod 8 * 262144 + n1 mod 64 * 4096 + n2 mod 64 * 64 + n3 mod 64 /\
  is_scalar (n0 mod 8 * 262144 + n1 mod 64 * 4096 + n2 mod 64 * 64 + n3 mod 64).
Proof.
  intros. unfold is_scalar.
  assert (n0 mod 8 = n0 - 240) as ->
    by (symmetry; apply (N.mod_unique n0 8 30); lia).
  assert (n1 mod 64 = n1 - 128) as ->
    by (symmetry; apply (N.mod_unique n1 64 2); lia).
  assert (n2 mod 64 = n2 - 128) as ->
    by (symmetry; apply (N.mod_unique n2 64 2); lia).
  assert (n3 mod 64 = n3 - 128) as ->
    by (symmetry; apply (N.mod_unique n3 64 2); lia).
  lia.
Qed.

Lemma utf8_decode_Forall (Q : N -> Prop) (B : byte -> Prop) :
  (forall b, B b -> Byte.to_N b < 128 -> Q (Byte.to_N b)) ->
  (forall c, 128 <= c -> is_scalar c -> Q c) ->
  forall n bs, (length bs <= n)%nat -> Forall B bs -> Forall Q (utf8_decode bs).
Proof.
  intros Hascii Hmulti.
  induction n as [|n IH]; intros bs Hl HB.
  { destruct bs; [constructor|simpl in Hl; lia]. }
  destruct bs as [|b0 r1]; [constructor|]. cbn [utf8_decode].
  apply Forall_cons in HB as [HB0 HB1]. simpl in Hl.
  assert (Forall Q (utf8_decode r1)) as IH1 by (apply IH; [lia|done]).
  destruct (Byte.to_N b0 <? 128) eqn:E0.
  { constructor; [|done]. apply Hascii; [done|]. by apply N.ltb_lt. }
  destruct (Byte.to_N b0 <? 194) eqn:E1; [done|].
  destruct (Byte.to_N b0 <? 224) eqn:E2.
  { destruct r1 as [|b1 r2]; [constructor|].
    apply Forall_cons in HB1 as [HB1 HB2]. simpl in Hl.
    destruct (is_continuation (Byte.to_N b1)) eqn:C1; [|done].
    constructor; [|apply IH; [lia|done]].
    unfold is_continuation in C1. bool_to_prop.
    destruct (decoded_2 (Byte.to_N b0) (Byte.to_N b1)) as [D1 D2];
      try assumption.
    by apply Hmulti. }
  destruct (Byte.to_N b0 <? 240) eqn:E3.
  { destruct r1 as [|b1 r2]; [constructor|].
    apply Forall_cons in HB1 as [HB1 HB2]. simpl in Hl.
    destruct (second_of_3 (Byte.to_N b0) (Byte.to_N b1)) eqn:C1; [|done].
    destruct r2 as [|b2 r3]; [constructor|].
    apply Forall_cons in HB2 as [HB2 HB3]. simpl in Hl.
    destruct (is_continuation (Byte.to_N b2)) eqn:C2;
      [|apply IH; [simpl; lia|by constructor]].
    constructor; [|apply IH; [lia|done]].
    unfold second_of_3 in C1. apply andb_true_iff in C1 as [C1 C1'].
    unfold is_continuation in C1, C2. bool_to_prop.
    destruct (decoded_3 (Byte.to_N b0) (Byte.to_N b1) (Byte.to_N b2))
      as [D1 D2]; try assumption.
    - intros E. rewrite E in C1'. by apply N.leb_le.
    - intros E. rewrite E in C1'. by apply N.ltb_lt.
    - by apply Hmulti. }
  destruct (Byte.to_N b0 <? 245) eqn:E4; [|done].
  destruct r1 as [|b1 r2]; [constructor|].
  apply Forall_cons in HB1 as [HB1 HB2]. simpl in Hl.
  destruct (second_of_4 (Byte.to_N b0) (Byte.to_N b1)) eqn:C1; [|done].
  destruct r2 as [|b2 r3]; [constructor|].
  apply Forall_cons in HB2 as [HB2 HB3]. simpl in Hl.
  destruct (is_continuation (Byte.to_N b2)) eqn:C2;
    [|apply IH; [simpl; lia|by constructor]].
  destruct r3 as [|b3 r4]; [constructor|].
  apply Forall_cons in HB3 as [HB3 HB4]. simpl in Hl.
  destruct (is_continuation (Byte.to_N b3)) eqn:C3;
    [|apply IH; [simpl; lia|by constructor]].
  constructor; [|apply IH; [lia|done]].
  unfold second_of_4 in C1. apply andb_true_iff in C1 as [C1 C1'].
  unfold is_continuation in C1, C2, C3. bool_to_prop.
  destruct (decoded_4 (Byte.to_N b0) (Byte.to_N b1) (Byte.to_N b2)
              (Byte.to_N b3)) as [D1 D2]; try assumption.
  - intros E. rewrite E in C1'. by apply N.leb_le.
  - intros E. rewrite E in C1'. by apply N.ltb_lt.
  - by apply Hmulti.
Qed.

Lemma utf8_decode_scalar bs : Forall is_scalar (utf8_decode bs).
Proof.
  apply (utf8_decode_Forall is_scalar (fun _ => True)) with (n := length bs);
    [|done|done|by apply Forall_true].
  intros b _ Hb. left. lia.
Qed.

Lemma to_N_x00 b : Byte.to_N b = 0 -> b = x00.
Proof.
  intros H. apply (f_equal Byte.of_N) in H. rewrite Byte.of_to_N in H.
  by injection H.
Qed.

Lemma utf8_decode_no_nul bs :
  (x00 ∉ bs) -> Forall (fun c => c <> 0) (utf8_decode bs).
Proof.
  intros H.
  apply (utf8_decode_Forall _ (fun b => b <> x00)) with (n := length bs);
    [| |done|].
  - intros b Hb _ E. by apply Hb, to_N_x00.
  - intros c Hc _. lia.
  - apply Forall_forall. by intros b Hb ->.
Qed.

Lemma lossy_is_text s : no_nul s -> is_text (lossy s).
Proof.
  intros H. unfold is_text, lossy.
  pose proof (utf8_decode_scalar (utf8_encode s)) as H1.
  pose proof (utf8_decode_no_nul _ (utf8_encode_no_nul _ H)) as H2.
  apply Forall_forall. intros c Hc. split.
  - by apply (proj1 (Forall_forall _ _) H2).
  - by apply (proj1 (Forall_forall _ _) H1).
Qed.

Lemma lossy_table_is_text t : table_no_nul t -> table_is_text (lossy_table t).
Proof.
  intros H. unfold lossy_table. apply Forall_map.
  eapply Forall_impl; [exact H|]. intros line Hl. cbv beta.
  apply Forall_map. eapply Forall_impl; [exact Hl|]. apply lossy_is_text.
Qed.

(** X27: What the round trip loses, it loses once.  The table that comes
    back from an encoding is text: lone surrogates are gone and nothing
    else is changed by a further round trip, so when it is encoded again
    (its sizes fitting) it decodes to itself. *)
Theorem round_trip_stable t o :
  table_no_nul t -> fits t o -> fits (lossy_table t) o ->
  exists out lines out',
    write_csb t o = Ret out /\
    read_csb out true = Ret (Some lines, SUCCESS) /\
    table_is_text lines /\
    write_csb lines o = Ret out' /\
    read_csb out' true = Ret (Some lines, SUCCESS).
Proof.
  intros Ht Hf Hf'.
  pose proof (lossy_table_is_text _ Ht) as Htext.
  exists (layout t o), (lossy_table t), (layout (lossy_table t) o).
  split; [apply write_csb_fits; exact Hf|].
  split; [apply read_layout; [exact Ht|exact Hf]|].
  split; [exact Htext|]. split; [apply write_csb_fits; exact Hf'|].
  rewrite read_layout; [|apply table_is_text_no_nul; exact Htext|exact Hf'].
  rewrite (lossy_table_text _ Htext). reflexivity.
Qed.

Lemma round_trip_stable_witness :
  exists out lines out',
    write_csb table_surrogate LittleEndian = Ret out /\
    read_csb out true = Ret (Some lines, SUCCESS) /\
    table_is_text lines /\
    write_csb lines LittleEndian = Ret out' /\
    read_csb out' true = Ret (Some lines, SUCCESS).
Proof.
  apply round_trip_stable.
  - repeat constructor; vm_compute; discriminate.
  - vm_compute. repeat split; reflexivity.
  - vm_compute. repeat split; reflexivity.
Defined.

(** * What the round trip loses *)

Lemma utf8_encode_char_surrogate c : is_surrogate c = true -> utf8_encode_char c = [].
Proof.
  intros H. unfold utf8_encode_char. rewrite H.
  unfold is_surrogate in H. bool_to_prop.
  know_ge c 128. by know_ge c 2048.
Qed.

Lemma lossy_without_surrogates s :
  Forall is_code_point s -> lossy s = without_surrogates s.
Proof.
  unfold lossy, without_surrogates, utf8_encode.
  induction 1 as [|c s Hc Hs IH]; [done|].
  cbn [map concat]. rewrite (filter_cons (fun c => is_surrogate c = false)).
  destruct (is_surrogate c) eqn:E.
  - rewrite utf8_encode_char_surrogate by done.
    destruct (decide (true = false)); [done|]. exact IH.
  - destruct (decide (false = false)); [|done].
    rewrite utf8_decode_encode_char, IH; [done|].
    unfold is_surrogate in E. unfold is_code_point in Hc. unfold is_scalar.
    apply andb_false_iff in E as [E|E]; bool_to_prop; lia.
Qed.

(** X28: What the round trip loses are exactly the lone surrogates.  A table
    none of whose fields contains U+0000 and whose sizes fit the format
    decodes, with validation, to the table whose fields are the original
    fields with the code points U+D800 to U+DFFF left out and nothing else
    changed. *)
Theorem round_trip_loss t o :
  table_no_nul t -> fits t o ->
  exists out,
    write_csb t o = Ret out /\
    read_csb out true = Ret (Some (map (map without_surrogates) t), SUCCESS).
Proof.
  intros Ht Hf. exists (layout t o).
  split; [apply write_csb_fits; exact Hf|].
  rewrite read_layout; [|exact Ht|exact Hf]. do 3 f_equal.
  unfold lossy_table. apply map_ext_Forall.
  eapply Forall_impl; [exact Ht|]. intros line Hl. cbv beta.
  apply map_ext_Forall. eapply Forall_impl; [exact Hl|]. intros s Hs. cbv beta.
  apply lossy_without_surrogates.
  eapply Forall_impl; [exact Hs|]. by intros c [_ ?].
Qed.

Lemma round_trip_loss_witness :
  exists out,
    write_csb table_surrogate BigEndian = Ret out /\
    read_csb out true
      = Ret (Some (map (map without_surrogates) table_surrogate), SUCCESS).
Proof.
  apply round_trip_loss.
  - repeat constructor; vm_compute; discriminate.
  - vm_compute. repeat split; reflexivity.
Defined.

Example round_trip_table_surrogate :
  map (map without_surrogates) table_surrogate = [[[97; 98]; [99]]].
Proof. reflexivity. Qed.
